(** * Code_Knowledge_Prep: bundling, normalisation and content ids

    A shallow embedding of the deterministic core of
    [src/Code_Knowledge_Prep.py]: the ignore matcher and the pruned
    traversal, the byte-budgeted bundle writer, the text normaliser, the
    document extractor with its content-hash ids, and the reference
    indexer.

    Python values are modelled as follows.
    - [str] is a list of Unicode code points ([N]); [U "..."] injects an
      ASCII literal.  [len] is [length], [+] is [++].
    - [bytes] is a list of octets ([N] below 256).
    - Python [int] is [Z] where a value may be negative, [N] or [nat]
      where the code only produces counts.
    - A [str] may hold lone surrogates, as a Python string may; encoding
      such a string to UTF-8 raises [UnicodeEncodeError].
    - Exceptions are explicit: a fallible function returns [result A].
    - The Unicode character database ([unicodedata.normalize],
      [str.lower], [str.title], the regex class [\w]) is a record of
      functions, [UnicodeDB]; everything is proved for an arbitrary
      database, and [ascii_db] gives its restriction to ASCII for running
      the model on ASCII inputs. *)

From Stdlib Require Import Ascii String.
From Stdlib Require Import List NArith ZArith Lia Bool Arith.
From Stdlib Require Import Sorting.Permutation Sorting.Sorted.
Import ListNotations.

(* ===================================================================== *)
(** * Python strings, bytes and exceptions *)
(* ===================================================================== *)

Module Py.

Definition str := list N.
Definition bytes := list N.

(** An ASCII literal as a [str]. *)
Definition U (s : string) : str := map N_of_ascii (list_ascii_of_string s).
Arguments U s%_string.

Definition str_eqb (a b : str) : bool :=
  if list_eq_dec N.eq_dec a b then true else false.

(** [s.startswith(p)] *)
Fixpoint startswith (s p : str) {struct p} : bool :=
  match p, s with
  | [], _ => true
  | _ :: _, [] => false
  | c :: p', d :: s' => (c =? d)%N && startswith s' p'
  end.

(** [s.endswith(p)] *)
Definition endswith (s p : str) : bool := startswith (rev s) (rev p).

(** [s.find(p)]: offset of the first occurrence, [None] for -1. *)
Fixpoint find (s p : str) : option nat :=
  if startswith s p then Some 0
  else match s with
       | [] => None
       | _ :: s' => option_map S (find s' p)
       end.

(** [p in s] *)
Definition contains (s p : str) : bool :=
  match find s p with Some _ => true | None => false end.

(** [s.replace(old, new)] for a non-empty [old]: left to right, without
    overlap.  [skip] counts the characters of a match still to be dropped. *)
Fixpoint replace_go (old new : str) (skip : nat) (s : str) : str :=
  match s with
  | [] => []
  | c :: s' =>
    match skip with
    | S k => replace_go old new k s'
    | O => if startswith s old
           then new ++ replace_go old new (length old - 1) s'
           else c :: replace_go old new 0 s'
    end
  end.

Definition replace (s old new : str) : str := replace_go old new 0 s.

(** [sep.join(parts)] *)
Fixpoint join (sep : str) (parts : list str) : str :=
  match parts with
  | [] => []
  | [p] => p
  | p :: ps => p ++ sep ++ join sep ps
  end.

(** A slice [s[a:b]] with [0 <= a], [0 <= b]. *)
Definition slice (s : str) (a b : nat) : str := firstn (b - a) (skipn a s).

(** A slice [s[:k]] for any Python integer [k]: a negative bound counts
    from the end. *)
Definition slice_to (s : list N) (k : Z) : list N :=
  if (0 <=? k)%Z then firstn (Z.to_nat k) s
  else firstn (length s - Z.to_nat (- k)) s.

(** A slice [s[-k:]] for [k > 0]. *)
Definition slice_last (s : str) (k : nat) : str := skipn (length s - k) s.

(** [str.isspace] on one code point, which is also the regex class [\s]. *)
Definition isspace (c : N) : bool :=
  ((9 <=? c) && (c <=? 13) || (28 <=? c) && (c <=? 32)
   || (c =? 0x85) || (c =? 0xA0) || (c =? 0x1680)
   || (0x2000 <=? c) && (c <=? 0x200A)
   || (c =? 0x2028) || (c =? 0x2029) || (c =? 0x202F)
   || (c =? 0x205F) || (c =? 0x3000))%N.

Fixpoint lstrip (s : str) : str :=
  match s with
  | c :: s' => if isspace c then lstrip s' else s
  | [] => []
  end.

Definition rstrip (s : str) : str := rev (lstrip (rev s)).

(** [s.strip()] *)
Definition strip (s : str) : str := rstrip (lstrip s).

(** Lexicographic comparison of strings by code point, Python's [<=]. *)
Fixpoint str_leb (a b : str) : bool :=
  match a, b with
  | [], _ => true
  | _ :: _, [] => false
  | c :: a', d :: b' => (c <? d)%N || ((c =? d)%N && str_leb a' b')
  end.

(** Exceptions the modelled code raises or meets. *)
Inductive exn : Type :=
| ExtractionError (msg : str)
| IOError (msg : str)
| UnicodeDecodeError (msg : str)
| ValueError (msg : str)
| IndexError (msg : str)
| ZeroDivisionError (msg : str)
| OtherException (name msg : str).

(** [str(e)] *)
Definition exn_msg (e : exn) : str :=
  match e with
  | ExtractionError m | IOError m | UnicodeDecodeError m | ValueError m
  | IndexError m | ZeroDivisionError m | OtherException _ m => m
  end.

(** The outcome of a call: a value, an exception, or no return at all
    (a loop that never ends). *)
Inductive result (A : Type) : Type :=
| Ok (a : A)
| Raise (e : exn)
| Diverge.
Arguments Ok {A} a.
Arguments Raise {A} e.
Arguments Diverge {A}.

Definition bind {A B} (r : result A) (k : A -> result B) : result B :=
  match r with
  | Ok a => k a
  | Raise e => Raise e
  | Diverge => Diverge
  end.

(** [try: r  except Exception as e: h e] *)
Definition try_except {A} (r : result A) (h : exn -> result A) : result A :=
  match r with
  | Ok a => Ok a
  | Raise e => h e
  | Diverge => Diverge
  end.

End Py.

Import Py.

Notation "x <- r ;; k" := (bind r (fun x => k))
  (at level 61, r at next level, right associativity).

(* ===================================================================== *)
(** * Hashing: [hashlib.sha256] and [stable_hash] *)
(* ===================================================================== *)

Module SHA256.

Local Open Scope N_scope.

Definition mask32 : N := 0xFFFFFFFF.
Definition w32 (x : N) : N := N.land x mask32.
Definition add32 (a b : N) : N := w32 (a + b).
Definition rotr (n x : N) : N :=
  N.lor (N.shiftr x n) (w32 (N.shiftl x (32 - n))).
Definition shr (n x : N) : N := N.shiftr x n.
Definition xor3 (a b c : N) : N := N.lxor (N.lxor a b) c.

Definition Ch (x y z : N) : N :=
  N.lxor (N.land x y) (N.land (N.lxor x mask32) z).
Definition Maj (x y z : N) : N :=
  xor3 (N.land x y) (N.land x z) (N.land y z).
Definition Sigma0 (x : N) : N := xor3 (rotr 2 x) (rotr 13 x) (rotr 22 x).
Definition Sigma1 (x : N) : N := xor3 (rotr 6 x) (rotr 11 x) (rotr 25 x).
Definition sigma0 (x : N) : N := xor3 (rotr 7 x) (rotr 18 x) (shr 3 x).
Definition sigma1 (x : N) : N := xor3 (rotr 17 x) (rotr 19 x) (shr 10 x).

(** The integer cube root, bit by bit from the top. *)
Fixpoint icbrt_go (bits : nat) (n r : N) : N :=
  match bits with
  | O => r
  | S b =>
    let r' := N.lor r (N.shiftl 1 (N.of_nat b)) in
    if r' * r' * r' <=? n then icbrt_go b n r' else icbrt_go b n r
  end.

Definition icbrt (n : N) : N := icbrt_go 64 n 0.

Definition primes : list N :=
  [2; 3; 5; 7; 11; 13; 17; 19; 23; 29; 31; 37; 41; 43; 47; 53; 59; 61; 67;
   71; 73; 79; 83; 89; 97; 101; 103; 107; 109; 113; 127; 131; 137; 139; 149;
   151; 157; 163; 167; 173; 179; 181; 191; 193; 197; 199; 211; 223; 227;
   229; 233; 239; 241; 251; 257; 263; 269; 271; 277; 281; 283; 293; 307;
   311].

(** The round constants: the first 32 bits of the fractional parts of the
    cube roots of the first 64 primes. *)
Definition K : list N :=
  Eval vm_compute in map (fun p => w32 (icbrt (N.shiftl p 96))) primes.

(** The initial state: the same of the square roots of the first 8. *)
Definition H0 : list N :=
  Eval vm_compute in
    map (fun p => w32 (N.sqrt (N.shiftl p 64))) (firstn 8 primes).

(** Big-endian bytes of [x], [n] of them. *)
Fixpoint be_bytes (n : nat) (x : N) : list N :=
  match n with
  | O => []
  | S k => N.land (N.shiftr x (8 * N.of_nat k)) 0xFF :: be_bytes k x
  end.

Definition pad (msg : bytes) : bytes :=
  let len := N.of_nat (length msg) in
  msg ++ [0x80] ++ repeat 0 (N.to_nat ((119 - len mod 64) mod 64))
      ++ be_bytes 8 (8 * len).

(** Four bytes at a time, big-endian. *)
Fixpoint words (bs : bytes) : list N :=
  match bs with
  | a :: b :: c :: d :: r =>
    (N.shiftl a 24 + N.shiftl b 16 + N.shiftl c 8 + d) :: words r
  | _ => []
  end.

(** The message schedule, most recent word first. *)
Fixpoint extend (n : nat) (rw : list N) : list N :=
  match n with
  | O => rw
  | S k =>
    extend k
      (add32 (add32 (sigma1 (nth 1 rw 0)) (nth 6 rw 0))
             (add32 (sigma0 (nth 14 rw 0)) (nth 15 rw 0)) :: rw)
  end.

Definition schedule (block : list N) : list N := rev (extend 48 (rev block)).

Definition round (st : list N) (kw : N * N) : list N :=
  match st with
  | [a; b; c; d; e; f; g; h] =>
    let t1 := add32 (add32 (add32 h (Sigma1 e)) (Ch e f g))
                    (add32 (fst kw) (snd kw)) in
    let t2 := add32 (Sigma0 a) (Maj a b c) in
    [add32 t1 t2; a; b; c; add32 d t1; e; f; g]
  | _ => st
  end.

Definition compress (h : list N) (block : list N) : list N :=
  map (fun p => add32 (fst p) (snd p))
      (combine h (fold_left round (combine K (schedule block)) h)).

(** Sixteen words at a time. *)
Fixpoint blocks (fuel : nat) (ws : list N) : list (list N) :=
  match fuel, ws with
  | S k, _ :: _ => firstn 16 ws :: blocks k (skipn 16 ws)
  | _, _ => []
  end.

Definition digest_words (msg : bytes) : list N :=
  let ws := words (pad msg) in
  fold_left compress (blocks (length ws) ws) H0.

Definition hex_digit (d : N) : N :=
  if d <? 10 then 48 + d else 87 + d.

Fixpoint hex_of_word (n : nat) (w : N) : str :=
  match n with
  | O => []
  | S k => hex_digit (N.land (N.shiftr w (4 * N.of_nat k)) 0xF) :: hex_of_word k w
  end.

(** [hashlib.sha256(msg).hexdigest()] *)
Definition hexdigest (msg : bytes) : str :=
  flat_map (hex_of_word 8) (digest_words msg).

End SHA256.

Section Encoding.
Local Open Scope N_scope.

(** [chr(c).encode('utf-8')] *)
Definition utf8_char (c : N) : bytes :=
  if c <? 0x80 then [c]
  else if c <? 0x800 then
    [N.lor 0xC0 (N.shiftr c 6); N.lor 0x80 (N.land c 0x3F)]
  else if c <? 0x10000 then
    [N.lor 0xE0 (N.shiftr c 12); N.lor 0x80 (N.land (N.shiftr c 6) 0x3F);
     N.lor 0x80 (N.land c 0x3F)]
  else
    [N.lor 0xF0 (N.shiftr c 18); N.lor 0x80 (N.land (N.shiftr c 12) 0x3F);
     N.lor 0x80 (N.land (N.shiftr c 6) 0x3F); N.lor 0x80 (N.land c 0x3F)].

(** The bytes of [s.encode('utf-8')] when the encoding goes through. *)
Definition encode_utf8 (s : str) : bytes := flat_map utf8_char s.

(** A Unicode scalar value: a code point that is no surrogate. *)
Definition scalar (c : N) : bool :=
  (c <? 0xD800) || (0xE000 <=? c) && (c <? 0x110000).

(** [s.encode('utf-8')]: a lone surrogate cannot be encoded.  Of the
    message of the exception the reason is kept. *)
Definition encode_utf8_strict (s : str) : result bytes :=
  if forallb scalar s then Ok (encode_utf8 s)
  else Raise (OtherException (U "UnicodeEncodeError")
                             (U "surrogates not allowed")).

End Encoding.

(** [stable_hash(content)] *)
Definition stable_hash (content : str) : result str :=
  b <- encode_utf8_strict content ;;
  Ok (U "sha256-" ++ SHA256.hexdigest b).

(* ===================================================================== *)
(** * Integers as text *)
(* ===================================================================== *)

Section Numerals.
Local Open Scope N_scope.

(** [str(n)] for [n >= 0]: decimal digits, most significant first. *)
Fixpoint dec_loop (fuel : nat) (n : N) (acc : str) : str :=
  match fuel with
  | O => acc
  | S f => if n <? 10 then (48 + n) :: acc
           else dec_loop f (n / 10) ((48 + n mod 10) :: acc)
  end.

Definition str_of_N (n : N) : str := dec_loop (S (N.to_nat (N.log2 n))) n [].

(** The number a string of decimal digits stands for. *)
Definition dec_value (s : str) : N :=
  fold_left (fun v c => 10 * v + (c - 48)) s 0.

(** [f"{i:0{w}d}"] for [i >= 0]: zero-padded on the left up to width [w],
    never cut. *)
Definition format_0d (w : nat) (i : N) : str :=
  let d := str_of_N i in repeat 48 (w - length d) ++ d.

(** A digit of a digest: [0-9a-f]. *)
Definition lower_hex (c : N) : Prop := 48 <= c <= 57 \/ 97 <= c <= 102.

(** The value of one hexadecimal digit, either case. *)
Definition hex_val (c : N) : option N :=
  if (48 <=? c) && (c <=? 57) then Some (c - 48)
  else if (97 <=? c) && (c <=? 102) then Some (c - 87)
  else if (65 <=? c) && (c <=? 70) then Some (c - 55)
  else None.

Fixpoint int_hex_go (acc : N) (s : str) : option N :=
  match s with
  | [] => Some acc
  | c :: s' => match hex_val c with
               | Some d => int_hex_go (16 * acc + d) s'
               | None => None
               end
  end.

(** [int(s, 16)] on a string of hexadecimal digits, which is what a
    digest carries.  The empty string and any other character are a
    [ValueError]; the further spellings Python accepts (sign, [0x],
    underscores, surrounding blanks) are not part of the model. *)
Definition int_hex (s : str) : result N :=
  match s with
  | [] => Raise (ValueError (U "invalid literal for int() with base 16"))
  | _ => match int_hex_go 0 s with
         | Some n => Ok n
         | None => Raise (ValueError (U "invalid literal for int() with base 16"))
         end
  end.

(** [s.zfill(width)]: zeros go after a leading sign. *)
Definition zfill (s : str) (width : Z) : str :=
  let pad := repeat 48 (Z.to_nat width - length s) in
  match s with
  | c :: r => if (c =? 43) || (c =? 45) then c :: pad ++ r else pad ++ s
  | [] => pad
  end.

(** [s.split('-', 1)[1]]: what follows the first dash. *)
Fixpoint after_dash (s : str) : result str :=
  match s with
  | [] => Raise (IndexError (U "list index out of range"))
  | c :: s' => if c =? 45 then Ok s' else after_dash s'
  end.

End Numerals.

(* ===================================================================== *)
(** * ContentIDGenerator: [IDManager] *)
(* ===================================================================== *)

Module IDManager.
Local Open Scope N_scope.

Definition ALPHABET : str := U "0123456789ABCDEFGHIJKLMNOPQRSTUVWXYZ".

(** [ALPHABET[i]] *)
Definition alphabet_at (i : N) : result N :=
  match nth_error ALPHABET (N.to_nat i) with
  | Some c => Ok c
  | None => Raise (IndexError (U "string index out of range"))
  end.

(** The [while n:] loop: [s] is the list appended to, least significant
    digit first.  Running out of fuel stands for a loop that goes on. *)
Fixpoint base_n_loop (fuel : nat) (n base : N) (s : str) : result str :=
  match fuel with
  | O => Diverge
  | S f =>
    if n =? 0 then Ok s
    else if base =? 0 then
      Raise (ZeroDivisionError (U "integer modulo by zero"))
    else
      c <- alphabet_at (n mod base) ;;
      base_n_loop f (n / base) base (s ++ [c])
  end.

(** [IDManager._int_to_base_n(n, base)] for [n >= 0].  The fuel is one
    more than the bit length of [n], enough whenever [base >= 2]. *)
Definition _int_to_base_n (n base : N) : result str :=
  if n =? 0 then c <- alphabet_at 0 ;; Ok [c]
  else s <- base_n_loop (S (S (N.to_nat (N.log2 n)))) n base [] ;;
       Ok (rev s).

(** [IDManager.generate_short_id(content_hash, prefix, length)] *)
Definition generate_short_id (content_hash prefix : str) (length : Z)
  : result str :=
  hash_hex <- try_except
                (r <- after_dash content_hash ;; Ok (firstn 12 r))
                (fun _ => b <- encode_utf8_strict content_hash ;;
                          Ok (firstn 12 (SHA256.hexdigest b))) ;;
  hash_int <- int_hex hash_hex ;;
  base36_id <- _int_to_base_n hash_int (N.of_nat (List.length ALPHABET)) ;;
  Ok (prefix ++ zfill base36_id length).

End IDManager.

(* ===================================================================== *)
(** * The Unicode character database *)
(* ===================================================================== *)

(** What the code takes from the interpreter's Unicode tables. *)
Class UnicodeDB : Type := {
  (** [unicodedata.normalize('NFKC', s)] *)
  nfkc : str -> str;
  (** [s.lower()] *)
  lower : str -> str;
  (** [s.title()] *)
  title_case : str -> str;
  (** the regex class [\w] *)
  is_word : N -> bool;
  (** Normalising and title-casing text without surrogates gives text
      without surrogates, and no surrogate is a word character. *)
  nfkc_scalar : forall s, forallb scalar s = true ->
                          forallb scalar (nfkc s) = true;
  title_case_scalar : forall s, forallb scalar s = true ->
                                forallb scalar (title_case s) = true;
  is_word_scalar : forall c, is_word c = true -> scalar c = true
}.

(* ===================================================================== *)
(** * The Unicode tables on ASCII text *)
(* ===================================================================== *)

Section Ascii.
Local Open Scope N_scope.

Definition ascii_upper (c : N) : bool := (65 <=? c) && (c <=? 90).
Definition ascii_lower (c : N) : bool := (97 <=? c) && (c <=? 122).
Definition ascii_digit (c : N) : bool := (48 <=? c) && (c <=? 57).

Definition ascii_to_lower (c : N) : N := if ascii_upper c then c + 32 else c.
Definition ascii_to_upper (c : N) : N := if ascii_lower c then c - 32 else c.

(** [s.title()]: a letter after a letter is lowered, any other letter is
    raised. *)
Fixpoint ascii_title (after_letter : bool) (s : str) : str :=
  match s with
  | [] => []
  | c :: s' =>
    let letter := ascii_upper c || ascii_lower c in
    (if after_letter then ascii_to_lower c else ascii_to_upper c)
      :: ascii_title letter s'
  end.

(** The Unicode tables cut down to ASCII, where normalisation changes
    nothing.  On ASCII text this is what the interpreter computes. *)
Definition ascii_db : UnicodeDB := {|
  nfkc := fun s => s;
  lower := map ascii_to_lower;
  title_case := ascii_title false;
  is_word := fun c => ascii_upper c || ascii_lower c || ascii_digit c || (c =? 95);
  nfkc_scalar := fun s Hs => Hs;
  title_case_scalar := ltac:(
    intros s; generalize false; induction s as [|c s IH]; intros b Hs;
    [reflexivity|];
    cbn [forallb ascii_title] in *;
    apply andb_true_iff in Hs; destruct Hs as [Hc Hs];
    rewrite (IH _ Hs), andb_true_r;
    unfold ascii_to_lower, ascii_to_upper, ascii_upper, ascii_lower, scalar in *;
    destruct b;
    repeat match goal with
           | |- context [?x <=? ?y] => destruct (N.leb_spec x y)
           | |- context [?x <? ?y] => destruct (N.ltb_spec x y)
           | H : context [?x <=? ?y] |- _ => destruct (N.leb_spec x y)
           | H : context [?x <? ?y] |- _ => destruct (N.ltb_spec x y)
           end; cbn in *; try reflexivity; try discriminate; lia);
  is_word_scalar := ltac:(
    intros c; unfold ascii_upper, ascii_lower, ascii_digit, scalar;
    destruct (N.ltb_spec c 0xD800); [reflexivity|];
    destruct (N.leb_spec c 90), (N.leb_spec c 122), (N.leb_spec c 57),
      (N.eqb_spec c 95); try lia;
    rewrite !andb_false_r; discriminate)
|}.

End Ascii.

(* ===================================================================== *)
(** * Sorting *)
(* ===================================================================== *)

Section Sort.
Variable A : Type.
Variable leb : A -> A -> bool.

(** Stable insertion: [x] goes before the first element strictly greater. *)
Fixpoint insert_sorted (x : A) (l : list A) : list A :=
  match l with
  | [] => [x]
  | y :: l' => if leb y x then y :: insert_sorted x l' else x :: l
  end.

(** [sorted(l)] with the order [leb]; equal keys keep their order. *)
Definition sorted (l : list A) : list A :=
  fold_left (fun acc x => insert_sorted x acc) l [].

End Sort.
Arguments insert_sorted {A} leb x l.
Arguments sorted {A} leb l.

(* ===================================================================== *)
(** * IgnoreMatcher: [fnmatch], [should_ignore], [iter_files] *)
(* ===================================================================== *)

Module Fnmatch.
Local Open Scope N_scope.

(** A pattern as [fnmatch.translate] reads it. *)
Inductive tok : Type :=
| TStar                                       (* [*] *)
| TAny                                        (* [?] *)
| TLit (c : N)
| TClass (neg : bool) (items : list (N * N)). (* [[seq]], [[!seq]] *)

(** The members of a bracket expression: [a-b] is a range, an empty range
    is dropped, anything else stands for itself. *)
Fixpoint class_items (skip : nat) (body : str) : list (N * N) :=
  match body with
  | [] => []
  | c :: r =>
    match skip with
    | S k => class_items k r
    | O => match r with
           | 45 :: d :: _ =>
             if c <=? d then (c, d) :: class_items 2 r else class_items 2 r
           | _ => (c, c) :: class_items 0 r
           end
    end
  end.

(** Offset of the bracket that closes an expression whose text after the
    opening bracket is [r]: a leading [!] and a bracket right after it
    belong to the expression. *)
Definition class_close (r : str) : option nat :=
  let j := match r with 33 :: _ => 1%nat | _ => 0%nat end in
  let j := match skipn j r with 93 :: _ => S j | _ => j end in
  option_map (fun k => (j + k)%nat) (find (skipn j r) [93]).

Definition class_tok (stuff : str) : tok :=
  match stuff with
  | 33 :: body => TClass true (class_items 0 body)
  | _ => TClass false (class_items 0 stuff)
  end.

Fixpoint parse (skip : nat) (pat : str) : list tok :=
  match pat with
  | [] => []
  | c :: r =>
    match skip with
    | S k => parse k r
    | O =>
      if c =? 42 then TStar :: parse 0 r
      else if c =? 63 then TAny :: parse 0 r
      else if c =? 91 then
        match class_close r with
        | Some j => class_tok (firstn j r) :: parse (S j) r
        | None => TLit c :: parse 0 r
        end
      else TLit c :: parse 0 r
    end
  end.

Definition in_class (items : list (N * N)) (c : N) : bool :=
  existsb (fun p => (fst p <=? c) && (c <=? snd p)) items.

(** Whole-string match of a token list. *)
Fixpoint matches (ts : list tok) : str -> bool :=
  match ts with
  | [] => fun s => match s with [] => true | _ => false end
  | TStar :: ts' =>
    fix star (s : str) : bool :=
      matches ts' s || match s with [] => false | _ :: s' => star s' end
  | TAny :: ts' =>
    fun s => match s with [] => false | _ :: s' => matches ts' s' end
  | TLit c :: ts' =>
    fun s => match s with
             | [] => false
             | d :: s' => (c =? d) && matches ts' s'
             end
  | TClass neg items :: ts' =>
    fun s => match s with
             | [] => false
             | d :: s' => xorb neg (in_class items d) && matches ts' s'
             end
  end.

(** [fnmatch.fnmatch(name, pat)] where [os.path.normcase] changes
    nothing (POSIX). *)
Definition fnmatch (name pat : str) : bool := matches (parse 0 pat) name.

End Fnmatch.

Import Fnmatch.

(** A directory tree as [os.walk] sees it, without symbolic links. *)
Unset Elimination Schemes.
Inductive node : Type :=
| File (name : str)
| Dir (name : str) (children : list node).
Set Elimination Schemes.

(** The first subdirectory called [d] among [l]. *)
Fixpoint child_dir (d : str) (l : list node) : option node :=
  match l with
  | [] => None
  | c :: l' =>
    match c with
    | Dir n _ => if str_eqb n d then Some c else child_dir d l'
    | File _ => child_dir d l'
    end
  end.

(** The tree holds a regular file at the path [p] from the root. *)
Fixpoint has_file (p : list str) (n : node) : Prop :=
  match p, n with
  | [f], Dir _ children => In (File f) children
  | d :: rest, Dir _ children =>
    match child_dir d children with
    | Some c => has_file rest c
    | None => False
    end
  | _, _ => False
  end.

Definition node_name (n : node) : str :=
  match n with File s | Dir s _ => s end.

Definition is_dir (n : node) : bool :=
  match n with Dir _ _ => true | File _ => false end.

(** A path below the root: the names from the root down, and whether it
    is a directory. *)
Record path : Type := { comps : list str; p_is_dir : bool }.

(** [path.name] *)
Definition path_name (p : path) : str := last (comps p) [].

(** [norm_for_match(p, root)] *)
Definition norm_for_match (p : path) : str :=
  let s := replace (join (U "/") (comps p)) (U "\") (U "/") in
  if p_is_dir p && negb (endswith s (U "/")) then s ++ U "/" else s.

(** [should_ignore(path, root, patterns)] *)
Fixpoint should_ignore (p : path) (patterns : list str) : bool :=
  let name := path_name p in
  let rel := norm_for_match p in
  match patterns with
  | [] => false
  | pat :: rest =>
    let pat := replace pat (U "\") (U "/") in
    if endswith pat (U "/") then
      if fnmatch (name ++ U "/") pat || fnmatch rel pat || startswith rel pat
      then true else should_ignore p rest
    else
      if fnmatch name pat || fnmatch rel pat
      then true else should_ignore p rest
  end.

(** [iter_files(root, patterns, follow_symlinks)] below the directory [n]
    whose path from the root is [rel]: its own files first, then each
    kept subdirectory in sorted order. *)
Fixpoint walk (patterns : list str) (rel : list str) (n : node)
  : list (list str) :=
  match n with
  | File _ => []
  | Dir _ children =>
    let keep (d : bool) (name : str) :=
      negb (should_ignore {| comps := rel ++ [name]; p_is_dir := d |} patterns) in
    let dirs :=
      sorted str_leb
        (filter (keep true) (map node_name (filter is_dir children))) in
    let files :=
      filter (keep false)
        (sorted str_leb
           (map node_name (filter (fun c => negb (is_dir c)) children))) in
    map (fun f => rel ++ [f]) files
    ++ flat_map
         (fun d =>
            (fix descend (l : list node) : list (list str) :=
               match l with
               | [] => []
               | c :: l' =>
                 if is_dir c && str_eqb (node_name c) d
                 then walk patterns (rel ++ [d]) c
                 else descend l'
               end) children)
         dirs
  end.

Definition iter_files (root : node) (patterns : list str) : list (list str) :=
  walk patterns [] root.

(* ===================================================================== *)
(** * Decoding bytes as text *)
(* ===================================================================== *)

Section Decoding.
Local Open Scope N_scope.

Definition between (lo hi b : N) : bool := (lo <=? b) && (b <=? hi).

(** The second byte allowed after a three-byte and a four-byte lead. *)
Definition second3 (b0 b1 : N) : bool :=
  if b0 =? 0xE0 then between 0xA0 0xBF b1
  else if b0 =? 0xED then between 0x80 0x9F b1
  else between 0x80 0xBF b1.

Definition second4 (b0 b1 : N) : bool :=
  if b0 =? 0xF0 then between 0x90 0xBF b1
  else if b0 =? 0xF4 then between 0x80 0x8F b1
  else between 0x80 0xBF b1.

(** The code point encoded at the head of [bs] and the number of bytes it
    takes, if the head is well-formed UTF-8. *)
Definition decode_head (bs : bytes) : option (N * nat) :=
  match bs with
  | [] => None
  | b0 :: r =>
    if b0 <? 0x80 then Some (b0, 1%nat)
    else if between 0xC2 0xDF b0 then
      match r with
      | b1 :: _ =>
        if between 0x80 0xBF b1
        then Some ((b0 - 0xC0) * 64 + (b1 - 0x80), 2%nat) else None
      | _ => None
      end
    else if between 0xE0 0xEF b0 then
      match r with
      | b1 :: b2 :: _ =>
        if second3 b0 b1 && between 0x80 0xBF b2
        then Some ((b0 - 0xE0) * 4096 + (b1 - 0x80) * 64 + (b2 - 0x80), 3%nat)
        else None
      | _ => None
      end
    else if between 0xF0 0xF4 b0 then
      match r with
      | b1 :: b2 :: b3 :: _ =>
        if second4 b0 b1 && between 0x80 0xBF b2 && between 0x80 0xBF b3
        then Some ((b0 - 0xF0) * 262144 + (b1 - 0x80) * 4096
                   + (b2 - 0x80) * 64 + (b3 - 0x80), 4%nat)
        else None
      | _ => None
      end
    else None
  end.

(** A byte that opens no well-formed sequence is dropped and decoding
    goes on with the next one; [skip] counts the bytes of a decoded
    sequence still to be passed. *)
Fixpoint decode_go (skip : nat) (bs : bytes) : str :=
  match bs with
  | [] => []
  | _ :: r =>
    match skip with
    | S k => decode_go k r
    | O => match decode_head bs with
           | Some (c, n) => c :: decode_go (n - 1) r
           | None => decode_go 0 r
           end
    end
  end.

(** [bs.decode('utf-8', errors='ignore')] *)
Definition decode_utf8_ignore (bs : bytes) : str := decode_go 0 bs.

End Decoding.

(* ===================================================================== *)
(** * Paths as text *)
(* ===================================================================== *)

Section PathText.
Local Open Scope N_scope.

Fixpoint rfind_go (c : N) (i : nat) (last : option nat) (s : str)
  : option nat :=
  match s with
  | [] => last
  | d :: s' => rfind_go c (S i) (if d =? c then Some i else last) s'
  end.

(** [s.rfind(c)] for one character. *)
Definition rfind (s : str) (c : N) : option nat := rfind_go c 0 None s.

(** [PurePath.suffix] of a final component. *)
Definition suffix (name : str) : str :=
  match rfind name 46 with
  | Some i => if (0 <? i)%nat && (i <? length name - 1)%nat
              then skipn i name else []
  | None => []
  end.

(** [os.path.basename(p)] *)
Definition basename (p : str) : str :=
  match rfind p 47 with
  | Some i => skipn (S i) p
  | None => p
  end.

Fixpoint all_dots (s : str) : bool :=
  match s with
  | [] => true
  | c :: s' => (c =? 46) && all_dots s'
  end.

(** [os.path.splitext(name)] for a name without directory part: leading
    dots do not open an extension. *)
Definition splitext (name : str) : str * str :=
  match rfind name 46 with
  | Some i => if all_dots (firstn i name) then (name, [])
              else (firstn i name, skipn i name)
  | None => (name, [])
  end.

(** [str(z)] for any integer. *)
Definition str_of_Z (z : Z) : str :=
  if (z <? 0)%Z then 45 :: str_of_N (Z.to_N (- z)) else str_of_N (Z.to_N z).

End PathText.

(* ===================================================================== *)
(** * BundleEncoder: [_bundle_project_worker] *)
(* ===================================================================== *)

Definition TEXT_EXT_HINT : list (str * str) :=
  map (fun p => (U (fst p), U (snd p)))
  [ (".py", "Python"); (".pyi", "Python Stub"); (".ipynb", "Jupyter Notebook");
    (".js", "JavaScript"); (".jsx", "JavaScript (React)");
    (".mjs", "JavaScript Module");
    (".ts", "TypeScript"); (".tsx", "TypeScript (React)");
    (".c", "C"); (".h", "C Header"); (".cpp", "C++"); (".hpp", "C++ Header");
    (".cc", "C++");
    (".rs", "Rust"); (".go", "Go"); (".java", "Java"); (".kt", "Kotlin");
    (".kts", "Kotlin Script"); (".scala", "Scala");
    (".rb", "Ruby"); (".php", "PHP"); (".swift", "Swift"); (".cs", "C#");
    (".m", "Objective-C"); (".mm", "Objective-C++");
    (".sh", "Shell"); (".bash", "Shell"); (".zsh", "Shell"); (".fish", "Shell");
    (".ps1", "PowerShell");
    (".html", "HTML"); (".htm", "HTML"); (".css", "CSS"); (".scss", "SCSS");
    (".json", "JSON"); (".jsonc", "JSON with Comments");
    (".yml", "YAML"); (".yaml", "YAML"); (".toml", "TOML"); (".ini", "INI");
    (".md", "Markdown"); (".rst", "reStructuredText"); (".sql", "SQL");
    (".xml", "XML"); (".xsl", "XSLT"); (".xslt", "XSLT"); (".svg", "SVG");
    (".dockerfile", "Dockerfile"); ("Dockerfile", "Dockerfile"); (".env", "Env");
    (".csv", "CSV"); (".tsv", "TSV"); (".txt", "Text"); (".log", "Log");
    (".tex", "LaTeX"); (".cls", "LaTeX"); (".sty", "LaTeX");
    (".jinja", "Jinja"); (".jinja2", "Jinja"); (".tmpl", "Template") ]%string.

Definition BINARY_EXT_LIKELY : list str :=
  map U
  [ ".png"; ".jpg"; ".jpeg"; ".webp"; ".gif"; ".bmp"; ".ico";
    ".pdf"; ".zip"; ".gz"; ".tar"; ".tgz"; ".bz2"; ".xz"; ".7z";
    ".so"; ".dll"; ".dylib"; ".exe"; ".bin"; ".class"; ".o"; ".a";
    ".ttf"; ".otf"; ".woff"; ".woff2";
    ".mp3"; ".wav"; ".flac"; ".ogg"; ".mp4"; ".mov"; ".mkv"; ".avi" ]%string.

(** [d.get(k, default)] on a table. *)
Fixpoint dict_get {V : Type} (d : list (str * V)) (k : str) (default : V) : V :=
  match d with
  | [] => default
  | (k', v) :: d' => if str_eqb k' k then v else dict_get d' k default
  end.

Definition str_in (k : str) (l : list str) : bool := existsb (str_eqb k) l.

(** [d.get(k)] on a dictionary kept in insertion order. *)
Fixpoint lookup {V : Type} (d : list (str * V)) (k : str) : option V :=
  match d with
  | [] => None
  | (k', v) :: d' => if str_eqb k' k then Some v else lookup d' k
  end.


Module Bundle.

(** A collected file as the worker meets it.  Each read is an input of
    its own, since the file may change or vanish between two of them;
    [None] is a read that raised. *)
Record SrcFile : Type := {
  src_path : list str;            (* names from the project root down *)
  src_size : N;                   (* [st_size], 0 when the file is gone *)
  read_head : option bytes;       (* the read of [is_probably_binary] *)
  read_meta : option bytes;       (* [read_bytes()] of the first pass *)
  read_section : option bytes     (* [read_bytes()] of the second pass *)
}.

Inductive sort_mode : Type := ByPath | BySize | ByExt.

Record Config : Type := {
  cfg_sort : sort_mode;
  id_prefix_var : str;
  max_bytes_per_file : Z;
  max_total_bytes : Z
}.

Record Meta : Type := {
  m_id : str;
  m_path : str;
  m_lang : str;
  m_size : N;
  m_lines : nat;
  m_sha1 : str;
  m_is_binary : bool;
  m_note : str
}.

(** What stands between the content markers of a file section. *)
Inductive body : Type :=
| NoContent (skipped : str)     (* the [SKIPPED] line; then "[No content]" *)
| Content (text : str).

Record FileSection : Type := {
  sec_id : str;
  sec_meta : Meta;
  sec_body : body
}.

Definition SKIP_BINARY : str := U "[SKIPPED] Binary content not included.".
Definition SKIP_UNREADABLE : str := U "[SKIPPED] Could not read file as text.".
Definition SKIP_LIMIT : str := U "[SKIPPED] Total bundle size limit reached.".

Section Worker.
Context `{UnicodeDB}.
(** [hashlib.sha1(b).hexdigest()], shown in the index only. *)
Variable sha1_hexdigest : bytes -> str.

Definition rel_path (f : SrcFile) : str := join (U "/") (src_path f).
Definition file_name (f : SrcFile) : str := last (src_path f) [].

(** [detect_language(path)] *)
Definition detect_language (f : SrcFile) : str :=
  dict_get TEXT_EXT_HINT (lower (suffix (file_name f))) (U "Plain Text").

(** [is_probably_binary(path)] *)
Definition is_probably_binary (f : SrcFile) : bool :=
  if str_in (lower (suffix (file_name f))) BINARY_EXT_LIKELY then true
  else match read_head f with
       | Some b => contains (firstn 4096 b) [0%N]
       | None => true
       end.

(** The three orders of [files.sort(key=...)]; the root is a common
    prefix of every [str(p)] and is left out of the keys. *)
Definition sort_leb (m : sort_mode) (a b : SrcFile) : bool :=
  match m with
  | ByPath => str_leb (rel_path a) (rel_path b)
  | BySize =>
    (src_size a <? src_size b)%N
    || ((src_size a =? src_size b)%N && str_leb (rel_path a) (rel_path b))
  | ByExt =>
    let ea := lower (suffix (file_name a)) in
    let eb := lower (suffix (file_name b)) in
    negb (str_leb eb ea)
    || (str_eqb ea eb && str_leb (rel_path a) (rel_path b))
  end.

Definition sort_files (m : sort_mode) (files : list SrcFile) : list SrcFile :=
  sorted (sort_leb m) files.

(** [id_prefix = self.id_prefix_var.get() or "F"] *)
Definition id_prefix (cfg : Config) : str :=
  match id_prefix_var cfg with [] => U "F" | p => p end.

(** [id_width = max(4, len(str(len(files))))] *)
Definition id_width (count : nat) : nat :=
  Nat.max 4 (length (str_of_N (N.of_nat count))).

(** [file_id(i)] *)
Definition file_id (cfg : Config) (count : nat) (i : nat) : str :=
  id_prefix cfg ++ format_0d (id_width count) (N.of_nat i).

(** [text.count("\n") + (1 if text and not text.endswith("\n") else 0)] *)
Definition count_lines (text : str) : nat :=
  length (filter (N.eqb 10) text)
  + match text with
    | [] => 0
    | _ => if endswith text [10%N] then 0 else 1
    end.

(** One turn of the pre-measure loop. *)
Definition make_meta (cfg : Config) (count : nat) (i : nat) (f : SrcFile)
  : Meta :=
  let is_bin := is_probably_binary f in
  let cap := max_bytes_per_file cfg in
  let '(sha, lines_count, note) :=
    if is_bin then ([], 0, U "binary: skipped")
    else
      let '(raw_full, note) :=
        match read_meta f with
        | Some b => (b, [])
        | None => ([], U "read error: skipped")
        end in
      match raw_full with
      | [] => ([], 0, note)
      | _ =>
        let raw := slice_to raw_full cap in
        let note :=
          if (cap <? Z.of_nat (length raw_full))%Z
          then U "truncated to " ++ str_of_Z cap ++ U " bytes" else note in
        (sha1_hexdigest raw_full, count_lines (decode_utf8_ignore raw), note)
      end in
  {| m_id := file_id cfg count i;
     m_path := rel_path f;
     m_lang := if is_bin then U "Binary" else detect_language f;
     m_size := src_size f;
     m_lines := if is_bin then 0 else lines_count;
     m_sha1 := sha;
     m_is_binary := is_bin;
     m_note := note |}.

(** [for i, p in enumerate(files, start=1)] *)
Fixpoint make_metas (cfg : Config) (count : nat) (i : nat)
         (files : list SrcFile) : list Meta :=
  match files with
  | [] => []
  | f :: files' => make_meta cfg count i f :: make_metas cfg count (S i) files'
  end.

(** One turn of the section loop: the section written and the new value
    of [written_total]. *)
Definition write_section (cfg : Config) (written_total : Z)
           (mf : Meta * SrcFile) : FileSection * Z :=
  let (m, f) := mf in
  let mk b := {| sec_id := m_id m; sec_meta := m; sec_body := b |} in
  if m_is_binary m then (mk (NoContent SKIP_BINARY), written_total)
  else
    match read_section f with
    | None => (mk (NoContent SKIP_UNREADABLE), written_total)
    | Some raw_full =>
      let write_bytes := slice_to raw_full (max_bytes_per_file cfg) in
      if (max_total_bytes cfg <? written_total + Z.of_nat (length write_bytes))%Z
      then (mk (NoContent SKIP_LIMIT), written_total)
      else (mk (Content (decode_utf8_ignore write_bytes)),
            (written_total + Z.of_nat (length write_bytes))%Z)
    end.

(** [for idx, m in enumerate(meta)] *)
Fixpoint write_sections (cfg : Config) (written_total : Z)
         (mfs : list (Meta * SrcFile)) : list FileSection * Z :=
  match mfs with
  | [] => ([], written_total)
  | mf :: mfs' =>
    let (s, w) := write_section cfg written_total mf in
    let (ss, w') := write_sections cfg w mfs' in
    (s :: ss, w')
  end.

(** The text of one file section as it goes to the output file. *)
Definition render_section (s : FileSection) : str :=
  let m := sec_meta s in
  let fid := sec_id s in
  U "===== FILE " ++ fid ++ U " =====" ++ [10%N]
  ++ U "PATH: " ++ m_path m ++ [10%N]
  ++ U "LANG: " ++ m_lang m ++ [10%N]
  ++ U "BYTES: " ++ str_of_N (m_size m) ++ [10%N]
  ++ U "LINES: " ++ str_of_N (N.of_nat (m_lines m)) ++ [10%N]
  ++ U "SHA1: " ++ m_sha1 m ++ [10%N]
  ++ match m_note m with
     | [] => []
     | note => U "NOTE: " ++ note ++ [10%N]
     end
  ++ [10%N]
  ++ match sec_body s with
     | NoContent skipped =>
       skipped ++ [10%N]
       ++ U "----- BEGIN CONTENT " ++ fid ++ U " -----" ++ [10%N]
       ++ U "[No content]" ++ [10%N]
     | Content text =>
       U "----- BEGIN CONTENT " ++ fid ++ U " -----" ++ [10%N]
       ++ text ++ (if endswith text [10%N] then [] else [10%N])
     end
  ++ U "----- END CONTENT " ++ fid ++ U " -----" ++ [10%N; 10%N].

(** The files sorted, measured and written: the metadata table, the file
    sections and the final [written_total]. *)
Definition bundle (cfg : Config) (collected : list SrcFile)
  : list Meta * list FileSection * Z :=
  let files := sort_files (cfg_sort cfg) collected in
  let meta := make_metas cfg (length files) 1 files in
  let (sections, written_total) := write_sections cfg 0 (combine meta files) in
  (meta, sections, written_total).

(** The bytes of file content a section puts in the output file. *)
Definition content_bytes (s : FileSection) : bytes :=
  match sec_body s with
  | Content text => encode_utf8 text
  | NoContent _ => []
  end.

(** The content bytes of a list of sections, summed. *)
Definition total_content (ss : list FileSection) : Z :=
  fold_right (fun s acc => (Z.of_nat (length (content_bytes s)) + acc)%Z) 0%Z ss.

End Worker.

(** The budget rule in the words of the specification: once one file has
    met the limit, every later file of the bundle has the limit note and
    no content. *)
Definition limit_is_final : Prop :=
  forall (db : UnicodeDB) (sha1_hexdigest : bytes -> str)
         (cfg : Config) (collected : list SrcFile) (i j : nat)
         (si sj : FileSection),
    let sections := snd (fst (bundle sha1_hexdigest cfg collected)) in
    nth_error sections i = Some si ->
    sec_body si = NoContent SKIP_LIMIT ->
    i < j ->
    nth_error sections j = Some sj ->
    sec_body sj = NoContent SKIP_LIMIT /\ content_bytes sj = [].

(** A run to try the worker on: three text files of 8, 5 and 2 bytes, a
    cap of 100 bytes per file and of 10 bytes in total. *)
Definition text_file (name : string) (content : string) : SrcFile :=
  {| src_path := [U name];
     src_size := N.of_nat (length (U content));
     read_head := Some (U content);
     read_meta := Some (U content);
     read_section := Some (U content) |}.

Definition sample_a : SrcFile := text_file "a.txt" "aaaaaaaa".
Definition sample_b : SrcFile := text_file "b.txt" "bbbbb".
Definition sample_c : SrcFile := text_file "c.txt" "cc".
Definition sample_files : list SrcFile := [sample_a; sample_b; sample_c].

Definition sample_cfg : Config :=
  {| cfg_sort := ByPath; id_prefix_var := U "F";
     max_bytes_per_file := 100; max_total_bytes := 10 |}.

Definition no_sha1 (b : bytes) : str := [].

Definition sample_meta (i : nat) : Meta :=
  nth (i - 1)
      (make_metas (H := ascii_db) no_sha1 sample_cfg 3 1 sample_files)
      (make_meta (H := ascii_db) no_sha1 sample_cfg 3 0 sample_a).

End Bundle.

(* ===================================================================== *)
(** * TextNormalizer *)
(* ===================================================================== *)

Section Normalizer.
Local Open Scope N_scope.
Context `{UnicodeDB}.

Definition CR : N := 13.
Definition LF : N := 10.
Definition TAB : N := 9.
Definition SPACE : N := 32.

(** The class [[\x00-\x08\x0B\x0C\x0E-\x1F\x7F]] of [control_filter]. *)
Definition control_filter (c : N) : bool :=
  (c <=? 0x08) || (c =? 0x0B) || (c =? 0x0C)
  || (0x0E <=? c) && (c <=? 0x1F) || (c =? 0x7F).

(** [sanitize_text(s)] *)
Definition sanitize_text (s : str) : str :=
  let s := nfkc s in
  let s := replace (replace s [CR; LF] [LF]) [CR] [LF] in
  filter (fun c => negb (control_filter c)) s.

(** [[ \t]*\n] at the head of [s]: the look-ahead of the first rule,
    reached through the blanks of the same run. *)
Fixpoint blanks_then_newline (s : str) : bool :=
  match s with
  | [] => false
  | c :: r => (c =? LF) || ((c =? SPACE) || (c =? TAB)) && blanks_then_newline r
  end.

(** [re.sub(r"[ \t]+(?=\n)", '', s)] *)
Fixpoint trim_line_ends (s : str) : str :=
  match s with
  | [] => []
  | c :: r =>
    if ((c =? SPACE) || (c =? TAB)) && blanks_then_newline r
    then trim_line_ends r else c :: trim_line_ends r
  end.

(** [re.sub(r"[ ]{2,}", ' ', s)]: of a run of spaces the last one stays. *)
Fixpoint collapse_spaces (s : str) : str :=
  match s with
  | [] => []
  | c :: r =>
    if (c =? SPACE) && startswith r [SPACE]
    then collapse_spaces r else c :: collapse_spaces r
  end.

(** [re.sub(r"\n{3,}", "\n\n", s)]: of a run of newlines the last two
    stay. *)
Fixpoint squeeze_newlines (s : str) : str :=
  match s with
  | [] => []
  | c :: r =>
    if (c =? LF) && startswith r [LF; LF]
    then squeeze_newlines r else c :: squeeze_newlines r
  end.

(** [_normalize_prose(s)] *)
Definition _normalize_prose (s : str) : str :=
  strip (squeeze_newlines (collapse_spaces (trim_line_ends s))).

Definition FENCE : str := U "```".
Definition CODE_START : str := U "@@@CODEBLOCK_START@@@".
Definition CODE_END : str := U "@@@CODEBLOCK_END@@@".

(** [open.*?close] at the head of [s]: the length of the shortest such
    prefix. *)
Definition delimited_at (open close s : str) : option nat :=
  if startswith s open then
    match find (skipn (length open) s) close with
    | Some k => Some (length open + k + length close)%nat
    | None => None
    end
  else None.

(** [_CODE_OR_MARKERS] at the head of [s]: the first alternative that
    matches. *)
Definition code_match_at (s : str) : option nat :=
  match delimited_at FENCE FENCE s with
  | Some n => Some n
  | None => delimited_at CODE_START CODE_END s
  end.

(** [_CODE_OR_MARKERS.finditer(s)] as [(m.start(), m.end())] pairs;
    [pos] is the offset of [s] in the whole text and [skip] the number of
    characters of the last match still to pass. *)
Fixpoint finditer (skip pos : nat) (s : str) : list (nat * nat) :=
  match s with
  | [] => []
  | _ :: r =>
    match skip with
    | S k => finditer k (S pos) r
    | O => match code_match_at s with
           | Some n => (pos, pos + n)%nat :: finditer (n - 1) (S pos) r
           | None => finditer 0 (S pos) r
           end
    end
  end.

(** The body of [normalize_text_code_safe] after sanitising: the loop
    over the matches, then the tail. *)
Fixpoint code_safe_loop (s : str) (ms : list (nat * nat)) (i : nat)
         (out : list str) : list str :=
  match ms with
  | [] =>
    match skipn i s with
    | [] => out
    | tail => out ++ [_normalize_prose tail]
    end
  | (m_start, m_end) :: ms' =>
    let pre := slice s i m_start in
    let code := slice s m_start m_end in
    let out := match pre with
               | [] => out
               | _ => out ++ [_normalize_prose pre]
               end in
    code_safe_loop s ms' m_end (out ++ [code])
  end.

(** [normalize_text_code_safe(s)] *)
Definition normalize_text_code_safe (s : str) : str :=
  let s := sanitize_text s in
  concat (code_safe_loop s (finditer 0 0 s) 0 []).

(** [re.sub(r"[^\w\s\-\.,'()&]+", ' ', s)] *)
Definition title_char (c : N) : bool :=
  is_word c || isspace c || str_in [c] (map (fun c => [c]) (U "-.,'()&")).

Fixpoint blank_runs (in_run : bool) (s : str) : str :=
  match s with
  | [] => []
  | c :: r =>
    if title_char c then c :: blank_runs false r
    else if in_run then blank_runs true r
    else SPACE :: blank_runs true r
  end.

(** [_normalize_title_from_path(file_path)] *)
Definition _normalize_title_from_path (file_path : str) : str :=
  let raw_name := fst (splitext (basename file_path)) in
  let safe := strip (blank_runs false raw_name) in
  normalize_text_code_safe (title_case safe).

(** [_stable_sample(text, k)] *)
Definition _stable_sample (text : str) (k : nat) : str :=
  let n := length text in
  if (n <=? k)%nat then text
  else
    let mid := (n / 2)%nat in
    firstn k text
    ++ slice text (mid - k / 2) (mid + k / 2)
    ++ slice_last text k.

End Normalizer.

(** ** The text normaliser in the words of the specification *)

Section NormalizerSpec.
Local Open Scope N_scope.
Context `{UnicodeDB}.

(** A control character, general category Cc: U+0000 to U+001F and
    U+007F to U+009F. *)
Definition is_control (c : N) : bool :=
  (c <? 0x20) || (0x7F <=? c) && (c <=? 0x9F).

(** The control characters of ASCII: U+0000 to U+001F, and U+007F. *)
Definition ascii_control (c : N) : bool := (c <? 0x20) || (c =? 0x7F).

(** One pass over the normalised text: a line ending becomes one
    newline, a control character of ASCII other than tab and newline
    goes, any other character stays where it is. *)
Fixpoint sanitize_pass (s : str) : str :=
  match s with
  | [] => []
  | c :: r =>
    if c =? CR then
      LF :: match r with
            | d :: r' => if d =? LF then sanitize_pass r' else sanitize_pass r
            | [] => []
            end
    else if ascii_control c && negb (c =? TAB) && negb (c =? LF)
    then sanitize_pass r
    else c :: sanitize_pass r
  end.

(** A span of code: a fence, or the sentinel pair, closed at the first
    closing marker after the opening one. *)
Definition delimited (open close c : str) : Prop :=
  exists inner, c = open ++ inner ++ close
                /\ find (inner ++ close) close = Some (length inner).

Definition is_span (c : str) : Prop :=
  delimited FENCE FENCE c \/ delimited CODE_START CODE_END c.

(** A span opens at the head of [t]. *)
Definition span_opens (t : str) : Prop :=
  exists c rest, is_span c /\ t = c ++ rest.

(** Prose before [rest]: no span opens at any of its characters. *)
Definition is_gap (g rest : str) : Prop :=
  forall a b, g = a ++ b -> b <> [] -> ~ span_opens (b ++ rest).

(** A gap checked by running the matcher at each of its characters. *)
Fixpoint gap_check (g rest : str) : bool :=
  match g with
  | [] => true
  | _ :: g' =>
    match code_match_at (g ++ rest) with
    | None => gap_check g' rest
    | Some _ => false
    end
  end.

Inductive segment : Type :=
| Gap (prose : str)
| Span (code : str).

(** [t] read as prose gaps and code spans, in order. *)
Inductive decomposes : str -> list segment -> Prop :=
| dec_tail (g : str) :
    is_gap g [] -> decomposes g [Gap g]
| dec_span (g c rest : str) (segs : list segment) :
    is_gap g (c ++ rest) -> is_span c -> decomposes rest segs ->
    decomposes (g ++ c ++ rest) (Gap g :: Span c :: segs).

(** Gaps normalised as prose, spans as they are. *)
Definition rejoin (segs : list segment) : str :=
  flat_map (fun sg => match sg with
                      | Gap g => _normalize_prose g
                      | Span c => c
                      end) segs.

End NormalizerSpec.

(** C5 in the words of the specification: whatever the text, no control
    character other than tab and newline is left in it. *)
Definition controls_removed : Prop :=
  forall (db : UnicodeDB) (s : str),
    forallb (fun c => negb (is_control c) || (c =? TAB)%N || (c =? LF)%N)
            (sanitize_text s) = true.

(** C6 in the words of the specification: the spans of the input come
    out byte for byte. *)
Definition code_spans_untouched : Prop :=
  forall (db : UnicodeDB) (s : str) (segs : list segment),
    decomposes s segs -> normalize_text_code_safe s = rejoin segs.

(* ===================================================================== *)
(** * DocumentExtractor and [process_single_file] *)
(* ===================================================================== *)

Module Extract.

(** A library call or a file read: it returns or it raises. *)
Definition lift {A : Type} (r : exn + A) : result A :=
  match r with
  | inl e => Raise e
  | inr a => Ok a
  end.

(** What the extractors get from outside the program. *)
Record World : Type := {
  (** [open(p, 'r', encoding='utf-8', errors='ignore').read()] *)
  read_utf8 : str -> exn + str;
  (** [open(p, 'r', encoding='latin-1', errors='ignore').read()] *)
  read_latin1 : str -> exn + str;
  (** [fitz.open(p)]: the text of each page *)
  pdf_pages : str -> exn + list str;
  (** [epub.read_epub(p)]: name and body of each document item *)
  epub_items : str -> exn + list (str * str);
  (** [BeautifulSoup(html)], the sentinels put in, then [get_text] *)
  html_text : str -> exn + str;
  (** [mobi.extract(p)] and the walk of the unpacked directory: each file
      name with the outcome of reading it *)
  mobi_files : str -> exn + list (str * (exn + str));
  (** A file read as text is decoded with [errors='ignore'], or as
      Latin-1: what is read holds no surrogate.  What the libraries return
      may hold one. *)
  read_utf8_scalar : forall p s, read_utf8 p = inr s ->
                                 forallb scalar s = true;
  read_latin1_scalar : forall p s, read_latin1 p = inr s ->
                                   forallb scalar s = true
}.

Record DocumentRecord : Type := {
  short_id : str;
  full_hash : str;
  title : str;
  text : str
}.

(** The second component of what [process_single_file] returns. *)
Inductive outcome : Type :=
| Success (doc : DocumentRecord)
| Failure (error : str).

Inductive extractor : Type := Txt | Pdf | Epub | Mobi.

Definition extractor_map : list (str * extractor) :=
  map (fun p => (U (fst p), snd p))
  [ (".txt", Txt); (".md", Txt); (".markdown", Txt); (".rst", Txt);
    (".csv", Txt); (".tsv", Txt); (".log", Txt); (".json", Txt);
    (".xml", Txt); (".yaml", Txt); (".yml", Txt); (".toml", Txt);
    (".ini", Txt); (".cfg", Txt); (".conf", Txt); (".sql", Txt);
    (".tex", Txt); (".rtf", Txt);
    (".pdf", Pdf); (".epub", Epub); (".mobi", Mobi) ]%string.

(** A call that returns or raises an [ExtractionError], nothing else. *)
Definition extraction_result {A : Type} (r : result A) : Prop :=
  match r with
  | Ok _ => True
  | Raise (ExtractionError _) => True
  | _ => False
  end.

(** A call that returns or raises. *)
Definition ends {A : Type} (r : result A) : Prop :=
  match r with Diverge => False | _ => True end.

Section Extractors.
Context `{UnicodeDB}.
Variable w : World.

(** [except Exception as e: raise ExtractionError(f"Reason: {e}") from e] *)
Definition reraise {A : Type} (r : result A) : result A :=
  try_except r (fun e => Raise (ExtractionError (U "Reason: " ++ exn_msg e))).

(** [not s.strip()] *)
Definition blank (s : str) : bool :=
  match strip s with [] => true | _ => false end.

(** [extract_text_from_txt(file_path)] *)
Definition extract_text_from_txt (file_path : str) : result str :=
  reraise
    (raw <- match read_utf8 w file_path with
            | inl (UnicodeDecodeError _) | inl (IOError _) =>
              lift (read_latin1 w file_path)
            | r => lift r
            end ;;
     let text := normalize_text_code_safe raw in
     if blank text
     then Raise (ExtractionError (U "Empty text after normalization."))
     else Ok text).

(** [extract_text_from_pdf(file_path)] *)
Definition extract_text_from_pdf (file_path : str) : result str :=
  reraise
    (pages <- lift (pdf_pages w file_path) ;;
     let text := normalize_text_code_safe (concat pages) in
     match text with
     | [] => Raise (ExtractionError
                      (U "No selectable text found (likely scanned PDF)."))
     | _ => Ok text
     end).

(** [_html_to_text_preserving_code(html)] *)
Definition _html_to_text_preserving_code (html : str) : result str :=
  txt <- lift (html_text w html) ;;
  Ok (normalize_text_code_safe txt).

(** The loop over the items of an EPUB. *)
Fixpoint epub_parts (items : list (str * str)) : result (list str) :=
  match items with
  | [] => Ok []
  | (name, body) :: items' =>
    if endswith (lower name) (U ".css") then epub_parts items'
    else
      t <- _html_to_text_preserving_code body ;;
      parts <- epub_parts items' ;;
      Ok (if blank t then parts else t :: parts)
  end.

(** [extract_text_from_epub(file_path)] *)
Definition extract_text_from_epub (file_path : str) : result str :=
  reraise
    (items <- lift (epub_items w file_path) ;;
     parts <- epub_parts items ;;
     match parts with
     | [] => Raise (ExtractionError (U "No text documents found in EPUB."))
     | _ => Ok (join [10; 10]%N parts)
     end).

(** The loop over the unpacked files of a MOBI. *)
Fixpoint mobi_parts (files : list (str * (exn + str))) : result (list str) :=
  match files with
  | [] => Ok []
  | (name, content) :: files' =>
    let l := lower name in
    if endswith l (U ".html") || endswith l (U ".htm") || endswith l (U ".txt")
    then
      html <- lift content ;;
      t <- _html_to_text_preserving_code html ;;
      parts <- mobi_parts files' ;;
      Ok (t :: parts)
    else mobi_parts files'
  end.

(** [extract_text_from_mobi(file_path)]; the [finally] clause removes the
    scratch directory and changes no result. *)
Definition extract_text_from_mobi (file_path : str) : result str :=
  reraise
    (files <- lift (mobi_files w file_path) ;;
     parts <- mobi_parts files ;;
     match parts with
     | [] => Raise (ExtractionError
                      (U "No text content found after MOBI unpack."))
     | _ => Ok (join [10; 10]%N parts)
     end).

Definition run_extractor (e : extractor) (file_path : str) : result str :=
  match e with
  | Txt => extract_text_from_txt file_path
  | Pdf => extract_text_from_pdf file_path
  | Epub => extract_text_from_epub file_path
  | Mobi => extract_text_from_mobi file_path
  end.

(** [process_single_file(file_path, id_prefix)] *)
Definition process_single_file (file_path id_prefix : str)
  : result (str * outcome) :=
  let filename := basename file_path in
  let title := _normalize_title_from_path file_path in
  let ext := lower (snd (splitext filename)) in
  match lookup extractor_map ext with
  | None => Ok (file_path, Failure (U "Unsupported file type"))
  | Some extract =>
    match
      (text <- run_extractor extract file_path ;;
       if blank text
       then Ok (file_path, Failure (U "Extracted text is empty."))
       else
         let hash_content :=
           normalize_text_code_safe title ++ _stable_sample text 2000 in
         full_hash <- stable_hash hash_content ;;
         short_id <- IDManager.generate_short_id full_hash id_prefix 6 ;;
         Ok (file_path,
             Success {| short_id := short_id; full_hash := full_hash;
                        title := title; text := text |}))
    with
    | Raise (ExtractionError msg) =>
      Ok (file_path, Failure (U "ExtractionError: " ++ msg))
    | r => r
    end
  end.

End Extractors.

(** C1 in the words of the specification: two plain-text files with the
    same title and the same first 2000 characters, as stored and as
    extracted, get the same DocID. *)
Definition same_head_same_id : Prop :=
  forall (db : UnicodeDB) (w : World) (p1 p2 id_prefix raw1 raw2 : str)
         (d1 d2 : DocumentRecord),
    read_utf8 w p1 = inr raw1 ->
    read_utf8 w p2 = inr raw2 ->
    lookup extractor_map (lower (snd (splitext (basename p1)))) = Some Txt ->
    lookup extractor_map (lower (snd (splitext (basename p2)))) = Some Txt ->
    process_single_file w p1 id_prefix = Ok (p1, Success d1) ->
    process_single_file w p2 id_prefix = Ok (p2, Success d2) ->
    title d1 = title d2 ->
    firstn 2000 raw1 = firstn 2000 raw2 ->
    firstn 2000 (text d1) = firstn 2000 (text d2) ->
    full_hash d1 = full_hash d2 /\ short_id d1 = short_id d2.

(** Two files to run the extractor on: the same name in two directories,
    the same 2000 characters and a different last one. *)
Definition long_a : str := repeat 97%N 2000.

Definition sample_world : World :=
  {| read_utf8 := fun p =>
       if str_eqb p (U "/x/doc.txt") then inr (long_a ++ U "b")
       else if str_eqb p (U "/y/doc.txt") then inr (long_a ++ U "c")
       else if str_eqb p (U "/x/note.txt") then inr (U "same text")
       else if str_eqb p (U "/y/note.txt") then inr (U "same text")
       else inl (IOError (U "No such file or directory"));
     read_latin1 := fun _ => inl (IOError (U "No such file or directory"));
     pdf_pages := fun _ => inl (OtherException (U "FileNotFoundError") []);
     epub_items := fun _ => inl (OtherException (U "FileNotFoundError") []);
     html_text := fun html => inr html;
     mobi_files := fun _ => inl (OtherException (U "FileNotFoundError") []);
     read_utf8_scalar := ltac:(
       intros p s; cbv beta;
       repeat match goal with
              | |- context [if ?b then _ else _] =>
                destruct b;
                [intros E; injection E as <-; vm_compute; reflexivity|]
              end;
       intros E; discriminate E);
     read_latin1_scalar := ltac:(intros p s E; discriminate E) |}.

(** C9 in the words of the specification: every path has exactly one
    outcome, a failure or a record. *)
Definition every_path_one_outcome : Prop :=
  forall (db : UnicodeDB) (w : World) (file_path id_prefix : str),
    exists o, process_single_file w file_path id_prefix = Ok (file_path, o).

(** A MOBI with one page whose text, as the parser returns it, is the
    lone surrogate U+D83D. *)
Definition surrogate_world : World :=
  {| read_utf8 := fun _ => inl (IOError (U "No such file or directory"));
     read_latin1 := fun _ => inl (IOError (U "No such file or directory"));
     pdf_pages := fun _ => inl (OtherException (U "FileNotFoundError") []);
     epub_items := fun _ => inl (OtherException (U "FileNotFoundError") []);
     html_text := fun html => inr [0xD83D%N];
     mobi_files := fun p =>
       if str_eqb p (U "/x/book.mobi")
       then inr [(U "page.html", inr (U "&#xD83D;"))]
       else inl (OtherException (U "FileNotFoundError") []);
     read_utf8_scalar := ltac:(intros p s E; discriminate E);
     read_latin1_scalar := ltac:(intros p s E; discriminate E) |}.

End Extract.

(* ===================================================================== *)
(** * ReferenceIndexer: [_create_reference_sheet_worker] *)
(* ===================================================================== *)

Module RefIndex.
Local Open Scope N_scope.




Definition id_char (c : N) : bool :=
  (65 <=? c) && (c <=? 90) || (48 <=? c) && (c <=? 57).


Section Worker.
Context `{UnicodeDB}.










End Worker.



End RefIndex.

(* ===================================================================== *)
(** * Reading ids back, and the DocID prefix *)
(* ===================================================================== *)

Section IdValues.
Local Open Scope N_scope.

(** The place of a symbol in [IDManager.ALPHABET]. *)
Definition alphabet_index (c : N) : N :=
  if (48 <=? c) && (c <=? 57) then c - 48 else c - 55.

(** The number a string of symbols stands for in base [base], most
    significant symbol first. *)
Definition base_n_value (base : N) (s : str) : N :=
  fold_left (fun v c => base * v + alphabet_index c) s 0.

(** The value of the symbols appended by the loop, least significant
    first. *)
Definition le_value (base : N) (ds : str) : N :=
  fold_right (fun c v => alphabet_index c + base * v) 0 ds.

(** [[A-Za-z0-9]] *)
Definition ascii_alnum (c : N) : bool :=
  ascii_upper c || ascii_lower c || ascii_digit c.

(** The DocID prefix of [start_processing]: the answer of the dialog,
    [None] when it is dismissed, cut down to letters and digits and
    raised; ["DOC"] when nothing is left.  On letters and digits of ASCII
    [str.upper] is the ASCII one. *)
Definition docid_prefix (answer : option str) : str :=
  match answer with
  | None | Some [] => U "DOC"
  | Some id_prefix =>
    match map ascii_to_upper (filter ascii_alnum id_prefix) with
    | [] => U "DOC"
    | p => p
    end
  end.

End IdValues.

(* ===================================================================== *)
(** * The ignore rules of a bundle run *)
(* ===================================================================== *)

Definition DEFAULT_IGNORE : list str :=
  map U
  [ ".git/"; ".gitignore"; ".gitattributes";
    "poetry.lock"; "pnpm-lock.yaml"; "package-lock.json"; "yarn.lock";
    "__pycache__/"; "*.pyc"; "*.pyo"; "*.pyd"; "*.egg"; "*.egg-info/";
    "pip-wheel-metadata/";
    "venv/"; ".venv/"; "env/"; ".tox/";
    "bin/"; "obj/"; "*.csproj.user"; "*.sln.dotsettings";
    "node_modules/"; ".pnpm-store/";
    ".env"; ".env.*";
    "nbproject/"; "*.sublime-workspace"; ".vscode/"; ".idea/";
    "vendor/";
    "build/"; "dist/"; "target/"; "out/";
    "*.log"; "*.db"; "*.sqlite"; "*.sqlite3"; "*.db-journal";
    ".DS_Store"; "Thumbs.db" ]%string.

Section IgnoreRules.
Local Open Scope N_scope.

(** The loop of [read_gitignore_patterns] over the lines of the file. *)
Fixpoint gitignore_lines (lines : list str) : list str :=
  match lines with
  | [] => []
  | line :: lines' =>
    let line := strip line in
    match line with
    | [] => gitignore_lines lines'
    | _ => if startswith line (U "#") then gitignore_lines lines'
           else line :: gitignore_lines lines'
    end
  end.

(** [read_gitignore_patterns(project_root)].  The file is given by the
    lines it yields before any failure; [None] when there is no
    [.gitignore] or it cannot be opened. *)
Definition read_gitignore_patterns (gi : option (list str)) : list str :=
  match gi with
  | Some lines => gitignore_lines lines
  | None => []
  end.

(** The rules of [_bundle_project_worker]: the defaults, the project's
    own, then the names of the output file and of the tool's script. *)
Definition ignore_patterns (gi : option (list str))
           (output_name script_name : str) : list str :=
  (DEFAULT_IGNORE ++ read_gitignore_patterns gi)
  ++ [output_name] ++ [script_name].

(** A pattern without [*], [?] and [[]. *)
Definition glob_literal (pat : str) : bool :=
  forallb (fun c => negb ((c =? 42) || (c =? 63) || (c =? 91))) pat.

(** No rule hides the entry at [q] below [rel], nor a directory on the
    way to it. *)
Fixpoint visible (patterns : list str) (rel q : list str) : bool :=
  match q with
  | [] => false
  | [f] =>
    negb (should_ignore {| comps := rel ++ [f]; p_is_dir := false |} patterns)
  | d :: rest =>
    negb (should_ignore {| comps := rel ++ [d]; p_is_dir := true |} patterns)
    && visible patterns (rel ++ [d]) rest
  end.

End IgnoreRules.

(** A MOBI whose only page is white space, to run the extractor on. *)
Definition blank_mobi_world : Extract.World :=
  {| Extract.read_utf8 := fun _ => inl (IOError (U "No such file or directory"));
     Extract.read_latin1 := fun _ => inl (IOError (U "No such file or directory"));
     Extract.pdf_pages := fun _ => inl (OtherException (U "FileNotFoundError") []);
     Extract.epub_items := fun _ => inl (OtherException (U "FileNotFoundError") []);
     Extract.html_text := fun html => inr html;
     Extract.mobi_files := fun p =>
       if str_eqb p (U "/x/book.mobi")
       then inr [(U "page.html", inr (U "  "))]
       else inl (OtherException (U "FileNotFoundError") []);
     Extract.read_utf8_scalar := ltac:(intros p s E; discriminate E);
     Extract.read_latin1_scalar := ltac:(intros p s E; discriminate E) |}.

(* ===================================================================== *)
(** * KnowledgeWriter: [_process_documents_worker] *)
(* ===================================================================== *)

Module Knowledge.
Import Extract.


Section Chunks.
Variable A : Type.

(** [range(0, n, step)] for a positive [step]. *)
Definition range_step (n step : nat) : list nat :=
  map (fun j => j * step) (seq 0 ((n + step - 1) / step)).

(** [[l[i:i + size] for i in range(0, len(l), size)]] for a positive
    [size]. *)
Definition chunks_of (l : list A) (size : nat) : list (list A) :=
  map (fun i => firstn size (skipn i l)) (range_step (length l) size).

End Chunks.
Arguments chunks_of {A} l size.

(** [file_chunks]: with a step of zero [range] raises, with a negative
    one it is empty. *)
Definition file_chunks (file_paths : list str) (chunk_size : Z)
  : result (list (list str)) :=
  if (chunk_size =? 0)%Z
  then Raise (ValueError (U "range() arg 3 must not be zero"))
  else if (chunk_size <? 0)%Z then Ok []
  else Ok (chunks_of file_paths (Z.to_nat chunk_size)).

(** [s.split('\n')] *)
Fixpoint split_lines (s : str) : list str :=
  match s with
  | [] => [[]]
  | c :: r =>
    if (c =? LF)%N then [] :: split_lines r
    else match split_lines r with
         | l :: ls => (c :: l) :: ls
         | [] => [[c]]
         end
  end.

(** The replacement of one match of [[^\n]{10000,}]:
    ['\n'.join(m.group(0)[i:i+10000] for i in range(0, len(m.group(0)), 10000))];
    a shorter run is no match and stays. *)
Definition wrap_run (width : nat) (run : str) : str :=
  if width <=? length run then join [LF] (chunks_of run width) else run.

(** [re.sub(r'[^\n]{10000,}', ..., clean)]: a match is a whole run of
    characters other than newline, [run] holding the part of it already
    read. *)
Fixpoint soft_wrap_go (width : nat) (run s : str) : str :=
  match s with
  | [] => wrap_run width run
  | c :: r =>
    if (c =? LF)%N then wrap_run width run ++ LF :: soft_wrap_go width [] r
    else soft_wrap_go width (run ++ [c]) r
  end.

Definition WRAP : nat := 100 * 100.

Definition soft_wrap (clean : str) : str := soft_wrap_go WRAP [] clean.


(** A document with its [_order]. *)
Definition doc : Type := (nat * DocumentRecord)%type.


(** [key=os.path.basename] *)
Definition basename_leb (a b : str) : bool :=
  str_leb (basename a) (basename b).


Section Worker.
Context `{UnicodeDB}.
Variable w : World.











End Worker.

End Knowledge.

(* ===================================================================== *)
(** * The document queue *)
(* ===================================================================== *)

Module Queue.

(** The lines a text file yields when iterated, each with its newline;
    [cur] is the part of the current line already read. *)
Fixpoint file_lines_go (cur s : str) : list str :=
  match s with
  | [] => match cur with [] => [] | _ => [cur] end
  | c :: r =>
    if (c =? LF)%N then (cur ++ [LF]) :: file_lines_go [] r
    else file_lines_go (cur ++ [c]) r
  end.

(** [open(path, 'r', encoding='utf-8', errors='ignore')] and the loop
    [for line in f]: the bytes are decoded, every line ending is read as
    one newline, and the text is cut after each newline. *)
Definition read_lines (content : bytes) : list str :=
  let text := decode_utf8_ignore content in
  let text := replace (replace text [CR; LF] [LF]) [CR] [LF] in
  file_lines_go [] text.

(** [f.write(text)] on a file opened with [encoding='utf-8']: a
    surrogate cannot be encoded. *)
Definition write_utf8 (text : str) : result bytes :=
  if forallb scalar text then Ok (encode_utf8 text)
  else Raise (OtherException (U "UnicodeEncodeError")
                             (U "surrogates not allowed")).

(** The loop [if f not in self.file_queue: self.file_queue.append(f)]. *)
Definition add_files (file_queue files : list str) : list str :=
  fold_left (fun q f => if str_in f q then q else q ++ [f]) files file_queue.

(** [export_queue]: the bytes written to the file chosen; [None] for an
    empty queue, which is not exported.  A failure of the write ends in
    an error dialog. *)
Definition export_queue (file_queue : list str) : option (result bytes) :=
  match file_queue with
  | [] => None
  | _ =>
    let sorted_queue := sorted Knowledge.basename_leb file_queue in
    Some (write_utf8 (join [LF] sorted_queue))
  end.

(** [import_queue]: the queue afterwards.  [exists_] is
    [os.path.exists]; a file that cannot be read leaves the queue as it
    is. *)
Definition import_queue (exists_ : str -> bool) (file : exn + bytes)
           (file_queue : list str) : list str :=
  match file with
  | inl _ => file_queue
  | inr content =>
    let new_files :=
      filter (fun l => negb (Extract.blank l))
             (map strip (read_lines content)) in
    fold_left (fun q file_path =>
                 if exists_ file_path && negb (str_in file_path q)
                 then q ++ [file_path] else q)
              new_files file_queue
  end.

Section Duplicates.
Context `{UnicodeDB}.

(** [os.path.basename(f).lower()] *)
Definition name_key (f : str) : str := lower (basename f).

(** The loop of [check_for_duplicates]: [seen] in the order of insertion,
    and [duplicates]. *)
Definition scan_duplicates (file_queue : list str)
  : list (str * str) * list str :=
  fold_left (fun (st : list (str * str) * list str) f =>
               let (seen, duplicates) := st in
               let name := name_key f in
               match lookup seen name with
               | Some _ => (seen, duplicates ++ [f])
               | None => (seen ++ [(name, f)], duplicates)
               end)
            file_queue ([], []).

(** [check_for_duplicates]: the queue afterwards; [confirm] is the answer
    to the question whether to remove the duplicates. *)
Definition check_for_duplicates (file_queue : list str) (confirm : bool)
  : list str :=
  match file_queue with
  | [] => []
  | _ =>
    let (seen, duplicates) := scan_duplicates file_queue in
    match duplicates with
    | [] => file_queue
    | _ => if confirm then map snd seen else file_queue
    end
  end.

End Duplicates.

End Queue.

(* ===================================================================== *)
(** * Properties *)
(* ===================================================================== *)

(** ** Facts on the string primitives *)

Lemma str_eqb_eq (a b : str) : str_eqb a b = true <-> a = b.
Proof.
  unfold str_eqb. destruct (list_eq_dec N.eq_dec a b); split; congruence.
Qed.

Lemma str_eqb_refl (a : str) : str_eqb a a = true.
Proof. now apply str_eqb_eq. Qed.

Lemma startswith_app (p s : str) : startswith (p ++ s) p = true.
Proof.
  induction p as [|c p IH]; simpl; [reflexivity|].
  now rewrite N.eqb_refl, IH.
Qed.

Lemma startswith_spec (s p : str) :
  startswith s p = true <-> exists r, s = p ++ r.
Proof.
  revert s. induction p as [|c p IH]; intros s; simpl.
  - split; [intros _; now exists s | reflexivity].
  - destruct s as [|d s].
    + split; [discriminate | intros [r Hr]; discriminate].
    + rewrite andb_true_iff, N.eqb_eq, IH. split.
      * intros [-> [r ->]]. now exists r.
      * intros [r Hr]. injection Hr as -> ->. split; [reflexivity | now exists r].
Qed.

Lemma strip_nil : strip [] = [].
Proof. reflexivity. Qed.

(** ** ContentIDGenerator *)

Section ShortId.
Local Open Scope N_scope.
Import IDManager.

Lemma alphabet_at_ok (i : N) :
  i < 36 -> exists c, alphabet_at i = Ok c.
Proof.
  intros Hi. unfold alphabet_at.
  destruct (nth_error ALPHABET (N.to_nat i)) as [c|] eqn:E; [now exists c|].
  apply nth_error_None in E. simpl in E. lia.
Qed.

(** The loop ends within its fuel and appends one symbol per base-36
    digit of [n]. *)
Lemma base_n_loop_digits (fuel : nat) :
  forall n s, n < 2 ^ N.of_nat fuel ->
    exists ds, base_n_loop (S fuel) n 36 s = Ok (s ++ ds)
               /\ n < 36 ^ N.of_nat (length ds)
               /\ (n <> 0 -> 36 ^ N.of_nat (length ds) <= 36 * n).
Proof.
  induction fuel as [|f IH]; intros n s Hn.
  - simpl in Hn. exists []. assert (n = 0) by lia. subst.
    rewrite app_nil_r. split; [reflexivity|]. split; [simpl; lia | congruence].
  - remember (S f) as f1 eqn:Ef1. cbn [base_n_loop]. subst f1.
    destruct (N.eqb_spec n 0) as [->|Hnz].
    + exists []. rewrite app_nil_r.
      split; [reflexivity|]. split; [simpl; lia | congruence].
    + change (36 =? 0) with false. cbv iota.
      destruct (alphabet_at_ok (n mod 36)) as [c Hc].
      { apply N.mod_lt. lia. }
      rewrite Hc. cbn [bind].
      destruct (IH (n / 36) (s ++ [c])) as [ds [H1 [H2 H3]]].
      { rewrite Nnat.Nat2N.inj_succ, N.pow_succ_r' in Hn.
        apply N.Div0.div_lt_upper_bound. lia. }
      exists (c :: ds). rewrite H1, <- app_assoc. split; [reflexivity|].
      cbn [length]. rewrite Nnat.Nat2N.inj_succ, N.pow_succ_r'.
      pose proof (N.div_mod n 36 ltac:(lia)) as Hdm.
      pose proof (N.mod_lt n 36 ltac:(lia)) as Hm.
      split; [lia|]. intros _.
      destruct (N.eqb_spec (n / 36) 0) as [Hq|Hq].
      * rewrite Hq in *. assert (Hds : 36 ^ N.of_nat (length ds) >= 1).
        { pose proof (N.pow_nonzero 36 (N.of_nat (length ds))). lia. }
        destruct ds as [|d ds].
        { change (N.of_nat (length (@nil N))) with 0. rewrite N.pow_0_r. lia. }
        (* a zero quotient ends the loop at once *)
        exfalso. cbn [base_n_loop] in H1. change (0 =? 0) with true in H1.
        cbv iota in H1. injection H1 as H1.
        apply (f_equal (@length N)) in H1. rewrite !length_app in H1.
        simpl in H1. lia.
      * specialize (H3 Hq).
        set (X := 36 ^ N.of_nat (length ds)) in *. clearbody X.
        set (q := n / 36) in *. set (m := n mod 36) in *. clearbody q m. lia.
Qed.

Lemma int_to_base_n_digits (n : N) :
  exists ds, _int_to_base_n n 36 = Ok ds
             /\ n < 36 ^ N.of_nat (length ds)
             /\ ds <> [].
Proof.
  unfold _int_to_base_n. destruct (N.eqb_spec n 0) as [->|Hnz].
  - exists [48]. split; [reflexivity|]. split; [simpl; lia | discriminate].
  - destruct (base_n_loop_digits (S (N.to_nat (N.log2 n))) n [])
      as [ds [H1 [H2 H3]]].
    { rewrite !Nnat.Nat2N.inj_succ, Nnat.N2Nat.id.
      pose proof (N.log2_spec n ltac:(lia)) as [_ Hl]. exact Hl. }
    rewrite H1. cbn [bind app]. exists (rev ds). rewrite length_rev.
    split; [reflexivity|]. split; [assumption|].
    intros Hr. apply (f_equal (@length N)) in Hr. rewrite length_rev in Hr.
    destruct ds; [simpl in H2; lia | discriminate].
Qed.


Lemma alphabet_at_not_sign (i c : N) :
  alphabet_at i = Ok c -> c <> 43 /\ c <> 45.
Proof.
  unfold alphabet_at.
  destruct (nth_error ALPHABET (N.to_nat i)) as [d|] eqn:E; [|discriminate].
  intros [= ->]. apply nth_error_In in E.
  split; intros ->; vm_compute in E; intuition discriminate.
Qed.

Lemma base_n_loop_symbols (P : N -> Prop) (base : N) (fuel : nat) :
  (forall i c, alphabet_at i = Ok c -> P c) ->
  forall n s r, base_n_loop fuel n base s = Ok r -> Forall P s -> Forall P r.
Proof.
  intros HP. induction fuel as [|f IH]; intros n s r; cbn [base_n_loop].
  - discriminate.
  - destruct (n =? 0); [now intros [= ->]|].
    destruct (base =? 0); [discriminate|].
    destruct (alphabet_at (n mod base)) as [c| |] eqn:Ec; cbn [bind];
      try discriminate.
    intros Hr Hs. apply (IH _ _ _ Hr). apply Forall_app. split; [assumption|].
    constructor; [now apply (HP _ _ Ec) | constructor].
Qed.

Lemma int_to_base_n_head (n base c : N) (r : str) :
  _int_to_base_n n base = Ok (c :: r) -> c <> 43 /\ c <> 45.
Proof.
  unfold _int_to_base_n. destruct (n =? 0).
  - destruct (alphabet_at 0) as [d| |] eqn:E; cbn [bind]; try discriminate.
    intros [= -> _]. now apply (alphabet_at_not_sign _ _ E).
  - destruct (base_n_loop _ n base []) as [s| |] eqn:E; cbn [bind];
      try discriminate.
    intros [= Hs].
    assert (HF : Forall (fun c => c <> 43 /\ c <> 45) (rev s)).
    { apply Forall_rev.
      apply (base_n_loop_symbols (fun c => c <> 43 /\ c <> 45) base _
               alphabet_at_not_sign _ _ _ E). constructor. }
    rewrite Hs in HF. now inversion HF.
Qed.

(** Left padding only: the digits are all kept. *)
Lemma zfill_digits (ds : str) (n base : N) (len : Z) :
  _int_to_base_n n base = Ok ds ->
  zfill ds len = repeat 48 (Z.to_nat len - length ds) ++ ds.
Proof.
  intros H. unfold zfill. destruct ds as [|c r].
  - now rewrite app_nil_r.
  - destruct (int_to_base_n_head _ _ _ _ H) as [H1 H2].
    apply N.eqb_neq in H1, H2. now rewrite H1, H2.
Qed.



End ShortId.

(** ** IgnoreMatcher *)

Section SortPermutation.
Variable A : Type.
Variable leb : A -> A -> bool.

Lemma insert_sorted_In (x y : A) (l : list A) :
  In y (insert_sorted leb x l) <-> y = x \/ In y l.
Proof.
  induction l as [|z l IH]; simpl.
  - intuition.
  - destruct (leb z x); simpl; rewrite ?IH; intuition.
Qed.

Lemma sorted_In (y : A) (l : list A) : In y (sorted leb l) <-> In y l.
Proof.
  unfold sorted.
  assert (H : forall acc, In y (fold_left (fun a x => insert_sorted leb x a) l acc)
                          <-> In y acc \/ In y l).
  { induction l as [|x l IH]; intros acc; simpl; [intuition|].
    rewrite IH, insert_sorted_In. intuition. }
  rewrite H. simpl. intuition.
Qed.

Lemma insert_sorted_perm (x : A) (l : list A) :
  Permutation (x :: l) (insert_sorted leb x l).
Proof.
  induction l as [|z l IH]; simpl; [reflexivity|].
  destruct (leb z x); [|reflexivity].
  rewrite perm_swap. now constructor.
Qed.

Lemma sorted_perm (l : list A) : Permutation l (sorted leb l).
Proof.
  unfold sorted.
  assert (H : forall acc, Permutation (acc ++ l)
                (fold_left (fun a x => insert_sorted leb x a) l acc)).
  { induction l as [|x l IH]; intros acc; simpl.
    - now rewrite app_nil_r.
    - rewrite <- IH. rewrite <- insert_sorted_perm.
      symmetry. apply Permutation_middle. }
  exact (H []).
Qed.

End SortPermutation.

Section NodeInduction.
Variable P : node -> Prop.
Hypothesis HFile : forall name, P (File name).
Hypothesis HDir : forall name children, Forall P children -> P (Dir name children).

Fixpoint node_ind (n : node) : P n :=
  match n with
  | File name => HFile name
  | Dir name children =>
    HDir name children
      ((fix all (l : list node) : Forall P l :=
          match l with
          | [] => Forall_nil P
          | c :: l' => Forall_cons c (node_ind c) (all l')
          end) children)
  end.

End NodeInduction.

Section BuildRule.

Let build_rule : list str := [U "build/"].

Lemma path_name_last (rel : list str) (name : str) (d : bool) :
  path_name {| comps := rel ++ [name]; p_is_dir := d |} = name.
Proof. unfold path_name. simpl. apply last_last. Qed.

(** Whatever lies above it, an entry called [build] is ignored. *)
Lemma build_entry_ignored (rel : list str) (d : bool) :
  should_ignore {| comps := rel ++ [U "build"]; p_is_dir := d |} build_rule
  = true.
Proof.
  unfold build_rule. cbn [should_ignore].
  rewrite path_name_last.
  change (replace (U "build/") (U "\") (U "/")) with (U "build/").
  change (endswith (U "build/") (U "/")) with true. cbv iota.
  change (fnmatch (U "build" ++ U "/") (U "build/")) with true.
  reflexivity.
Qed.

Lemma descend_In (patterns : list str) (rel : list str) (d : str)
      (p : list str) (children : list node) :
  In p ((fix descend (l : list node) : list (list str) :=
           match l with
           | [] => []
           | c :: l' =>
             if is_dir c && str_eqb (node_name c) d
             then walk patterns (rel ++ [d]) c
             else descend l'
           end) children) ->
  exists c, In c children /\ In p (walk patterns (rel ++ [d]) c).
Proof.
  induction children as [|c l IH]; simpl; [intros []|].
  destruct (is_dir c && str_eqb (node_name c) d) eqn:E.
  - intros H. exists c. split; [now left | exact H].
  - intros H. destruct (IH H) as [c' [Hc' Hp]]. exists c'. split; [now right | exact Hp].
Qed.

(** Every collected path extends the directory walked, by names none of
    which is [build]. *)
Lemma walk_no_build (n : node) :
  forall rel p, In p (walk build_rule rel n) ->
    exists q, p = rel ++ q /\ ~ In (U "build") q.
Proof.
  induction n as [name|name children IH] using node_ind;
    intros rel p; cbn [walk]; [intros []|].
  rewrite in_app_iff, in_map_iff, in_flat_map.
  intros [[f [<- Hf]]|[d [Hd Hp]]].
  - apply filter_In in Hf. destruct Hf as [_ Hk].
    exists [f]. split; [reflexivity|]. intros [->|[]].
    rewrite build_entry_ignored in Hk. discriminate.
  - apply sorted_In, filter_In in Hd. destruct Hd as [_ Hk].
    apply descend_In in Hp. destruct Hp as [c [Hc Hp]].
    rewrite Forall_forall in IH.
    destruct (IH c Hc _ _ Hp) as [q [-> Hq]].
    exists (d :: q). split; [now rewrite <- app_assoc|].
    intros [->|Hin]; [|now apply Hq].
    rewrite build_entry_ignored in Hk. discriminate.
Qed.

Lemma descend_child (patterns : list str) (rel : list str) (d : str)
      (children : list node) (c : node) :
  child_dir d children = Some c ->
  (fix descend (l : list node) : list (list str) :=
     match l with
     | [] => []
     | c :: l' =>
       if is_dir c && str_eqb (node_name c) d
       then walk patterns (rel ++ [d]) c
       else descend l'
     end) children = walk patterns (rel ++ [d]) c.
Proof.
  induction children as [|x l IH]; [discriminate|].
  cbn [child_dir]. destruct x as [f|n ch]; cbn [is_dir node_name andb].
  - exact IH.
  - destruct (str_eqb n d); [now intros [= <-] | exact IH].
Qed.

Lemma child_dir_In (d : str) (children : list node) (c : node) :
  child_dir d children = Some c ->
  In c children /\ is_dir c = true /\ node_name c = d.
Proof.
  induction children as [|x l IH]; [discriminate|].
  cbn [child_dir]. destruct x as [f|n ch].
  - intros H. destruct (IH H) as [H1 H2]. split; [now right | exact H2].
  - destruct (str_eqb n d) eqn:E.
    + intros [= <-]. apply str_eqb_eq in E. repeat split; [now left | exact E].
    + intros H. destruct (IH H) as [H1 H2]. split; [now right | exact H2].
Qed.

(** C4. With the single rule [build/], neither [build/x.txt] nor
    [a/build/y.txt] is collected, whatever the tree holds, while
    [buildup/z.txt] is collected whenever the tree has it. *)
Theorem build_rule_ignore_correct (root : node) :
  let collected := iter_files root [U "build/"] in
  ~ In [U "build"; U "x.txt"] collected
  /\ ~ In [U "a"; U "build"; U "y.txt"] collected
  /\ (has_file [U "buildup"; U "z.txt"] root ->
      In [U "buildup"; U "z.txt"] collected).
Proof.
  cbv zeta. unfold iter_files. split; [|split].
  - intros H. apply walk_no_build in H. destruct H as [q [Hq Hn]].
    simpl in Hq. subst q. apply Hn. now left.
  - intros H. apply walk_no_build in H. destruct H as [q [Hq Hn]].
    simpl in Hq. subst q. apply Hn. right. now left.
  - destruct root as [f|name children]; [intros []|].
    cbn [has_file]. destruct (child_dir (U "buildup") children) as [c|] eqn:Ec;
      [|intros []].
    destruct c as [f|n2 ch2]; [intros []|]. intros Hz.
    cbn [walk]. apply in_or_app. right. apply in_flat_map.
    exists (U "buildup"). split.
    + apply sorted_In, filter_In. split; [|reflexivity].
      apply child_dir_In in Ec. destruct Ec as [Hin [Hd Hname]].
      rewrite <- Hname. apply in_map. apply filter_In. now split.
    + rewrite (descend_child _ _ _ _ _ Ec). cbn [walk app].
      apply in_or_app. left.
      change [U "buildup"; U "z.txt"] with ((fun f => [U "buildup"; f]) (U "z.txt")).
      apply in_map. apply filter_In. split; [|reflexivity].
      apply sorted_In. change (U "z.txt") with (node_name (File (U "z.txt"))).
      apply in_map. apply filter_In. now split.
Qed.

Lemma build_rule_ignore_correct_witness :
  let root :=
    Dir (U "root")
      [ Dir (U "build") [File (U "x.txt")];
        Dir (U "a") [Dir (U "build") [File (U "y.txt")]];
        Dir (U "buildup") [File (U "z.txt")] ] in
  iter_files root [U "build/"] = [[U "buildup"; U "z.txt"]]
  /\ In [U "buildup"; U "z.txt"] (iter_files root [U "build/"]).
Proof.
  cbv zeta. split; [reflexivity|].
  apply (build_rule_ignore_correct
           (Dir (U "root")
              [ Dir (U "build") [File (U "x.txt")];
                Dir (U "a") [Dir (U "build") [File (U "y.txt")]];
                Dir (U "buildup") [File (U "z.txt")] ])).
  simpl. now left.
Defined.

End BuildRule.

(** ** Decimal numerals *)

Section NumeralFacts.
Local Open Scope N_scope.

Lemma dec_value_snoc (s : str) (c : N) :
  dec_value (s ++ [c]) = 10 * dec_value s + (c - 48).
Proof. unfold dec_value. now rewrite fold_left_app. Qed.

Lemma dec_value_zeros (k : nat) (s : str) :
  dec_value (repeat 48 k ++ s) = dec_value s.
Proof.
  unfold dec_value. rewrite fold_left_app. f_equal.
  induction k as [|k IH]; [reflexivity|]. simpl. exact IH.
Qed.

Lemma dec_loop_spec (fuel : nat) :
  forall n acc, n < 10 ^ N.of_nat (S fuel) ->
    exists ds, dec_loop (S fuel) n acc = ds ++ acc
               /\ dec_value ds = n
               /\ n < 10 ^ N.of_nat (length ds)
               /\ (n <> 0 -> 10 ^ N.of_nat (length ds) <= 10 * n)
               /\ ds <> [].
Proof.
  induction fuel as [|f IH]; intros n acc Hn.
  - change (10 ^ N.of_nat 1) with 10 in Hn. cbn [dec_loop].
    destruct (N.ltb_spec n 10) as [Hlt|Hge]; [|lia].
    exists [48 + n]. split; [reflexivity|]. split.
    { unfold dec_value. cbn [fold_left]. lia. }
    change (N.of_nat (length [48 + n])) with 1. rewrite N.pow_1_r.
    repeat split; try lia. discriminate.
  - remember (S f) as f1 eqn:Ef1. cbn [dec_loop]. subst f1.
    destruct (N.ltb_spec n 10) as [Hlt|Hge].
    + exists [48 + n]. split; [reflexivity|]. split.
      { unfold dec_value. cbn [fold_left]. lia. }
      change (N.of_nat (length [48 + n])) with 1. rewrite N.pow_1_r.
      repeat split; try lia. discriminate.
    + pose proof (N.div_mod n 10 ltac:(lia)) as Hdm.
      pose proof (N.mod_lt n 10 ltac:(lia)) as Hm.
      set (q := n / 10) in *. set (m := n mod 10) in *.
      assert (Hq : q <> 0).
      { intros Hq. rewrite Hq in Hdm. lia. }
      destruct (IH q ((48 + m) :: acc)) as [ds [H1 [H2 [H3 [H4 H5]]]]].
      { rewrite Nnat.Nat2N.inj_succ, N.pow_succ_r' in Hn.
        set (Y := 10 ^ N.of_nat (S f)) in *. clearbody Y q m. lia. }
      exists (ds ++ [48 + m]). rewrite H1, <- app_assoc.
      split; [reflexivity|]. rewrite dec_value_snoc, H2, length_app.
      change (length [48 + m]) with 1%nat.
      rewrite Nat.add_1_r, Nnat.Nat2N.inj_succ, N.pow_succ_r'.
      specialize (H4 Hq).
      set (X := 10 ^ N.of_nat (length ds)) in *. clearbody X q m.
      repeat split; try lia.
      intros E. now destruct ds.
Qed.

Lemma str_of_N_spec (n : N) :
  dec_value (str_of_N n) = n
  /\ n < 10 ^ N.of_nat (length (str_of_N n))
  /\ (n <> 0 -> 10 ^ N.of_nat (length (str_of_N n)) <= 10 * n)
  /\ str_of_N n <> [].
Proof.
  unfold str_of_N.
  destruct (dec_loop_spec (N.to_nat (N.log2 n)) n []) as [ds [H1 H2]].
  - rewrite Nnat.Nat2N.inj_succ, Nnat.N2Nat.id.
    destruct (N.eq_dec n 0) as [->|Hn]; [reflexivity|].
    pose proof (N.log2_spec n ltac:(lia)) as [_ Hl].
    apply (N.lt_le_trans _ _ _ Hl). apply N.pow_le_mono_l. lia.
  - rewrite H1, app_nil_r. exact H2.
Qed.

(** A smaller number has no more digits. *)
Lemma str_of_N_length_mono (i n : N) :
  i <= n -> (length (str_of_N i) <= length (str_of_N n))%nat.
Proof.
  intros Hle.
  destruct (str_of_N_spec i) as [_ [_ [Hi Hine]]].
  destruct (str_of_N_spec n) as [_ [Hn [_ Hnne]]].
  destruct (N.eq_dec i 0) as [->|Hi0].
  - change (str_of_N 0) with [48]. destruct (str_of_N n); [congruence|simpl; lia].
  - specialize (Hi Hi0).
    assert (Hp : 10 ^ N.of_nat (length (str_of_N i))
                 < 10 ^ N.succ (N.of_nat (length (str_of_N n)))).
    { rewrite N.pow_succ_r'. lia. }
    apply N.pow_lt_mono_r_iff in Hp; lia.
Qed.

End NumeralFacts.

(** ** BundleEncoder: file ids *)

Section FileIds.
Import Bundle.
Context `{UnicodeDB}.
Variable sha1_hexdigest : bytes -> str.

Lemma make_meta_id (cfg : Config) (count i : nat) (f : SrcFile) :
  m_id (make_meta sha1_hexdigest cfg count i f) = file_id cfg count i.
Proof.
  unfold make_meta. destruct (is_probably_binary f); [reflexivity|].
  destruct (read_meta f) as [[|b raw]|]; reflexivity.
Qed.

Lemma make_metas_ids (cfg : Config) (count : nat) (files : list SrcFile) :
  forall i, map m_id (make_metas sha1_hexdigest cfg count i files)
            = map (file_id cfg count) (seq i (length files)).
Proof.
  induction files as [|f files IH]; intros i; [reflexivity|].
  cbn [make_metas map length seq]. now rewrite make_meta_id, IH.
Qed.

Lemma format_0d_value (w : nat) (i : N) : dec_value (format_0d w i) = i.
Proof.
  unfold format_0d. rewrite dec_value_zeros. apply str_of_N_spec.
Qed.

Lemma file_id_injective (cfg : Config) (count : nat) :
  Finite.Injective (file_id cfg count).
Proof.
  intros i j Hij. unfold file_id in Hij. apply app_inv_head in Hij.
  apply (f_equal dec_value) in Hij. rewrite !format_0d_value in Hij. lia.
Qed.

Lemma bundle_meta (cfg : Config) (collected : list SrcFile) :
  fst (fst (bundle sha1_hexdigest cfg collected))
  = make_metas sha1_hexdigest cfg (length collected) 1
      (sort_files (cfg_sort cfg) collected).
Proof.
  unfold bundle.
  destruct (write_sections _ _ _) as [ss w]. cbn [fst].
  unfold sort_files.
  now rewrite <- (Permutation_length (sorted_perm _ (sort_leb (cfg_sort cfg)) collected)).
Qed.

(** C7. The ids of a bundle are the prefix followed by the decimal digits
    of 1, 2, ... in file order, filled with zeros on the left to exactly
    [max(4, digit_count(file_count))] characters, and no two are equal. *)
Theorem file_ids_sequential_distinct (cfg : Config) (collected : list SrcFile) :
  let ids := map m_id (fst (fst (bundle sha1_hexdigest cfg collected))) in
  let count := length collected in
  let width := Nat.max 4 (length (str_of_N (N.of_nat count))) in
  length ids = count
  /\ (forall k, k < count ->
        exists zeros,
          nth k ids [] = id_prefix cfg ++ zeros ++ str_of_N (N.of_nat (S k))
          /\ Forall (eq 48%N) zeros
          /\ length (zeros ++ str_of_N (N.of_nat (S k))) = width
          /\ dec_value (str_of_N (N.of_nat (S k))) = N.of_nat (S k))
  /\ NoDup ids.
Proof.
  cbv zeta. rewrite bundle_meta, make_metas_ids.
  assert (Hlen : length (sort_files (cfg_sort cfg) collected) = length collected).
  { unfold sort_files. symmetry. apply Permutation_length, sorted_perm. }
  rewrite Hlen. split; [|split].
  - now rewrite length_map, length_seq.
  - intros k Hk.
    exists (repeat 48%N (id_width (length collected)
                         - length (str_of_N (N.of_nat (S k))))).
    split; [|split; [|split]].
    + rewrite (nth_indep _ [] (file_id cfg (length collected) 0))
        by now rewrite length_map, length_seq.
      rewrite map_nth, seq_nth by assumption. reflexivity.
    + apply Forall_forall. intros c Hc. now apply repeat_spec in Hc.
    + rewrite length_app, repeat_length.
      assert (Hm : length (str_of_N (N.of_nat (S k)))
                   <= length (str_of_N (N.of_nat (length collected)))).
      { apply str_of_N_length_mono. lia. }
      unfold id_width. lia.
    + apply str_of_N_spec.
  - apply Finite.Injective_map_NoDup; [apply file_id_injective | apply seq_NoDup].
Qed.

End FileIds.

(** ** Decoding never adds bytes *)

Section DecodeLength.
Local Open Scope N_scope.

Ltac bools :=
  repeat match goal with
         | H : (_ && _)%bool = true |- _ => apply andb_true_iff in H; destruct H
         | H : between _ _ _ = true |- _ => unfold between in H
         | H : (_ <=? _) = true |- _ => apply N.leb_le in H
         | H : (_ <? _) = true |- _ => apply N.ltb_lt in H
         | H : (_ <? _) = false |- _ => apply N.ltb_ge in H
         end.

Ltac enc_len :=
  unfold utf8_char;
  repeat match goal with
         | |- context [?a <? ?b] =>
           destruct (N.ltb_spec a b); try lia
         end;
  reflexivity.

Lemma decode_head_length (bs : bytes) (c : N) (n : nat) :
  decode_head bs = Some (c, n) ->
  (1 <= n <= length bs)%nat /\ length (utf8_char c) = n.
Proof.
  unfold decode_head. destruct bs as [|b0 r]; [discriminate|].
  destruct (b0 <? 0x80) eqn:E0.
  { intros [= <- <-]. bools. split; [simpl; lia | enc_len]. }
  destruct (between 0xC2 0xDF b0) eqn:E2.
  { destruct r as [|b1 r]; [discriminate|].
    destruct (between 0x80 0xBF b1) eqn:E; [|discriminate].
    intros [= <- <-]. bools. split; [simpl; lia | enc_len]. }
  destruct (between 0xE0 0xEF b0) eqn:E3.
  { destruct r as [|b1 [|b2 r]]; try discriminate.
    destruct (second3 b0 b1 && between 128 191 b2)%bool eqn:E; [|discriminate].
    intros [= <- <-]. apply andb_true_iff in E. destruct E as [Es Eb].
    assert (Hb1 : 0x80 <= b1 <= 0xBF /\ (b0 = 0xE0 -> 0xA0 <= b1)).
    { unfold second3 in Es.
      destruct (N.eqb_spec b0 0xE0); [bools; lia|].
      destruct (N.eqb_spec b0 0xED); bools; lia. }
    bools. split; [simpl; lia | enc_len]. }
  destruct (between 0xF0 0xF4 b0) eqn:E4; [|discriminate].
  destruct r as [|b1 [|b2 [|b3 r]]]; try discriminate.
  destruct (second4 b0 b1 && between 128 191 b2 && between 128 191 b3)%bool
    eqn:E; [|discriminate].
  intros [= <- <-]. apply andb_true_iff in E. destruct E as [E Eb3].
  apply andb_true_iff in E. destruct E as [Es Eb2].
  assert (Hb1 : 0x80 <= b1 <= 0xBF /\ (b0 = 0xF0 -> 0x90 <= b1)).
  { unfold second4 in Es.
    destruct (N.eqb_spec b0 0xF0); [bools; lia|].
    destruct (N.eqb_spec b0 0xF4); bools; lia. }
  bools. split; [simpl; lia | enc_len].
Qed.

Lemma encode_utf8_cons (c : N) (s : str) :
  encode_utf8 (c :: s) = utf8_char c ++ encode_utf8 s.
Proof. reflexivity. Qed.

Lemma decode_go_length (bs : bytes) :
  forall skip, (skip <= length bs)%nat ->
    (length (encode_utf8 (decode_go skip bs)) + skip <= length bs)%nat.
Proof.
  induction bs as [|b r IH]; intros skip Hs.
  - simpl in *. lia.
  - cbn [decode_go]. destruct skip as [|k].
    + destruct (decode_head (b :: r)) as [[c n]|] eqn:E.
      * apply decode_head_length in E. destruct E as [Hn Hc].
        rewrite encode_utf8_cons, length_app, Hc.
        cbn [length] in *. specialize (IH (n - 1)%nat ltac:(lia)). lia.
      * specialize (IH 0%nat ltac:(lia)). cbn [length]. lia.
    + cbn [length] in *. specialize (IH k ltac:(lia)). lia.
Qed.

(** Decoding with [errors='ignore'] and writing the text back as UTF-8
    gives at most the bytes read. *)
Lemma decode_encode_length (bs : bytes) :
  (length (encode_utf8 (decode_utf8_ignore bs)) <= length bs)%nat.
Proof.
  pose proof (decode_go_length bs 0 ltac:(lia)). unfold decode_utf8_ignore. lia.
Qed.

End DecodeLength.

(** ** BundleEncoder: the byte budget *)

Section Budget.
Import Bundle.
Local Open Scope Z_scope.

Lemma slice_to_length (s : list N) (k : Z) :
  0 <= k -> Z.of_nat (length (slice_to s k)) <= k.
Proof.
  intros Hk. unfold slice_to. destruct (Z.leb_spec 0 k); [|lia].
  rewrite length_firstn. lia.
Qed.

Lemma write_section_budget (cfg : Config) (w : Z) (mf : Meta * SrcFile) :
  0 <= max_bytes_per_file cfg ->
  w <= max_total_bytes cfg ->
  let (s, w') := write_section cfg w mf in
  w' <= max_total_bytes cfg
  /\ w + Z.of_nat (length (content_bytes s)) <= w'
  /\ Z.of_nat (length (content_bytes s)) <= max_bytes_per_file cfg.
Proof.
  intros HC Hw. unfold write_section. destruct mf as [m f].
  destruct (m_is_binary m); [unfold content_bytes; cbn [sec_body length]; lia|].
  destruct (read_section f) as [raw|];
    [|unfold content_bytes; cbn [sec_body length]; lia].
  pose proof (slice_to_length raw _ HC) as Hs.
  pose proof (decode_encode_length (slice_to raw (max_bytes_per_file cfg))) as Hd.
  destruct (Z.ltb_spec (max_total_bytes cfg)
              (w + Z.of_nat (length (slice_to raw (max_bytes_per_file cfg)))));
    unfold content_bytes; cbn [sec_body length]; lia.
Qed.

Lemma write_sections_budget (cfg : Config) (mfs : list (Meta * SrcFile)) :
  0 <= max_bytes_per_file cfg ->
  forall w, w <= max_total_bytes cfg ->
    w + total_content (fst (write_sections cfg w mfs))
      <= snd (write_sections cfg w mfs) <= max_total_bytes cfg
    /\ Forall (fun s => Z.of_nat (length (content_bytes s))
                        <= max_bytes_per_file cfg)
              (fst (write_sections cfg w mfs)).
Proof.
  intros HC. induction mfs as [|mf mfs IH]; intros w Hw.
  - cbn. split; [lia | constructor].
  - cbn [write_sections].
    pose proof (write_section_budget cfg w mf HC Hw) as H1.
    destruct (write_section cfg w mf) as [s w1].
    destruct H1 as [H1 [H2 H3]]. specialize (IH w1 H1).
    destruct (write_sections cfg w1 mfs) as [ss w2].
    cbn [fst snd] in *. destruct IH as [IH1 IH2].
    split; [|now constructor].
    change (total_content (s :: ss))
      with (Z.of_nat (length (content_bytes s)) + total_content ss). lia.
Qed.

Context `{UnicodeDB}.
Variable sha1_hexdigest : bytes -> str.

(** C3. With caps [C >= 0] per file and [T >= 0] in total, no section of
    a bundle carries more than [C] bytes of file content, and all
    sections together carry at most [T]. *)
Theorem budget_enforced (cfg : Config) (collected : list SrcFile) :
  0 <= max_bytes_per_file cfg ->
  0 <= max_total_bytes cfg ->
  let sections := snd (fst (bundle sha1_hexdigest cfg collected)) in
  Forall (fun s => Z.of_nat (length (content_bytes s)) <= max_bytes_per_file cfg)
         sections
  /\ total_content sections <= max_total_bytes cfg.
Proof.
  intros HC HT. cbv zeta. unfold bundle.
  set (files := sort_files (cfg_sort cfg) collected).
  set (mfs := combine (make_metas sha1_hexdigest cfg (length files) 1 files) files).
  destruct (write_sections_budget cfg mfs HC 0 HT) as [H1 H2].
  destruct (write_sections cfg 0 mfs) as [ss w]. cbn [fst snd] in *.
  split; [exact H2 | lia].
Qed.

End Budget.

Section BudgetRuns.
Import Bundle.
Local Open Scope Z_scope.

Lemma budget_enforced_witness :
  let sections :=
    snd (fst (bundle (H := ascii_db) no_sha1 sample_cfg sample_files)) in
  Forall (fun s => Z.of_nat (length (content_bytes s)) <= 100) sections
  /\ total_content sections <= 10.
Proof.
  apply (@budget_enforced ascii_db no_sha1 sample_cfg sample_files);
    cbn; lia.
Defined.

Lemma write_sections_app (cfg : Config) (a b : list (Meta * SrcFile)) :
  forall w0,
    write_sections cfg w0 (a ++ b)
    = (fst (write_sections cfg w0 a)
         ++ fst (write_sections cfg (snd (write_sections cfg w0 a)) b),
       snd (write_sections cfg (snd (write_sections cfg w0 a)) b)).
Proof.
  induction a as [|mf a IH]; intros w0.
  - cbn. now destruct (write_sections cfg w0 b).
  - cbn [app write_sections]. destruct (write_section cfg w0 mf) as [s w1].
    rewrite IH. destruct (write_sections cfg w1 a) as [sa w2]. reflexivity.
Qed.

(** C2, as the code has it.  A readable text file whose capped content
    would take the count of written bytes over the total cap gets the
    limit note and no content, and leaves the count as it was; the files
    after it are each tested against that count, and the sections before
    it are what they would be without it. *)
Theorem limit_note_per_file
        (cfg : Config) (w0 : Z) (pre post : list (Meta * SrcFile))
        (m : Meta) (f : SrcFile) (raw : bytes) :
  m_is_binary m = false ->
  read_section f = Some raw ->
  let w := snd (write_sections cfg w0 pre) in
  let write_bytes := slice_to raw (max_bytes_per_file cfg) in
  let over := max_total_bytes cfg <? w + Z.of_nat (length write_bytes) in
  exists s,
    fst (write_sections cfg w0 (pre ++ (m, f) :: post))
    = fst (write_sections cfg w0 pre)
        ++ s :: fst (write_sections cfg
                       (if over then w else w + Z.of_nat (length write_bytes))
                       post)
    /\ sec_id s = m_id m
    /\ (over = true ->
        sec_body s = NoContent SKIP_LIMIT /\ content_bytes s = [])
    /\ (over = false ->
        sec_body s = Content (decode_utf8_ignore write_bytes)).
Proof.
  intros Hbin Hread. cbv zeta.
  rewrite write_sections_app. cbn [fst write_sections].
  set (w := snd (write_sections cfg w0 pre)).
  unfold write_section. rewrite Hbin, Hread.
  destruct (max_total_bytes cfg
            <? w + Z.of_nat (length (slice_to raw (max_bytes_per_file cfg))))
    eqn:Eover.
  - destruct (write_sections cfg w post) as [ss w'].
    eexists. split; [reflexivity|]. cbn. repeat split; congruence.
  - destruct (write_sections cfg _ post) as [ss w'].
    eexists. split; [reflexivity|]. cbn. repeat split; congruence.
Qed.

Lemma limit_note_per_file_witness :
  exists s,
    fst (write_sections sample_cfg 0
           ([(sample_meta 1, sample_a)] ++ (sample_meta 2, sample_b)
              :: [(sample_meta 3, sample_c)]))
    = fst (write_sections sample_cfg 0 [(sample_meta 1, sample_a)])
        ++ s :: fst (write_sections sample_cfg 8 [(sample_meta 3, sample_c)])
    /\ sec_id s = m_id (sample_meta 2)
    /\ sec_body s = NoContent SKIP_LIMIT
    /\ content_bytes s = [].
Proof.
  destruct (limit_note_per_file sample_cfg 0
              [(sample_meta 1, sample_a)] [(sample_meta 3, sample_c)]
              (sample_meta 2) sample_b (U "bbbbb") eq_refl eq_refl)
    as [s [H1 [H2 [H3 _]]]].
  exists s. split; [exact H1|]. split; [exact H2|]. apply H3. reflexivity.
Defined.

(** C2 as worded fails: with a total cap of 10 bytes and files of 8, 5
    and 2 bytes, the second meets the limit and the third is written. *)
Lemma limit_is_not_final : ~ limit_is_final.
Proof.
  intros Hclaim.
  destruct (Hclaim ascii_db no_sha1 sample_cfg sample_files 1%nat 2%nat
              {| sec_id := U "F0002"; sec_meta := sample_meta 2;
                 sec_body := NoContent SKIP_LIMIT |}
              {| sec_id := U "F0003"; sec_meta := sample_meta 3;
                 sec_body := Content (U "cc") |}
              eq_refl eq_refl ltac:(lia) eq_refl) as [Hbody _].
  discriminate Hbody.
Qed.

End BudgetRuns.

Section FileIdRuns.
Import Bundle.

Lemma file_ids_sequential_distinct_witness :
  map m_id (fst (fst (bundle (H := ascii_db) no_sha1 sample_cfg sample_files)))
  = [U "F0001"; U "F0002"; U "F0003"]
  /\ exists zeros,
      nth 1 (map m_id
               (fst (fst (bundle (H := ascii_db) no_sha1 sample_cfg sample_files))))
          []
      = id_prefix sample_cfg ++ zeros ++ str_of_N 2
      /\ Forall (eq 48%N) zeros
      /\ length (zeros ++ str_of_N 2) = 4
      /\ dec_value (str_of_N 2) = 2%N.
Proof.
  split; [reflexivity|].
  apply (proj1 (proj2 (@file_ids_sequential_distinct ascii_db no_sha1
                         sample_cfg sample_files)) 1).
  simpl. lia.
Defined.

End FileIdRuns.

(** ** TextNormalizer: [sanitize_text] *)

Section Sanitize.
Local Open Scope N_scope.
Context `{UnicodeDB}.

Lemma replace_cr (s : str) :
  replace s [CR] [LF] = map (fun c => if c =? CR then LF else c) s.
Proof.
  unfold replace. induction s as [|c r IH]; [reflexivity|].
  cbn [replace_go startswith map length Nat.sub app].
  rewrite andb_true_r, N.eqb_sym.
  destruct (c =? CR); now rewrite IH.
Qed.

Lemma replace_crlf_hit (r : str) :
  replace (CR :: LF :: r) [CR; LF] [LF] = LF :: replace r [CR; LF] [LF].
Proof. reflexivity. Qed.

Lemma replace_crlf_miss (c : N) (r : str) :
  startswith (c :: r) [CR; LF] = false ->
  replace (c :: r) [CR; LF] [LF] = c :: replace r [CR; LF] [LF].
Proof. intros E. unfold replace. cbn [replace_go]. now rewrite E. Qed.

Lemma control_filter_spec (c : N) :
  c <> CR ->
  control_filter c = ascii_control c && negb (c =? TAB) && negb (c =? LF).
Proof.
  unfold control_filter, ascii_control, CR, TAB, LF. intros Hc.
  repeat match goal with
         | |- context [?a <=? ?b] => destruct (N.leb_spec a b)
         | |- context [?a <? ?b] => destruct (N.ltb_spec a b)
         | |- context [?a =? ?b] => destruct (N.eqb_spec a b)
         end; try reflexivity; lia.
Qed.

(** The two replacements and the filter amount to one pass. *)
Lemma sanitize_one_pass (n : nat) :
  forall s, (length s <= n)%nat ->
    filter (fun c => negb (control_filter c))
           (replace (replace s [CR; LF] [LF]) [CR] [LF])
    = sanitize_pass s.
Proof.
  induction n as [|n IH]; intros s Hn.
  - destruct s; [reflexivity | simpl in Hn; lia].
  - destruct s as [|c r]; [reflexivity|].
    cbn [length] in Hn. cbn [sanitize_pass].
    destruct (N.eqb_spec c CR) as [->|Hc].
    + destruct r as [|d r'].
      * reflexivity.
      * destruct (N.eqb_spec d LF) as [->|Hd].
        -- rewrite replace_crlf_hit, replace_cr. cbn [map filter].
           change (LF =? CR) with false. cbv iota.
           change (negb (control_filter LF)) with true. cbv iota.
           rewrite <- replace_cr. f_equal. apply IH. cbn [length] in Hn. lia.
        -- rewrite replace_crlf_miss.
           2:{ cbn [startswith]. apply N.eqb_neq in Hd.
               rewrite (N.eqb_sym LF d), Hd. apply andb_false_r. }
           rewrite replace_cr. cbn [map filter].
           change (CR =? CR) with true. cbv iota.
           change (negb (control_filter LF)) with true. cbv iota.
           rewrite <- replace_cr. f_equal. apply IH. lia.
    + rewrite replace_crlf_miss.
      2:{ apply N.eqb_neq in Hc. destruct r; cbn [startswith];
          now rewrite (N.eqb_sym CR c), Hc. }
      rewrite replace_cr. cbn [map filter].
      apply N.eqb_neq in Hc. rewrite Hc. apply N.eqb_neq in Hc.
      rewrite <- replace_cr, (control_filter_spec c Hc), (IH r ltac:(lia)).
      now destruct (ascii_control c && negb (c =? TAB) && negb (c =? LF))%bool.
Qed.

Lemma replace_crlf_incl (n : nat) :
  forall s x, (length s <= n)%nat ->
              In x (replace s [CR; LF] [LF]) -> In x s \/ x = LF.
Proof.
  induction n as [|n IH]; intros s x Hn.
  - destruct s; [intros [] | cbn [length] in Hn; lia].
  - destruct s as [|c r]; [intros []|].
    destruct (startswith (c :: r) [CR; LF]) eqn:E.
    + apply startswith_spec in E. destruct E as [r' E]. cbn [app] in E.
      injection E as -> ->. rewrite replace_crlf_hit.
      intros [<-|Hx]; [now right|].
      destruct (IH r' x) as [Hi| ->];
        [cbn [length] in Hn; lia | exact Hx | |now right].
      left. right. now right.
    + rewrite (replace_crlf_miss c r E). intros [<-|Hx]; [left; now left|].
      destruct (IH r x) as [Hi| ->];
        [cbn [length] in Hn; lia | exact Hx | |now right].
      left. now right.
Qed.

Lemma replace_crlf_keeps (n : nat) :
  forall s x, (length s <= n)%nat -> x <> CR ->
              In x s -> In x (replace s [CR; LF] [LF]).
Proof.
  induction n as [|n IH]; intros s x Hn Hx.
  - destruct s; [intros [] | cbn [length] in Hn; lia].
  - destruct s as [|c r]; [intros []|].
    destruct (startswith (c :: r) [CR; LF]) eqn:E.
    + apply startswith_spec in E. destruct E as [r' E]. cbn [app] in E.
      injection E as -> ->. rewrite replace_crlf_hit.
      intros [Hc|[<-|Hi]]; [congruence | now left | right].
      apply IH; [cbn [length] in Hn; lia | exact Hx | exact Hi].
    + rewrite (replace_crlf_miss c r E). intros [<-|Hi]; [now left | right].
      apply IH; [cbn [length] in Hn; lia | exact Hx | exact Hi].
Qed.

(** C5, as the code has it.  [sanitize_text] normalises to NFKC with the
    Unicode database and then, in effect in one pass, turns each [\r\n]
    and each lone [\r] into one [\n], drops the control characters of
    ASCII except tab and newline, and leaves every other character where
    it is.  No control character of ASCII other than tab and newline is
    left; every other character, the control characters from U+0080 to
    U+009F among them, is in the result exactly when it is in the
    normalised text. *)
Theorem sanitize_text_correct (s : str) :
  sanitize_text s = sanitize_pass (nfkc s)
  /\ forallb (fun c => negb (ascii_control c) || (c =? TAB) || (c =? LF))
             (sanitize_text s) = true
  /\ forall c, ascii_control c = false ->
               (In c (sanitize_text s) <-> In c (nfkc s)).
Proof.
  assert (E : sanitize_text s = sanitize_pass (nfkc s)).
  { unfold sanitize_text. apply (sanitize_one_pass (length (nfkc s))). lia. }
  split; [exact E|]. split.
  - unfold sanitize_text. rewrite replace_cr. apply forallb_forall.
    intros c Hc. apply filter_In in Hc. destruct Hc as [Hin Hf].
    apply in_map_iff in Hin. destruct Hin as [d [Hd _]].
    assert (Hcr : c <> CR).
    { destruct (N.eqb_spec d CR); subst; [discriminate | assumption]. }
    rewrite (control_filter_spec c Hcr) in Hf.
    destruct (ascii_control c), (c =? TAB), (c =? LF); try reflexivity;
      discriminate.
  - intros c Hc.
    assert (Hcr : c <> CR) by (intros ->; discriminate Hc).
    assert (Hlf : c <> LF) by (intros ->; discriminate Hc).
    unfold sanitize_text. rewrite replace_cr, filter_In, in_map_iff. split.
    + intros [[d [Hd Hin]] _]. revert Hd.
      destruct (N.eqb_spec d CR) as [->|_]; [congruence|]. intros ->.
      apply (replace_crlf_incl (length (nfkc s)) _ _ (le_n _)) in Hin.
      destruct Hin as [Hin|Hin]; [exact Hin | congruence].
    + intros Hin. split.
      * exists c. split.
        -- destruct (N.eqb_spec c CR); [congruence | reflexivity].
        -- now apply (replace_crlf_keeps (length (nfkc s)) _ _ (le_n _)).
      * rewrite (control_filter_spec c Hcr), Hc. reflexivity.
Qed.

End Sanitize.

Section SanitizeRuns.
Local Open Scope N_scope.

(** C5 as stated fails: U+0085, next line, is a control character; NFKC
    leaves it as it is, and so does [sanitize_text]. *)
Lemma control_left : ~ controls_removed.
Proof.
  intros Hc. specialize (Hc ascii_db [0x85]). discriminate Hc.
Qed.

End SanitizeRuns.


(** ** Searching in strings *)

Section FindFacts.

Lemma startswith_length (s p : str) :
  startswith s p = true -> length p <= length s.
Proof.
  intros E. apply startswith_spec in E. destruct E as [r ->].
  rewrite length_app. lia.
Qed.

Lemma startswith_app_l (a r p : str) :
  startswith (a ++ r) p = true -> length p <= length a ->
  startswith a p = true.
Proof.
  revert a. induction p as [|c p IH]; intros a; [reflexivity|].
  destruct a as [|d a]; cbn [length]; [lia|].
  cbn [app startswith]. rewrite !andb_true_iff. intros [E1 E2] Hl.
  split; [exact E1 | apply IH; [exact E2 | lia]].
Qed.

Lemma startswith_app_r (a r p : str) :
  startswith a p = true -> startswith (a ++ r) p = true.
Proof.
  intros E. apply startswith_spec in E. destruct E as [x ->].
  rewrite <- app_assoc. apply startswith_app.
Qed.

Lemma find_unfold (s p : str) :
  find s p = if startswith s p then Some 0
             else match s with
                  | [] => None
                  | _ :: s' => option_map S (find s' p)
                  end.
Proof. destruct s; reflexivity. Qed.

Lemma find_bound (s p : str) :
  forall k, find s p = Some k ->
    k + length p <= length s /\ startswith (skipn k s) p = true.
Proof.
  induction s as [|c s IH]; intros k; rewrite find_unfold.
  - destruct (startswith [] p) eqn:E; [|discriminate].
    intros [= <-]. split; [apply startswith_length in E; simpl in *; lia | exact E].
  - destruct (startswith (c :: s) p) eqn:E.
    + intros [= <-]. split; [apply startswith_length in E; lia | exact E].
    + destruct (find s p) as [k'|] eqn:Ef; [|discriminate].
      intros [= <-]. destruct (IH k' eq_refl) as [H1 H2].
      split; [cbn [length]; lia | exact H2].
Qed.

(** The first occurrence stays the first when text is added behind. *)
Lemma find_app (x r p : str) :
  forall k, find x p = Some k -> find (x ++ r) p = Some k.
Proof.
  induction x as [|c x IH]; intros k; rewrite (find_unfold _ p).
  - destruct (startswith [] p) eqn:E; [|discriminate].
    intros [= <-]. rewrite find_unfold.
    now rewrite (startswith_app_r [] r p E).
  - destruct (startswith (c :: x) p) eqn:E.
    + intros [= <-]. rewrite find_unfold.
      now rewrite (startswith_app_r (c :: x) r p E).
    + destruct (find x p) as [k'|] eqn:Ef; [|discriminate].
      intros [= <-]. rewrite find_unfold.
      destruct (startswith ((c :: x) ++ r) p) eqn:E2.
      * apply startswith_app_l in E2; [congruence|].
        apply find_bound in Ef. cbn [length]. lia.
      * cbn [app]. now rewrite (IH k' eq_refl).
Qed.

(** The first occurrence is already the first in any prefix holding it. *)
Lemma find_prefix (x r p : str) :
  forall k, find (x ++ r) p = Some k -> k + length p <= length x ->
    find x p = Some k.
Proof.
  induction x as [|c x IH]; intros k; rewrite (find_unfold _ p).
  - cbn [app length]. intros Hf Hk. assert (k = 0) by lia. subst k.
    assert (p = []) by (destruct p; [reflexivity | simpl in Hk; lia]).
    subst p. reflexivity.
  - destruct (startswith ((c :: x) ++ r) p) eqn:E.
    + intros [= <-] Hk. rewrite find_unfold.
      now rewrite (startswith_app_l (c :: x) r p E Hk).
    + cbn [app]. destruct (find (x ++ r) p) as [k'|] eqn:Ef; [|discriminate].
      intros [= <-] Hk. rewrite find_unfold.
      destruct (startswith (c :: x) p) eqn:E2.
      * apply (startswith_app_r _ r) in E2. congruence.
      * cbn [length] in Hk. now rewrite (IH k' eq_refl ltac:(lia)).
Qed.

Lemma skipn_app_exact (A : Type) (a b : list A) :
  skipn (length a) (a ++ b) = b.
Proof. induction a; [reflexivity | assumption]. Qed.

Lemma firstn_app_exact (A : Type) (a b : list A) :
  firstn (length a) (a ++ b) = a.
Proof. induction a; [reflexivity | cbn; now f_equal]. Qed.

Lemma slice_middle (a b r : str) :
  slice (a ++ b ++ r) (length a) (length a + length b) = b.
Proof.
  unfold slice. rewrite skipn_app_exact.
  replace (length a + length b - length a) with (length b) by lia.
  apply firstn_app_exact.
Qed.

End FindFacts.

(** ** TextNormalizer: code spans *)

Section CodeSafe.
Context `{UnicodeDB}.

Lemma delimited_at_complete (open close c rest : str) :
  delimited open close c ->
  delimited_at open close (c ++ rest) = Some (length c).
Proof.
  intros [inner [-> Hf]]. unfold delimited_at.
  rewrite <- app_assoc, startswith_app, skipn_app_exact.
  rewrite <- app_assoc, (app_assoc inner close rest).
  rewrite (find_app _ rest _ _ Hf), !length_app. f_equal. lia.
Qed.

Lemma delimited_at_sound (open close t : str) (n : nat) :
  delimited_at open close t = Some n ->
  exists c rest, delimited open close c /\ t = c ++ rest /\ n = length c.
Proof.
  unfold delimited_at. destruct (startswith t open) eqn:Eo; [|discriminate].
  apply startswith_spec in Eo. destruct Eo as [t' ->].
  rewrite skipn_app_exact.
  destruct (find t' close) as [k|] eqn:Ef; [|discriminate]. intros [= <-].
  destruct (find_bound _ _ _ Ef) as [Hk Hs].
  apply startswith_spec in Hs. destruct Hs as [rest Hrest].
  assert (Ht' : t' = firstn k t' ++ close ++ rest).
  { rewrite <- Hrest. symmetry. apply firstn_skipn. }
  assert (Hlen : length (firstn k t') = k) by (rewrite length_firstn; lia).
  exists (open ++ firstn k t' ++ close), rest. split; [|split].
  - exists (firstn k t'). split; [reflexivity|]. rewrite Hlen.
    apply (find_prefix _ rest).
    + now rewrite <- app_assoc, <- Ht'.
    + rewrite length_app. lia.
  - rewrite <- !app_assoc. f_equal. exact Ht'.
  - rewrite !length_app. lia.
Qed.

Lemma code_match_at_span (c rest : str) :
  is_span c -> code_match_at (c ++ rest) = Some (length c).
Proof.
  intros [Hc|Hc]; unfold code_match_at.
  - now rewrite (delimited_at_complete _ _ _ rest Hc).
  - rewrite (delimited_at_complete _ _ _ rest Hc).
    destruct Hc as [inner [-> _]]. reflexivity.
Qed.

Lemma code_match_at_opens (t : str) (n : nat) :
  code_match_at t = Some n -> span_opens t.
Proof.
  unfold code_match_at.
  destruct (delimited_at FENCE FENCE t) as [m|] eqn:E1.
  - intros _. destruct (delimited_at_sound _ _ _ _ E1) as [c [rest [Hc [-> _]]]].
    exists c, rest. split; [now left | reflexivity].
  - intros E2. destruct (delimited_at_sound _ _ _ _ E2) as [c [rest [Hc [-> _]]]].
    exists c, rest. split; [now right | reflexivity].
Qed.

Lemma is_span_nonempty (c : str) : is_span c -> c <> [].
Proof. intros [[inner [-> _]]|[inner [-> _]]]; discriminate. Qed.

Lemma finditer_skip (x : str) :
  forall pos r, finditer (length x) pos (x ++ r) = finditer 0 (pos + length x) r.
Proof.
  induction x as [|c x IH]; intros pos r.
  - cbn [length app]. now rewrite Nat.add_0_r.
  - cbn [length app finditer]. rewrite IH. f_equal. lia.
Qed.

Lemma finditer_gap (g rest : str) :
  is_gap g rest ->
  forall pos, finditer 0 pos (g ++ rest) = finditer 0 (pos + length g) rest.
Proof.
  induction g as [|d g IH]; intros Hg pos.
  - cbn [length app]. now rewrite Nat.add_0_r.
  - cbn [app finditer].
    destruct (code_match_at (d :: g ++ rest)) as [n|] eqn:E.
    + exfalso. apply (Hg [] (d :: g) eq_refl); [discriminate|].
      exact (code_match_at_opens _ _ E).
    + rewrite IH.
      * cbn [length]. f_equal. lia.
      * intros a b -> Hb. apply (Hg (d :: a) b eq_refl Hb).
Qed.

Lemma finditer_span (c rest : str) :
  is_span c ->
  forall pos, finditer 0 pos (c ++ rest)
              = (pos, pos + length c) :: finditer 0 (pos + length c) rest.
Proof.
  intros Hc pos. pose proof (code_match_at_span c rest Hc) as Hm.
  destruct c as [|x c]; [now apply is_span_nonempty in Hc|].
  cbn [app finditer] in *. rewrite Hm. f_equal.
  cbn [length]. rewrite Nat.sub_succ, Nat.sub_0_r, finditer_skip. f_equal. lia.
Qed.

Lemma normalize_prose_nil : _normalize_prose [] = [].
Proof. reflexivity. Qed.

(** The loop writes the gaps normalised and the spans as they are. *)
Lemma code_safe_loop_rejoin (t : str) (segs : list segment) :
  decomposes t segs ->
  forall pfx out,
    concat (code_safe_loop (pfx ++ t) (finditer 0 (length pfx) t)
                           (length pfx) out)
    = concat out ++ rejoin segs.
Proof.
  induction 1 as [g Hg|g c rest segs Hg Hc Hd IH]; intros pfx out.
  - rewrite <- (app_nil_r g) at 2. rewrite (finditer_gap _ _ Hg).
    cbn [finditer code_safe_loop]. rewrite skipn_app_exact.
    unfold rejoin. cbn [flat_map]. rewrite app_nil_r.
    destruct g as [|d g]; [now rewrite normalize_prose_nil, app_nil_r|].
    rewrite concat_app. cbn [concat]. now rewrite app_nil_r.
  - rewrite (finditer_gap _ _ Hg), (finditer_span _ _ Hc).
    cbn [code_safe_loop].
    rewrite slice_middle.
    replace (pfx ++ g ++ c ++ rest) with ((pfx ++ g) ++ c ++ rest)
      by now rewrite <- app_assoc.
    rewrite <- (length_app pfx g), slice_middle.
    replace ((pfx ++ g) ++ c ++ rest) with (((pfx ++ g) ++ c) ++ rest)
      by now rewrite <- !app_assoc.
    rewrite <- (length_app (pfx ++ g) c), IH.
    unfold rejoin. cbn [flat_map]. fold (rejoin segs).
    destruct g as [|d g].
    + rewrite normalize_prose_nil, concat_app. cbn [concat app].
      now rewrite app_nil_r, <- app_assoc.
    + rewrite !concat_app. cbn [concat].
      now rewrite !app_nil_r, <- !app_assoc.
Qed.

Lemma span_opens_match (t : str) :
  span_opens t -> code_match_at t <> None.
Proof.
  intros [c [rest [Hc ->]]]. now rewrite (code_match_at_span _ _ Hc).
Qed.

Lemma is_gap_cons (d : N) (g rest : str) :
  code_match_at (d :: g ++ rest) = None ->
  is_gap g rest -> is_gap (d :: g) rest.
Proof.
  intros Hm Hg a b Hab Hb. destruct a as [|x a].
  - cbn [app] in Hab. subst b. intros Ho.
    now apply span_opens_match in Ho.
  - injection Hab as _ Hab. exact (Hg a b Hab Hb).
Qed.

Lemma empty_gap (rest : str) : is_gap [] rest.
Proof.
  intros a b Hab Hb. symmetry in Hab. apply app_eq_nil in Hab.
  destruct Hab as [_ ->]. exfalso. now apply Hb.
Qed.

(** A text is all prose, or prose up to a first span. *)
Lemma first_span (t : str) :
  is_gap t []
  \/ exists g c rest, t = g ++ c ++ rest /\ is_gap g (c ++ rest) /\ is_span c.
Proof.
  induction t as [|d t IH].
  - left. apply empty_gap.
  - destruct (code_match_at (d :: t)) as [n|] eqn:E.
    + right. destruct (code_match_at_opens _ _ E) as [c [rest [Hc Ht]]].
      exists [], c, rest. split; [exact Ht | split; [apply empty_gap | exact Hc]].
    + destruct IH as [Hg|[g [c [rest [-> [Hg Hc]]]]]].
      * left. apply is_gap_cons; [now rewrite app_nil_r | exact Hg].
      * right. exists (d :: g), c, rest.
        split; [reflexivity | split; [now apply is_gap_cons | exact Hc]].
Qed.

(** Every text reads as gaps and spans. *)
Lemma decomposes_total (n : nat) :
  forall t, length t <= n -> exists segs, decomposes t segs.
Proof.
  induction n as [|n IH]; intros t Hn.
  - destruct t; [|simpl in Hn; lia].
    exists [Gap []]. apply dec_tail, empty_gap.
  - destruct (first_span t) as [Hg|[g [c [rest [-> [Hg Hc]]]]]].
    + exists [Gap t]. now apply dec_tail.
    + destruct (IH rest) as [segs Hs].
      { rewrite !length_app in Hn. pose proof (is_span_nonempty _ Hc).
        destruct c; [congruence | simpl in Hn; lia]. }
      exists (Gap g :: Span c :: segs). now apply dec_span.
Qed.

(** C6, as the code has it.  The text is sanitised first, code spans
    included.  The sanitised text always reads as prose gaps and code
    spans, and it comes out as the gaps normalised as prose and the spans
    unchanged, in their order. *)
Theorem normalize_text_code_safe_rejoins (s : str) :
  (exists segs, decomposes (sanitize_text s) segs)
  /\ forall segs, decomposes (sanitize_text s) segs ->
                  normalize_text_code_safe s = rejoin segs.
Proof.
  split.
  - apply (decomposes_total (length (sanitize_text s))). lia.
  - intros segs Hd. unfold normalize_text_code_safe.
    exact (code_safe_loop_rejoin _ _ Hd [] []).
Qed.

End CodeSafe.

Section CodeSafeRuns.
Local Open Scope N_scope.

Lemma fence_span (inner : str) :
  find (inner ++ FENCE) FENCE = Some (length inner) ->
  is_span (FENCE ++ inner ++ FENCE).
Proof. intros Hf. left. now exists inner. Qed.

Lemma gap_check_sound (g rest : str) : gap_check g rest = true -> is_gap g rest.
Proof.
  induction g as [|d g IH]; [intros _; apply empty_gap|].
  cbn [gap_check]. destruct (code_match_at ((d :: g) ++ rest)) eqn:E;
    [discriminate|].
  intros Hg. apply is_gap_cons; [exact E | now apply IH].
Qed.

Lemma normalize_text_code_safe_rejoins_witness :
  normalize_text_code_safe (H := ascii_db)
    (U "a  b " ++ (FENCE ++ U "x  y" ++ FENCE) ++ U " c  d")
  = U "a b" ++ (FENCE ++ U "x  y" ++ FENCE) ++ U "c d".
Proof.
  change (U "a b" ++ (FENCE ++ U "x  y" ++ FENCE) ++ U "c d")
    with (rejoin [Gap (U "a  b "); Span (FENCE ++ U "x  y" ++ FENCE);
                  Gap (U " c  d")]).
  apply (proj2 (@normalize_text_code_safe_rejoins ascii_db
                  (U "a  b " ++ (FENCE ++ U "x  y" ++ FENCE) ++ U " c  d"))).
  change (sanitize_text (H := ascii_db)
            (U "a  b " ++ (FENCE ++ U "x  y" ++ FENCE) ++ U " c  d"))
    with (U "a  b " ++ (FENCE ++ U "x  y" ++ FENCE) ++ U " c  d").
  apply dec_span.
  - apply gap_check_sound. reflexivity.
  - apply fence_span. reflexivity.
  - apply dec_tail, gap_check_sound. reflexivity.
Defined.

(** C6 as worded fails: a carriage return inside a fenced block is
    turned into a newline. *)
Lemma code_spans_touched : ~ code_spans_untouched.
Proof.
  intros Hclaim.
  assert (Hd : decomposes (FENCE ++ [97; CR; 98] ++ FENCE)
                 [Gap []; Span (FENCE ++ [97; CR; 98] ++ FENCE); Gap []]).
  { apply (dec_span [] (FENCE ++ [97; CR; 98] ++ FENCE) []).
    - apply empty_gap.
    - apply fence_span. reflexivity.
    - apply dec_tail, empty_gap. }
  specialize (Hclaim ascii_db _ _ Hd). vm_compute in Hclaim. discriminate.
Qed.

End CodeSafeRuns.

(** ** Digests are sixty-four hexadecimal digits *)

Section DigestShape.
Local Open Scope N_scope.
Import SHA256.

Lemma round_length (st : list N) (kw : N * N) :
  length st = 8%nat -> length (round st kw) = 8%nat.
Proof.
  intros Hl. do 9 (destruct st as [|? st]; try discriminate). reflexivity.
Qed.

Lemma rounds_length (kws : list (N * N)) :
  forall st, length st = 8%nat -> length (fold_left round kws st) = 8%nat.
Proof.
  induction kws as [|kw kws IH]; intros st Hl; [exact Hl|].
  cbn [fold_left]. apply IH. now apply round_length.
Qed.

Lemma compress_length (h block : list N) :
  length h = 8%nat -> length (compress h block) = 8%nat.
Proof.
  intros Hl. unfold compress.
  rewrite length_map, length_combine, rounds_length, Hl by exact Hl.
  reflexivity.
Qed.

Lemma digest_words_length (msg : bytes) : length (digest_words msg) = 8%nat.
Proof.
  unfold digest_words. generalize (blocks (length (words (pad msg))) (words (pad msg))).
  assert (H0l : length H0 = 8%nat) by reflexivity. revert H0l.
  generalize H0. intros h Hh l. revert h Hh.
  induction l as [|b l IH]; intros h Hh; [exact Hh|].
  cbn [fold_left]. apply IH. now apply compress_length.
Qed.

Lemma hex_digit_lower (d : N) : d < 16 -> lower_hex (hex_digit d).
Proof.
  intros Hd. unfold hex_digit, lower_hex.
  destruct (N.ltb_spec d 10); lia.
Qed.

Lemma hex_of_word_shape (n : nat) (w : N) :
  length (hex_of_word n w) = n /\ Forall lower_hex (hex_of_word n w).
Proof.
  induction n as [|n [IH1 IH2]]; [split; [reflexivity | constructor]|].
  cbn [hex_of_word length]. split; [now rewrite IH1|].
  constructor; [|exact IH2]. apply hex_digit_lower.
  change 0xF with (N.ones 4). rewrite N.land_ones.
  apply N.mod_lt. discriminate.
Qed.

Lemma hexdigest_shape (msg : bytes) :
  length (hexdigest msg) = 64%nat /\ Forall lower_hex (hexdigest msg).
Proof.
  unfold hexdigest. pose proof (digest_words_length msg) as Hl.
  assert (Hw : forall ws,
             length (flat_map (hex_of_word 8) ws) = (8 * length ws)%nat
             /\ Forall lower_hex (flat_map (hex_of_word 8) ws)).
  { induction ws as [|x ws [IH1 IH2]]; [split; [reflexivity | constructor]|].
    cbn [flat_map]. destruct (hex_of_word_shape 8 x) as [H1 H2].
    split; [rewrite length_app, H1, IH1; cbn [length]; lia|].
    apply Forall_app. now split. }
  destruct (Hw (digest_words msg)) as [H1 H2]. rewrite Hl in H1.
  split; [exact H1 | exact H2].
Qed.

Lemma int_hex_go_digits (s : str) :
  Forall lower_hex s -> forall acc, exists v, int_hex_go acc s = Some v.
Proof.
  induction 1 as [|c s Hc _ IH]; intros acc; [now exists acc|].
  cbn [int_hex_go]. unfold hex_val.
  destruct Hc as [Hc|Hc].
  - destruct (N.leb_spec 48 c); [|lia]. destruct (N.leb_spec c 57); [|lia].
    apply IH.
  - destruct (N.leb_spec 48 c); [|lia]. destruct (N.leb_spec c 57); [lia|].
    destruct (N.leb_spec 97 c); [|lia]. destruct (N.leb_spec c 102); [|lia].
    apply IH.
Qed.

(** A short id is always produced from a hash that [stable_hash]
    returns. *)
Lemma generate_short_id_of_digest (msg : bytes) (id_prefix : str) (len : Z) :
  exists ds,
    IDManager.generate_short_id (U "sha256-" ++ hexdigest msg) id_prefix len
    = Ok (id_prefix ++ zfill ds len).
Proof.
  unfold IDManager.generate_short_id.
  destruct (hexdigest_shape msg) as [Hl Hh].
  set (hs := hexdigest msg) in *.
  change (after_dash (U "sha256-" ++ hs)) with (Ok (A := str) hs).
  cbn [bind try_except].
  assert (Hf : Forall lower_hex (firstn 12 hs)).
  { rewrite <- (firstn_skipn 12 hs) in Hh. now apply Forall_app in Hh. }
  destruct (int_hex_go_digits _ Hf 0) as [v Hv].
  assert (Hne : firstn 12 hs <> []).
  { intros E. apply (f_equal (@length N)) in E.
    rewrite length_firstn, Hl in E. discriminate. }
  unfold int_hex. destruct (firstn 12 hs) as [|c r] eqn:E12; [congruence|].
  rewrite Hv. cbn [bind].
  change (N.of_nat (length IDManager.ALPHABET)) with 36.
  destruct (int_to_base_n_digits v) as [ds [Hds _]].
  rewrite Hds. cbn [bind]. now exists ds.
Qed.

End DigestShape.

(** ** DocumentExtractor: one outcome per path *)

Section Outcomes.
Import Extract.
Context `{UnicodeDB}.
Variable w : World.

Lemma ends_lift (A : Type) (x : exn + A) : ends (lift x).
Proof. now destruct x. Qed.

Lemma ends_bind (A B : Type) (r : result A) (k : A -> result B) :
  ends r -> (forall a, ends (k a)) -> ends (bind r k).
Proof. destruct r; cbn; auto. Qed.

Lemma reraise_extraction (A : Type) (r : result A) :
  ends r -> extraction_result (reraise r).
Proof. now destruct r. Qed.

Create HintDb ends.
#[local] Hint Resolve ends_lift ends_bind : ends.

Lemma ends_html (html : str) : ends (_html_to_text_preserving_code w html).
Proof. unfold _html_to_text_preserving_code. apply ends_bind; auto with ends. now intros. Qed.

Lemma ends_epub_parts (items : list (str * str)) : ends (epub_parts w items).
Proof.
  induction items as [|[name body] items IH]; [exact I|].
  cbn [epub_parts]. destruct (endswith _ _); [exact IH|].
  apply ends_bind; [apply ends_html|]. intros t.
  apply ends_bind; [exact IH|]. now intros.
Qed.

Lemma ends_mobi_parts (files : list (str * (exn + str))) :
  ends (mobi_parts w files).
Proof.
  induction files as [|[name content] files IH]; [exact I|].
  cbn [mobi_parts]. destruct (_ || _)%bool; [|exact IH].
  apply ends_bind; [apply ends_lift|]. intros html.
  apply ends_bind; [apply ends_html|]. intros t.
  apply ends_bind; [exact IH|]. now intros.
Qed.

(** Whatever the libraries and the file system do, an extractor returns
    text or raises an [ExtractionError]. *)
Lemma run_extractor_result (e : extractor) (file_path : str) :
  extraction_result (run_extractor w e file_path).
Proof.
  destruct e; cbn [run_extractor]; apply reraise_extraction.
  - unfold extract_text_from_txt. apply ends_bind.
    + destruct (read_utf8 w file_path) as [[]|]; try exact I; apply ends_lift.
    + intros raw. now destruct (blank _).
  - apply ends_bind; [apply ends_lift|]. intros pages.
    now destruct (normalize_text_code_safe _).
  - apply ends_bind; [apply ends_lift|]. intros items.
    apply ends_bind; [apply ends_epub_parts|]. intros parts. now destruct parts.
  - apply ends_bind; [apply ends_lift|]. intros files.
    apply ends_bind; [apply ends_mobi_parts|]. intros parts. now destruct parts.
Qed.

End Outcomes.

(** ** Sorting puts neighbours in order *)

Section SortedFacts.
Variable A : Type.
Variable leb : A -> A -> bool.
Hypothesis leb_total : forall a b, leb a b = false -> leb b a = true.

Let le (a b : A) : Prop := leb a b = true.

Lemma insert_sorted_Sorted (x : A) (l : list A) :
  Sorted le l -> Sorted le (insert_sorted leb x l).
Proof.
  induction 1 as [|y l Hs IH Hd]; cbn [insert_sorted].
  - repeat constructor.
  - destruct (leb y x) eqn:E.
    + constructor; [exact IH|].
      destruct l as [|z l]; cbn [insert_sorted].
      * constructor. exact E.
      * destruct (leb z x); constructor; [now inversion Hd | exact E].
    + constructor; [now constructor|]. constructor. now apply leb_total.
Qed.

Lemma sorted_Sorted (l : list A) : Sorted le (sorted leb l).
Proof.
  unfold sorted.
  assert (H : forall acc, Sorted le acc ->
                Sorted le (fold_left (fun a x => insert_sorted leb x a) l acc)).
  { induction l as [|x l IH]; intros acc Hacc; [exact Hacc|].
    cbn [fold_left]. apply IH. now apply insert_sorted_Sorted. }
  apply H. constructor.
Qed.

End SortedFacts.

Lemma str_leb_total (a b : str) : str_leb a b = false -> str_leb b a = true.
Proof.
  revert b. induction a as [|c a IH]; intros b; [discriminate|].
  destruct b as [|d b]; [reflexivity|]. cbn [str_leb].
  destruct (N.ltb_spec c d), (N.ltb_spec d c), (N.eqb_spec c d),
    (N.eqb_spec d c); cbn; try lia; try discriminate; try reflexivity.
  apply IH.
Qed.

Lemma str_leb_trans (a b c : str) :
  str_leb a b = true -> str_leb b c = true -> str_leb a c = true.
Proof.
  revert b c. induction a as [|x a IH]; intros b c; [reflexivity|].
  destruct b as [|y b]; [discriminate|]. destruct c as [|z c]; [discriminate|].
  cbn [str_leb]. rewrite !orb_true_iff, !andb_true_iff.
  rewrite !N.ltb_lt, !N.eqb_eq.
  intros [Hxy|[Hxy Hab]] [Hyz|[Hyz Hbc]]; try (left; lia).
  right. split; [lia | now apply (IH b c)].
Qed.

(** ** ReferenceIndexer *)

Section Dictionary.
Variable V : Type.



Lemma lookup_None_keys (d : list (str * V)) (k : str) :
  lookup d k = None -> ~ In k (map fst d).
Proof.
  induction d as [|[k0 v0] d IH]; cbn [lookup map fst In]; [tauto|].
  destruct (str_eqb k0 k) eqn:E; [discriminate|].
  intros Hl [->|Hin]; [now rewrite str_eqb_refl in E | now apply IH].
Qed.


End Dictionary.

Section ReferenceSheet.
Import RefIndex.
Context `{UnicodeDB}.








End ReferenceSheet.

Section ReferenceSheetRuns.
Import RefIndex.


End ReferenceSheetRuns.

(** * Further properties *)

(** ** ContentIDGenerator: digits and their value *)

Section BaseDigits.
Local Open Scope N_scope.
Import IDManager.

Lemma alphabet_at_index (i c : N) :
  alphabet_at i = Ok c -> i < 36 /\ alphabet_index c = i /\ RefIndex.id_char c = true.
Proof.
  unfold alphabet_at.
  destruct (nth_error ALPHABET (N.to_nat i)) as [d|] eqn:E; [|discriminate].
  intros [= ->].
  assert (Hlt : (N.to_nat i < length ALPHABET)%nat).
  { apply nth_error_Some. rewrite E. discriminate. }
  change (length ALPHABET) with 36%nat in Hlt.
  rewrite <- (Nnat.N2Nat.id i). remember (N.to_nat i) as k eqn:Ek. clear Ek i.
  do 36 (destruct k as [|k];
         [injection E as <-; vm_compute; repeat split; reflexivity|]).
  lia.
Qed.

Lemma alphabet_at_total (i : N) : i < 36 -> exists c, alphabet_at i = Ok c.
Proof.
  intros Hi. unfold alphabet_at.
  destruct (nth_error ALPHABET (N.to_nat i)) as [c|] eqn:E; [now exists c|].
  apply nth_error_None in E. simpl in E. lia.
Qed.

Lemma base_n_value_rev (base : N) (ds : str) :
  base_n_value base (rev ds) = le_value base ds.
Proof.
  unfold base_n_value, le_value. rewrite <- fold_left_rev_right, rev_involutive.
  induction ds as [|c ds IH]; [reflexivity|]. cbn [fold_right]. rewrite IH. lia.
Qed.

Lemma base_n_loop_value (base : N) (fuel : nat) :
  2 <= base <= 36 ->
  forall n s, n < 2 ^ N.of_nat fuel ->
    exists ds, base_n_loop (S fuel) n base s = Ok (s ++ ds)
               /\ le_value base ds = n
               /\ Forall (fun c => RefIndex.id_char c = true) ds
               /\ (n <> 0 -> exists r c, ds = r ++ [c] /\ c <> 48).
Proof.
  intros Hb. induction fuel as [|f IH]; intros n s Hn.
  - simpl in Hn. assert (n = 0) by lia. subst. exists [].
    rewrite app_nil_r. repeat split; [constructor | congruence].
  - remember (S f) as f1 eqn:Ef1. cbn [base_n_loop]. subst f1.
    destruct (N.eqb_spec n 0) as [->|Hnz].
    + exists []. rewrite app_nil_r. repeat split; [constructor | congruence].
    + destruct (N.eqb_spec base 0) as [->|_]; [lia|].
      destruct (alphabet_at_total (n mod base)) as [c Hc].
      { pose proof (N.mod_lt n base ltac:(lia)). lia. }
      rewrite Hc. cbn [bind].
      destruct (alphabet_at_index _ _ Hc) as [_ [Hidx Hid]].
      pose proof (N.div_mod n base ltac:(lia)) as Hdm.
      pose proof (N.mod_lt n base ltac:(lia)) as Hm.
      assert (Hq : n / base < 2 ^ N.of_nat f).
      { rewrite Nnat.Nat2N.inj_succ, N.pow_succ_r' in Hn.
        apply N.Div0.div_lt_upper_bound.
        set (Y := 2 ^ N.of_nat f) in *. clearbody Y. nia. }
      destruct (IH (n / base) (s ++ [c]) Hq) as [ds [H1 [H2 [H3 H4]]]].
      exists (c :: ds). rewrite H1, <- app_assoc. split; [reflexivity|].
      split; [cbn [le_value fold_right]; fold (le_value base ds);
              rewrite H2, Hidx; lia|].
      split; [now constructor|]. intros _.
      destruct (N.eqb_spec (n / base) 0) as [Hz|Hnzq].
      * exists [], c. assert (ds = []) as ->.
        { rewrite Hz in H1. cbn [base_n_loop] in H1.
          change (0 =? 0) with true in H1. cbv iota in H1.
          injection H1 as H1. rewrite <- (app_nil_r (s ++ [c])) in H1 at 1.
          now apply app_inv_head in H1. }
        split; [reflexivity|]. intros ->.
        change (alphabet_index 48) with 0 in Hidx.
        rewrite Hz in Hdm. lia.
      * destruct (H4 Hnzq) as [r [d [-> Hd]]].
        exists (c :: r), d. split; [reflexivity | exact Hd].
Qed.

Lemma int_to_base_n_spec (n base : N) :
  2 <= base <= 36 ->
  exists ds,
    _int_to_base_n n base = Ok ds
    /\ base_n_value base ds = n
    /\ Forall (fun c => RefIndex.id_char c = true) ds
    /\ exists c r, ds = c :: r /\ (n <> 0 -> c <> 48).
Proof.
  intros Hb. unfold _int_to_base_n. destruct (N.eqb_spec n 0) as [->|Hnz].
  - exists [48]. split; [reflexivity|].
    split; [unfold base_n_value; cbn [fold_left];
            change (alphabet_index 48) with 0; lia|].
    split; [repeat constructor|]. exists 48, []. split; [reflexivity | congruence].
  - destruct (base_n_loop_value base (S (N.to_nat (N.log2 n))) Hb n [])
      as [ds [H1 [H2 [H3 H4]]]].
    { rewrite !Nnat.Nat2N.inj_succ, Nnat.N2Nat.id.
      pose proof (N.log2_spec n ltac:(lia)) as [_ Hl]. exact Hl. }
    rewrite H1. cbn [bind app]. exists (rev ds).
    split; [reflexivity|]. split; [now rewrite base_n_value_rev|].
    split; [now apply Forall_rev|].
    destruct (H4 Hnz) as [r [c [-> Hc]]].
    exists c, (rev r). rewrite rev_app_distr. split; [reflexivity | now intros _].
Qed.

(** X1. For a base from 2 to 36 [_int_to_base_n] returns, for every
    [n >= 0], symbols of the alphabet that read back as [n] in that base,
    at least one, the first of them not the zero symbol unless [n] is 0. *)
Theorem int_to_base_n_round_trip (n base : N) :
  2 <= base <= 36 ->
  exists ds,
    _int_to_base_n n base = Ok ds
    /\ base_n_value base ds = n
    /\ Forall (fun c => RefIndex.id_char c = true) ds
    /\ exists c r, ds = c :: r /\ (n <> 0 -> c <> 48).
Proof. exact (int_to_base_n_spec n base). Qed.

Lemma int_to_base_n_round_trip_witness :
  exists ds,
    _int_to_base_n 1295 36 = Ok ds
    /\ base_n_value 36 ds = 1295
    /\ Forall (fun c => RefIndex.id_char c = true) ds
    /\ exists c r, ds = c :: r /\ (1295 <> 0 -> c <> 48).
Proof. apply (int_to_base_n_round_trip 1295 36). lia. Defined.

Lemma base_n_loop_base_one (fuel : nat) :
  forall n s, n <> 0 -> base_n_loop fuel n 1 s = Diverge.
Proof.
  induction fuel as [|f IH]; intros n s Hn; [reflexivity|].
  cbn [base_n_loop]. apply N.eqb_neq in Hn. rewrite Hn.
  change (1 =? 0) with false. cbv iota. rewrite N.mod_1_r.
  change (alphabet_at 0) with (Ok (A := N) 48). cbn [bind].
  rewrite N.div_1_r. apply IH. now apply N.eqb_neq.
Qed.

(** X2. The edges of [_int_to_base_n]: 0 is the zero symbol in any base;
    for [n > 0] base 0 raises [ZeroDivisionError], and in base 1 the loop
    never ends, however long it runs. *)
Theorem int_to_base_n_edges (n base : N) (s : str) :
  _int_to_base_n 0 base = Ok [48]
  /\ (n <> 0 ->
      _int_to_base_n n 0
      = Raise (ZeroDivisionError (U "integer modulo by zero"))
      /\ (forall fuel, base_n_loop fuel n 1 s = Diverge)
      /\ _int_to_base_n n 1 = Diverge).
Proof.
  split; [reflexivity|]. intros Hn. split; [|split].
  - unfold _int_to_base_n. apply N.eqb_neq in Hn. rewrite Hn.
    cbn [base_n_loop]. now rewrite Hn.
  - intros fuel. now apply base_n_loop_base_one.
  - unfold _int_to_base_n. pose proof Hn as Hn'. apply N.eqb_neq in Hn'.
    rewrite Hn'. now rewrite base_n_loop_base_one.
Qed.

Lemma int_to_base_n_edges_witness :
  _int_to_base_n 7 0 = Raise (ZeroDivisionError (U "integer modulo by zero"))
  /\ (forall fuel, base_n_loop fuel 7 1 [] = Diverge)
  /\ _int_to_base_n 7 1 = Diverge.
Proof. apply (proj2 (int_to_base_n_edges 7 36 [])). discriminate. Defined.

Lemma base_n_value_zeros (base : N) (k : nat) (s : str) :
  base_n_value base (repeat 48 k ++ s) = base_n_value base s.
Proof.
  unfold base_n_value. rewrite fold_left_app. f_equal.
  induction k as [|k IH]; [reflexivity|]. cbn [repeat fold_left].
  change (alphabet_index 48) with 0.
  replace (base * 0 + 0) with 0 by lia. exact IH.
Qed.

(** What [generate_short_id] returns for a hash with a dash and twelve
    hexadecimal digits after it. *)
Lemma generate_short_id_form (content_hash r id_prefix : str) (len : Z) (v : N) :
  after_dash content_hash = Ok r ->
  int_hex (firstn 12 r) = Ok v ->
  exists ds,
    _int_to_base_n v 36 = Ok ds
    /\ base_n_value 36 ds = v
    /\ Forall (fun c => RefIndex.id_char c = true) ds
    /\ generate_short_id content_hash id_prefix len
       = Ok (id_prefix ++ repeat 48 (Z.to_nat len - length ds) ++ ds).
Proof.
  intros Hr Hv.
  destruct (int_to_base_n_spec v 36 ltac:(lia)) as [ds [Hds [Hval [Hid _]]]].
  exists ds. repeat split; try assumption.
  unfold generate_short_id. rewrite Hr. cbn [bind try_except].
  rewrite Hv. cbn [bind]. change (N.of_nat (length ALPHABET)) with 36.
  rewrite Hds. cbn [bind]. now rewrite (zfill_digits _ _ _ _ Hds).
Qed.

(** X3. Two hashes get the same short id, for a given prefix and length,
    exactly when their first twelve hexadecimal digits are the same
    number: nothing but the cut to twelve digits is lost. *)
Theorem generate_short_id_collides_iff
        (h1 h2 r1 r2 id_prefix : str) (len : Z) (v1 v2 : N) :
  after_dash h1 = Ok r1 -> int_hex (firstn 12 r1) = Ok v1 ->
  after_dash h2 = Ok r2 -> int_hex (firstn 12 r2) = Ok v2 ->
  generate_short_id h1 id_prefix len = generate_short_id h2 id_prefix len
  <-> v1 = v2.
Proof.
  intros Hr1 Hv1 Hr2 Hv2.
  destruct (generate_short_id_form h1 r1 id_prefix len v1 Hr1 Hv1)
    as [ds1 [Hd1 [Hval1 [_ Hg1]]]].
  destruct (generate_short_id_form h2 r2 id_prefix len v2 Hr2 Hv2)
    as [ds2 [Hd2 [Hval2 [_ Hg2]]]].
  rewrite Hg1, Hg2. split.
  - intros [= E]. apply app_inv_head in E.
    apply (f_equal (base_n_value 36)) in E.
    rewrite !base_n_value_zeros in E. congruence.
  - intros <-. rewrite Hd1 in Hd2. injection Hd2 as <-. reflexivity.
Qed.

Lemma generate_short_id_collides_iff_witness :
  generate_short_id (U "sha256-0000000000ffaaaa") (U "DOC") 6
  = generate_short_id (U "x-0000000000FFbbbb") (U "DOC") 6
  <-> 255 = 255.
Proof.
  apply (generate_short_id_collides_iff
           (U "sha256-0000000000ffaaaa") (U "x-0000000000FFbbbb")
           (U "0000000000ffaaaa") (U "0000000000FFbbbb") (U "DOC") 6%Z 255 255);
    reflexivity.
Defined.

Lemma docid_prefix_chars (answer : option str) :
  docid_prefix answer <> []
  /\ Forall (fun c => RefIndex.id_char c = true) (docid_prefix answer).
Proof.
  assert (HDOC : U "DOC" <> []
                 /\ Forall (fun c => RefIndex.id_char c = true) (U "DOC")).
  { split; [discriminate | repeat constructor]. }
  unfold docid_prefix. destruct answer as [[|c p]|]; try exact HDOC.
  destruct (map ascii_to_upper (filter ascii_alnum (c :: p))) as [|d q] eqn:E;
    [exact HDOC|].
  split; [discriminate|]. rewrite <- E. apply Forall_forall.
  intros x Hx. apply in_map_iff in Hx. destruct Hx as [y [<- Hy]].
  apply filter_In in Hy. destruct Hy as [_ Hy].
  unfold ascii_alnum, ascii_to_upper, ascii_upper, ascii_lower, ascii_digit,
    RefIndex.id_char in *.
  repeat match goal with
         | |- context [?a <=? ?b] => destruct (N.leb_spec a b)
         | H : context [?a <=? ?b] |- _ => destruct (N.leb_spec a b)
         end; cbn in *; try reflexivity; try discriminate; lia.
Qed.

Lemma docid_parts (answer : option str) (msg : bytes) :
  exists rest,
    generate_short_id (U "sha256-" ++ SHA256.hexdigest msg)
                      (docid_prefix answer) 6
    = Ok (docid_prefix answer ++ rest)
    /\ docid_prefix answer <> []
    /\ (6 <= length rest)%nat
    /\ forallb RefIndex.id_char (docid_prefix answer ++ rest) = true.
Proof.
  destruct (hexdigest_shape msg) as [Hl Hh].
  set (hs := SHA256.hexdigest msg) in *.
  assert (Hf : Forall lower_hex (firstn 12 hs)).
  { rewrite <- (firstn_skipn 12 hs) in Hh. now apply Forall_app in Hh. }
  destruct (int_hex_go_digits _ Hf 0) as [v Hv].
  assert (Hi : int_hex (firstn 12 hs) = Ok v).
  { unfold int_hex. destruct (firstn 12 hs) as [|c r] eqn:E12.
    - apply (f_equal (@length N)) in E12. rewrite length_firstn, Hl in E12.
      discriminate.
    - now rewrite Hv. }
  destruct (generate_short_id_form (U "sha256-" ++ hs) hs
              (docid_prefix answer) 6 v eq_refl Hi) as [ds [_ [_ [Hid Hg]]]].
  destruct (docid_prefix_chars answer) as [Hne Hp].
  exists (repeat 48 (Z.to_nat 6 - length ds) ++ ds).
  split; [exact Hg|]. split; [exact Hne|]. split.
  - rewrite length_app, repeat_length. change (Z.to_nat 6) with 6%nat. lia.
  - apply forallb_forall. apply Forall_forall.
    apply Forall_app. split; [exact Hp|]. apply Forall_app. split; [|exact Hid].
    apply Forall_forall. intros c Hc. apply repeat_spec in Hc. now subst.
Qed.

(** X4. Whatever is answered for the prefix, and whatever content without
    a lone surrogate is hashed, the DocID is issued, begins with the
    non-empty prefix, holds nothing but capital letters and digits, and
    has at least six characters after the prefix.  Content with a lone
    surrogate cannot be hashed: [stable_hash] raises
    [UnicodeEncodeError] and no DocID is issued. *)
Theorem docid_shape (answer : option str) (content : str) :
  (forallb scalar content = true ->
   exists h rest,
     stable_hash content = Ok h
     /\ generate_short_id h (docid_prefix answer) 6
        = Ok (docid_prefix answer ++ rest)
     /\ docid_prefix answer <> []
     /\ (6 <= length rest)%nat
     /\ forallb RefIndex.id_char (docid_prefix answer ++ rest) = true)
  /\ (forallb scalar content = false ->
      stable_hash content
      = Raise (OtherException (U "UnicodeEncodeError")
                              (U "surrogates not allowed"))).
Proof.
  unfold stable_hash, encode_utf8_strict. split; intros Hs; rewrite Hs.
  - destruct (docid_parts answer (encode_utf8 content)) as [rest Hrest].
    eexists. exists rest. split; [reflexivity | exact Hrest].
  - reflexivity.
Qed.

End BaseDigits.

(** ** IgnoreMatcher: what is collected *)

Section Collected.

Lemma should_ignore_app (p : path) (a b : list str) :
  should_ignore p (a ++ b) = should_ignore p a || should_ignore p b.
Proof.
  induction a as [|pat a IH]; [reflexivity|].
  cbn [app should_ignore]. rewrite IH.
  destruct (endswith _ _);
    match goal with
    | |- (if ?c then true else _) = _ => destruct c
    end; reflexivity.
Qed.

Lemma descend_child_none (patterns : list str) (rel : list str) (d : str)
      (children : list node) :
  child_dir d children = None ->
  (fix descend (l : list node) : list (list str) :=
     match l with
     | [] => []
     | c :: l' =>
       if is_dir c && str_eqb (node_name c) d
       then walk patterns (rel ++ [d]) c
       else descend l'
     end) children = [].
Proof.
  induction children as [|x l IH]; [reflexivity|].
  cbn [child_dir]. destruct x as [f|n ch]; cbn [is_dir node_name andb].
  - exact IH.
  - destruct (str_eqb n d); [discriminate | exact IH].
Qed.

Lemma file_names_In (f : str) (children : list node) :
  In f (map node_name (filter (fun c => negb (is_dir c)) children))
  <-> In (File f) children.
Proof.
  rewrite in_map_iff. split.
  - intros [c [<- Hc]]. apply filter_In in Hc. destruct Hc as [Hc Hd].
    destruct c; [exact Hc | discriminate].
  - intros Hf. exists (File f). split; [reflexivity|].
    apply filter_In. now split.
Qed.

Lemma has_file_cons (d x : str) (rest : list str) (name : str)
      (children : list node) :
  has_file (d :: x :: rest) (Dir name children)
  = match child_dir d children with
    | Some c => has_file (x :: rest) c
    | None => False
    end.
Proof. reflexivity. Qed.

Lemma visible_cons (patterns : list str) (rel : list str) (d x : str)
      (rest : list str) :
  visible patterns rel (d :: x :: rest)
  = negb (should_ignore {| comps := rel ++ [d]; p_is_dir := true |} patterns)
    && visible patterns (rel ++ [d]) (x :: rest).
Proof. reflexivity. Qed.

Lemma has_file_nonempty (q : list str) (n : node) : has_file q n -> q <> [].
Proof. destruct q; [intros [] | discriminate]. Qed.

(** What [walk] collects below a directory, one way. *)
Lemma walk_sound (patterns : list str) (n : node) :
  forall rel p, In p (walk patterns rel n) ->
    exists q, p = rel ++ q /\ has_file q n /\ visible patterns rel q = true.
Proof.
  induction n as [name|name children IH] using node_ind;
    intros rel p; cbn [walk]; [intros []|].
  rewrite in_app_iff, in_map_iff, in_flat_map.
  intros [[f [<- Hf]]|[d [Hd Hp]]].
  - apply filter_In in Hf. destruct Hf as [Hin Hk].
    apply sorted_In, file_names_In in Hin.
    exists [f]. split; [reflexivity|]. split; [exact Hin | exact Hk].
  - apply sorted_In, filter_In in Hd. destruct Hd as [_ Hk].
    destruct (child_dir d children) as [c|] eqn:Ec.
    + rewrite (descend_child _ _ _ _ _ Ec) in Hp.
      apply child_dir_In in Ec as Hc. destruct Hc as [Hc _].
      rewrite Forall_forall in IH.
      destruct (IH c Hc _ _ Hp) as [q [-> [Hq Hv]]].
      exists (d :: q). split; [now rewrite <- app_assoc|].
      pose proof (has_file_nonempty _ _ Hq) as Hne.
      destruct q as [|x q]; [congruence|].
      rewrite has_file_cons, Ec. split; [exact Hq|].
      now rewrite visible_cons, Hk, Hv.
    + rewrite (descend_child_none _ _ _ _ Ec) in Hp. destruct Hp.
Qed.

(** And the other way. *)
Lemma walk_complete (patterns : list str) (q : list str) :
  forall rel n, has_file q n -> visible patterns rel q = true ->
    In (rel ++ q) (walk patterns rel n).
Proof.
  induction q as [|d q IH]; intros rel n Hf Hv; [destruct Hf|].
  destruct n as [f|name children]; [destruct q; destruct Hf|].
  destruct q as [|x q].
  - cbn [has_file] in Hf. cbn [visible] in Hv. cbn [walk].
    apply in_or_app. left. apply in_map_iff. exists d.
    split; [reflexivity|]. apply filter_In.
    split; [|exact Hv]. apply sorted_In. now apply file_names_In.
  - rewrite has_file_cons in Hf.
    destruct (child_dir d children) as [c|] eqn:Ec; [|destruct Hf].
    rewrite visible_cons in Hv. apply andb_true_iff in Hv.
    destruct Hv as [Hk Hv]. cbn [walk]. apply in_or_app. right. apply in_flat_map.
    exists d. split.
    + apply sorted_In, filter_In. split; [|exact Hk].
      apply child_dir_In in Ec. destruct Ec as [Hin [Hd Hname]].
      rewrite <- Hname. apply in_map. apply filter_In. now split.
    + rewrite (descend_child _ _ _ _ _ Ec).
      replace (rel ++ d :: x :: q) with ((rel ++ [d]) ++ x :: q)
        by now rewrite <- app_assoc.
      now apply IH.
Qed.

(** X5. [iter_files] collects exactly the regular files of the tree that
    no rule hides and that lie under no hidden directory: a directory
    that is ignored contributes nothing, whatever it holds. *)
Theorem iter_files_collects (root : node) (patterns : list str) (p : list str) :
  In p (iter_files root patterns)
  <-> has_file p root /\ visible patterns [] p = true.
Proof.
  unfold iter_files. split.
  - intros H. apply walk_sound in H. destruct H as [q [Hq H]].
    cbn [app] in Hq. now subst q.
  - intros [Hf Hv]. exact (walk_complete patterns p [] root Hf Hv).
Qed.

Lemma visible_app (a b : list str) (q : list str) :
  forall rel, visible (a ++ b) rel q = true -> visible a rel q = true.
Proof.
  induction q as [|d q IH]; intros rel; [discriminate|].
  destruct q as [|x q].
  - cbn [visible]. rewrite should_ignore_app.
    destruct (should_ignore _ a); [discriminate | reflexivity].
  - rewrite !visible_cons, should_ignore_app.
    destruct (should_ignore _ a); [discriminate|]. cbn [negb orb andb].
    intros H. apply andb_true_iff in H. destruct H as [_ H]. now apply IH.
Qed.

(** X6. More rules never bring a file in: what is collected under the
    defaults and further rules is collected under the defaults alone.
    No rule can take back what another one hides. *)
Theorem more_rules_collect_less
        (root : node) (patterns more : list str) (p : list str) :
  In p (iter_files root (patterns ++ more)) -> In p (iter_files root patterns).
Proof.
  unfold iter_files. intros H. apply walk_sound in H.
  destruct H as [q [Hq [Hf Hv]]]. cbn [app] in Hq. subst q.
  apply (walk_complete patterns p [] root Hf). now apply (visible_app _ more).
Qed.

End Collected.

Section CollectedRuns.

Lemma more_rules_collect_less_witness :
  In [U "buildup"; U "z.txt"]
     (iter_files
        (Dir (U "root") [Dir (U "buildup") [File (U "z.txt")]; File (U "a.log")])
        [U "build/"]).
Proof.
  apply (more_rules_collect_less _ [U "build/"] [U "*.log"]).
  vm_compute. now left.
Defined.

End CollectedRuns.

(** ** IgnoreMatcher: literal rules and suffix rules *)

Section LiteralRules.
Local Open Scope N_scope.
Import Fnmatch.

Lemma replace_single (s : str) (a b : N) :
  replace s [a] [b] = map (fun c => if c =? a then b else c) s.
Proof.
  unfold replace. induction s as [|c r IH]; [reflexivity|].
  cbn [replace_go startswith map length Nat.sub app].
  rewrite andb_true_r, N.eqb_sym.
  destruct (c =? a); now rewrite IH.
Qed.

Lemma replace_absent (s : str) (a b : N) :
  ~ In a s -> replace s [a] [b] = s.
Proof.
  intros Ha. rewrite replace_single. rewrite <- (map_id s) at 2.
  apply map_ext_in. intros c Hc.
  destruct (N.eqb_spec c a) as [->|_]; [contradiction | reflexivity].
Qed.

Lemma parse_literal (pat : str) :
  glob_literal pat = true -> parse 0 pat = map TLit pat.
Proof.
  induction pat as [|c pat IH]; [reflexivity|].
  cbn [glob_literal forallb]. rewrite andb_true_iff, negb_true_iff, !orb_false_iff.
  intros [[[H1 H2] H3] Hp]. cbn [parse map]. rewrite H1, H2, H3.
  f_equal. now apply IH.
Qed.

Lemma matches_literal_iff (lit : str) :
  forall s, matches (map TLit lit) s = true <-> s = lit.
Proof.
  induction lit as [|c lit IH]; intros s.
  - destruct s; cbn; split; congruence.
  - destruct s as [|d s]; [cbn; split; congruence|]. cbn [map matches].
    rewrite andb_true_iff, N.eqb_eq, IH. split.
    + now intros [-> ->].
    + now intros [= -> ->].
Qed.

Lemma matches_literal (lit s : str) :
  matches (map TLit lit) s = str_eqb s lit.
Proof.
  destruct (str_eqb s lit) eqn:E.
  - apply matches_literal_iff. now apply str_eqb_eq.
  - destruct (matches (map TLit lit) s) eqn:M; [|reflexivity].
    apply matches_literal_iff in M. subst s. now rewrite str_eqb_refl in E.
Qed.

Lemma fnmatch_literal (name pat : str) :
  glob_literal pat = true -> fnmatch name pat = str_eqb name pat.
Proof. intros Hp. unfold fnmatch. rewrite (parse_literal _ Hp). apply matches_literal. Qed.

Lemma endswith_app (a b : str) : endswith (a ++ b) b = true.
Proof. unfold endswith. rewrite rev_app_distr. apply startswith_app. Qed.

Lemma endswith_spec (s p : str) :
  endswith s p = true <-> exists a, s = a ++ p.
Proof.
  unfold endswith. rewrite startswith_spec. split.
  - intros [r Hr]. exists (rev r).
    rewrite <- (rev_involutive s), Hr, rev_app_distr. now rewrite rev_involutive.
  - intros [a ->]. exists (rev a). apply rev_app_distr.
Qed.

Lemma should_ignore_In (p : path) (pat : str) (patterns : list str) :
  In pat patterns -> should_ignore p [pat] = true ->
  should_ignore p patterns = true.
Proof.
  intros Hin Hp. apply in_split in Hin. destruct Hin as [a [b ->]].
  change (pat :: b) with ([pat] ++ b). rewrite !should_ignore_app, Hp.
  apply orb_true_r.
Qed.

(** An entry called [name] is hidden by the rule [name] and by the rule
    [name/]. *)
Lemma literal_rule_hides (rel : list str) (name : str) (d : bool)
      (patterns : list str) :
  glob_literal name = true -> ~ In 92 name -> endswith name (U "/") = false ->
  In name patterns \/ In (name ++ U "/") patterns ->
  should_ignore {| comps := rel ++ [name]; p_is_dir := d |} patterns = true.
Proof.
  intros Hlit Hbs Hsl [Hin|Hin];
    apply (should_ignore_In _ _ _ Hin); cbn [should_ignore];
    rewrite path_name_last;
    change (U "\") with [92]; change (U "/") with [47] in *.
  - rewrite (replace_absent name 92 47 Hbs).
    rewrite Hsl, (fnmatch_literal _ _ Hlit), str_eqb_refl. reflexivity.
  - rewrite replace_absent.
    2:{ rewrite in_app_iff. intros [H|[H|[]]]; [contradiction | discriminate]. }
    rewrite endswith_app, fnmatch_literal, str_eqb_refl; [reflexivity|].
    unfold glob_literal in *. rewrite forallb_app, Hlit. reflexivity.
Qed.

Lemma visible_components (patterns : list str) (q : list str) :
  forall rel, visible patterns rel q = true ->
    forall pre x post, q = pre ++ x :: post ->
      exists d, should_ignore {| comps := (rel ++ pre) ++ [x]; p_is_dir := d |}
                              patterns = false.
Proof.
  induction q as [|c q IH]; intros rel Hv pre x post Hq; [discriminate|].
  destruct q as [|y q].
  - destruct pre as [|? [|? ?]]; try discriminate. injection Hq as -> _.
    exists false. rewrite app_nil_r. cbn [visible] in Hv.
    now apply negb_true_iff in Hv.
  - rewrite visible_cons in Hv. apply andb_true_iff in Hv. destruct Hv as [Hk Hv].
    destruct pre as [|c' pre].
    + injection Hq as -> _. exists true. rewrite app_nil_r.
      now apply negb_true_iff in Hk.
    + injection Hq as -> Hq.
      destruct (IH _ Hv pre x post Hq) as [d Hd]. exists d.
      replace ((rel ++ [c']) ++ pre) with (rel ++ c' :: pre) in Hd
        by now rewrite <- app_assoc.
      exact Hd.
Qed.

(** X7. A rule without wildcard and backslash, [name] or [name/], keeps
    out every path that has [name] among its components, at any depth,
    whatever the other rules are.  So no file under [node_modules] or
    [.git] is collected, nor the output file of the run. *)
Theorem literal_rule_excludes
        (root : node) (patterns : list str) (name : str) (p : list str) :
  glob_literal name = true -> ~ In 92 name -> endswith name (U "/") = false ->
  In name patterns \/ In (name ++ U "/") patterns ->
  In p (iter_files root patterns) -> ~ In name p.
Proof.
  intros Hlit Hbs Hsl Hin Hp Hname. unfold iter_files in Hp.
  apply walk_sound in Hp. destruct Hp as [q [Hq [_ Hv]]].
  cbn [app] in Hq. subst q. apply in_split in Hname.
  destruct Hname as [pre [post Hsplit]].
  destruct (visible_components _ _ _ Hv pre name post Hsplit) as [d Hd].
  rewrite (literal_rule_hides _ _ d _ Hlit Hbs Hsl Hin) in Hd. discriminate.
Qed.

Lemma star_matches (ts : list tok) (s : str) :
  matches (TStar :: ts) s = true <-> exists a b, s = a ++ b /\ matches ts b = true.
Proof.
  induction s as [|c s IH].
  - cbn [matches]. rewrite orb_false_r. split.
    + intros H. now exists [], [].
    + intros [a [b [Hab H]]]. symmetry in Hab. apply app_eq_nil in Hab.
      destruct Hab as [_ ->]. exact H.
  - change (matches (TStar :: ts) (c :: s))
      with (matches ts (c :: s) || matches (TStar :: ts) s).
    rewrite orb_true_iff, IH. split.
    + intros [H|[a [b [-> H]]]]; [now exists [], (c :: s) | now exists (c :: a), b].
    + intros [[|x a] [b [Hab H]]].
      * left. cbn [app] in Hab. now subst b.
      * right. injection Hab as -> ->. now exists a, b.
Qed.

(** X8. A rule made of a star and a suffix without wildcard, such as
    [*.pyc], matches exactly the names that end with the suffix, and the
    lone star matches every name. *)
Theorem star_suffix_rule (name suffix : str) :
  glob_literal suffix = true ->
  fnmatch name (42 :: suffix) = endswith name suffix.
Proof.
  intros Hlit. unfold fnmatch. cbn [parse]. change (42 =? 42) with true.
  cbv iota. rewrite (parse_literal _ Hlit).
  destruct (endswith name suffix) eqn:E.
  - apply star_matches. apply endswith_spec in E. destruct E as [a ->].
    exists a, suffix. split; [reflexivity|].
    rewrite matches_literal. apply str_eqb_refl.
  - destruct (matches (TStar :: map TLit suffix) name) eqn:M; [|reflexivity].
    apply star_matches in M. destruct M as [a [b [-> M]]].
    rewrite matches_literal in M. apply str_eqb_eq in M. subst b.
    now rewrite endswith_app in E.
Qed.

(** X9. [norm_for_match] gives a path without backslash, and one that
    ends with a slash for a directory. *)
Theorem norm_for_match_shape (p : path) :
  forallb (fun c => negb (c =? 92)) (norm_for_match p) = true
  /\ (if p_is_dir p then endswith (norm_for_match p) (U "/") else true) = true.
Proof.
  unfold norm_for_match. change (U "\") with [92]. change (U "/") with [47].
  rewrite replace_single.
  set (s := map _ (join [47] (comps p))).
  assert (Hs : forallb (fun c => negb (c =? 92)) s = true).
  { apply forallb_forall. intros c Hc. apply in_map_iff in Hc.
    destruct Hc as [d [<- _]].
    destruct (d =? 92) eqn:E; [reflexivity | now rewrite E]. }
  destruct (p_is_dir p); cbn [andb].
  - destruct (endswith s [47]) eqn:E; cbn [negb].
    + now split.
    + split; [|apply endswith_app]. now rewrite forallb_app, Hs.
  - now split.
Qed.

End LiteralRules.

Section LiteralRuleRuns.

Lemma literal_rule_excludes_witness :
  let root :=
    Dir (U "root")
      [Dir (U "node_modules") [File (U "x.js")];
       Dir (U "src") [File (U "main.py"); File (U "out.txt")]] in
  let patterns :=
    ignore_patterns None (U "out.txt") (U "Code_Knowledge_Prep.py") in
  iter_files root patterns = [[U "src"; U "main.py"]]
  /\ ~ In (U "out.txt") [U "src"; U "main.py"].
Proof.
  cbv zeta. split; [reflexivity|].
  apply (literal_rule_excludes
           (Dir (U "root")
              [Dir (U "node_modules") [File (U "x.js")];
               Dir (U "src") [File (U "main.py"); File (U "out.txt")]])
           (ignore_patterns None (U "out.txt") (U "Code_Knowledge_Prep.py"))
           (U "out.txt")); try reflexivity.
  - vm_compute. intuition discriminate.
  - left. vm_compute. tauto.
  - vm_compute. tauto.
Defined.

Lemma star_suffix_rule_witness :
  Fnmatch.fnmatch (U "module.pyc") (U "*.pyc") = endswith (U "module.pyc") (U ".pyc").
Proof. apply (star_suffix_rule (U "module.pyc") (U ".pyc")). reflexivity. Defined.

End LiteralRuleRuns.

(** ** Stripping white space *)

Section StripFacts.

Lemma lstrip_head (s : str) (c : N) (r : str) :
  lstrip s = c :: r -> isspace c = false.
Proof.
  induction s as [|d s IH]; [discriminate|]. cbn [lstrip].
  destruct (isspace d) eqn:E; [exact IH | now intros [= <- _]].
Qed.

Lemma lstrip_fixed (s : str) :
  match s with [] => True | c :: _ => isspace c = false end -> lstrip s = s.
Proof. destruct s as [|c s]; [reflexivity|]. cbn [lstrip]. now intros ->. Qed.

Lemma lstrip_idem (s : str) : lstrip (lstrip s) = lstrip s.
Proof.
  apply lstrip_fixed. destruct (lstrip s) as [|c r] eqn:E; [exact I|].
  exact (lstrip_head _ _ _ E).
Qed.

Lemma lstrip_suffix (s : str) : exists a, s = a ++ lstrip s.
Proof.
  induction s as [|d s [a IH]]; [now exists []|]. cbn [lstrip].
  destruct (isspace d); [|now exists []].
  exists (d :: a). cbn [app]. now f_equal.
Qed.

Lemma rstrip_prefix (s : str) : exists b, s = rstrip s ++ b.
Proof.
  unfold rstrip. destruct (lstrip_suffix (rev s)) as [a Ha].
  exists (rev a). rewrite <- (rev_involutive s) at 1. rewrite Ha at 1.
  apply rev_app_distr.
Qed.

Lemma rstrip_idem (s : str) : rstrip (rstrip s) = rstrip s.
Proof. unfold rstrip. now rewrite rev_involutive, lstrip_idem. Qed.

(** A stripped string begins and ends with no white space. *)
Lemma strip_ends (s : str) :
  match strip s with [] => True | c :: _ => isspace c = false end
  /\ match rev (strip s) with [] => True | c :: _ => isspace c = false end.
Proof.
  unfold strip. split.
  - destruct (rstrip_prefix (lstrip s)) as [b Hb].
    destruct (rstrip (lstrip s)) as [|c r] eqn:E; [exact I|].
    cbn [app] in Hb. exact (lstrip_head _ _ _ Hb).
  - unfold rstrip. rewrite rev_involutive.
    destruct (lstrip (rev (lstrip s))) as [|c r] eqn:E; [exact I|].
    exact (lstrip_head _ _ _ E).
Qed.

Lemma strip_idem (s : str) : strip (strip s) = strip s.
Proof.
  unfold strip at 1. rewrite (lstrip_fixed (strip s)) by apply strip_ends.
  unfold strip. apply rstrip_idem.
Qed.

End StripFacts.

(** ** IgnoreMatcher: the project's own rules *)

Section Gitignore.

Lemma gitignore_lines_In (lines : list str) (p : str) :
  In p (gitignore_lines lines)
  <-> exists line, In line lines /\ p = strip line /\ p <> []
                   /\ startswith p (U "#") = false.
Proof.
  induction lines as [|l lines IH]; cbn [gitignore_lines].
  - split; [intros [] | intros [line [[] _]]].
  - assert (Hrest : In p (gitignore_lines lines) ->
                    exists line, In line (l :: lines) /\ p = strip line
                                 /\ p <> [] /\ startswith p (U "#") = false).
    { intros H. apply IH in H. destruct H as [line [H1 H2]].
      exists line. split; [now right | exact H2]. }
    destruct (strip l) as [|c r] eqn:El.
    + split; [exact Hrest|]. intros [line [[<-|Hin] [Hp [Hne Hc]]]].
      * congruence.
      * apply IH. now exists line.
    + destruct (startswith (c :: r) (U "#")) eqn:Ec.
      * split; [exact Hrest|]. intros [line [[<-|Hin] [Hp [Hne Hc]]]].
        -- congruence.
        -- apply IH. now exists line.
      * split.
        -- intros [<-|H]; [|now apply Hrest].
           exists l. repeat split; [now left | now symmetry | discriminate | exact Ec].
        -- intros [line [[<-|Hin] [Hp [Hne Hc]]]].
           ++ left. congruence.
           ++ right. apply IH. now exists line.
Qed.

(** The loop keeps, in the order of the file and as often as they occur,
    the stripped lines that are neither empty nor comments. *)
Lemma gitignore_lines_filter (lines : list str) :
  gitignore_lines lines
  = filter (fun r => negb (length r =? 0)%nat && negb (startswith r (U "#")))
           (map strip lines).
Proof.
  induction lines as [|l lines IH]; [reflexivity|].
  cbn [gitignore_lines map filter]. rewrite <- IH.
  destruct (strip l) as [|c r]; [reflexivity|].
  cbn [length Nat.eqb negb andb].
  now destruct (startswith (c :: r) (U "#")).
Qed.

(** X10. The rules read from [.gitignore] are exactly the lines that are
    neither blank nor comments, stripped of surrounding white space, in
    the order of the file and as often as they occur there; none is
    empty, begins with [#], or begins or ends with white space.  With no
    file there is no rule. *)
Theorem gitignore_rules (lines : list str) (p : str) :
  read_gitignore_patterns None = []
  /\ read_gitignore_patterns (Some lines)
     = filter (fun r => negb (length r =? 0)%nat && negb (startswith r (U "#")))
              (map strip lines)
  /\ (In p (read_gitignore_patterns (Some lines))
      <-> exists line, In line lines /\ p = strip line /\ p <> []
                       /\ startswith p (U "#") = false)
  /\ Forall (fun r => strip r = r /\ r <> [])
            (read_gitignore_patterns (Some lines)).
Proof.
  split; [reflexivity|]. split; [apply gitignore_lines_filter|].
  split; [apply gitignore_lines_In|].
  apply Forall_forall. intros r Hr. apply gitignore_lines_In in Hr.
  destruct Hr as [line [_ [-> [Hne _]]]]. split; [apply strip_idem | exact Hne].
Qed.

End Gitignore.

(** ** BundleEncoder: one section per file, in the order of the sort *)

Section BundleShape.
Import Bundle.
Context `{UnicodeDB}.
Variable sha1_hexdigest : bytes -> str.

Lemma make_metas_length (cfg : Config) (count : nat) (files : list SrcFile) :
  forall i, length (make_metas sha1_hexdigest cfg count i files) = length files.
Proof.
  induction files as [|f files IH]; intros i; [reflexivity|].
  cbn [make_metas length]. now rewrite IH.
Qed.

Lemma make_meta_path (cfg : Config) (count i : nat) (f : SrcFile) :
  m_path (make_meta sha1_hexdigest cfg count i f) = rel_path f.
Proof.
  unfold make_meta. destruct (is_probably_binary f); [reflexivity|].
  destruct (read_meta f) as [[|b raw]|]; reflexivity.
Qed.

Lemma make_metas_paths (cfg : Config) (count : nat) (files : list SrcFile) :
  forall i, map m_path (make_metas sha1_hexdigest cfg count i files)
            = map rel_path files.
Proof.
  induction files as [|f files IH]; intros i; [reflexivity|].
  cbn [make_metas map]. now rewrite make_meta_path, IH.
Qed.

Lemma write_sections_metas (cfg : Config) (mfs : list (Meta * SrcFile)) :
  forall w, map sec_meta (fst (write_sections cfg w mfs)) = map fst mfs
            /\ map sec_id (fst (write_sections cfg w mfs))
               = map (fun mf => m_id (fst mf)) mfs.
Proof.
  induction mfs as [|[m f] mfs IH]; intros w; [now split|].
  cbn [write_sections].
  assert (Hs : sec_meta (fst (write_section cfg w (m, f))) = m
               /\ sec_id (fst (write_section cfg w (m, f))) = m_id m).
  { unfold write_section. destruct (m_is_binary m); [now split|].
    destruct (read_section f); [|now split].
    destruct (_ <? _)%Z; now split. }
  destruct (write_section cfg w (m, f)) as [s w1]. cbn [fst] in Hs.
  destruct (IH w1) as [IH1 IH2].
  destruct (write_sections cfg w1 mfs) as [ss w2]. cbn [fst map] in *.
  destruct Hs as [-> ->]. now rewrite IH1, IH2.
Qed.

Lemma map_fst_combine (A B : Type) (a : list A) (b : list B) :
  length a = length b -> map fst (combine a b) = a.
Proof.
  revert b. induction a as [|x a IH]; intros [|y b] Hl; try discriminate;
    [reflexivity|]. cbn [combine map fst]. f_equal. apply IH. now injection Hl.
Qed.

(** X11. A bundle has one index row and one section for each collected
    file; the sections come in the order of the index, each under the id
    of its row; and the paths of the index are those of the collected
    files, rearranged. *)
Theorem bundle_one_section_per_file (cfg : Config) (collected : list SrcFile) :
  let meta := fst (fst (bundle sha1_hexdigest cfg collected)) in
  let sections := snd (fst (bundle sha1_hexdigest cfg collected)) in
  length meta = length collected
  /\ map sec_meta sections = meta
  /\ map sec_id sections = map m_id meta
  /\ Permutation (map rel_path collected) (map m_path meta).
Proof.
  cbv zeta. unfold bundle.
  set (files := sort_files (cfg_sort cfg) collected).
  set (meta := make_metas sha1_hexdigest cfg (length files) 1 files).
  assert (Hp : Permutation collected files) by apply sorted_perm.
  assert (Hl : length meta = length files) by apply make_metas_length.
  destruct (write_sections_metas cfg (combine meta files) 0) as [H1 H2].
  destruct (write_sections cfg 0 (combine meta files)) as [ss w].
  cbn [fst snd] in *. split; [|split; [|split]].
  - rewrite Hl. symmetry. now apply Permutation_length.
  - rewrite H1. now apply map_fst_combine.
  - rewrite H2, <- (map_map fst m_id), map_fst_combine by exact Hl. reflexivity.
  - unfold meta. rewrite make_metas_paths. now apply Permutation_map.
Qed.

End BundleShape.

(** ** Sorting: one result for every arrangement *)

Section SortUnique.
Variable A : Type.
Variable leb : A -> A -> bool.
Hypothesis leb_total : forall a b, leb a b = false -> leb b a = true.
Hypothesis leb_trans :
  forall a b c, leb a b = true -> leb b c = true -> leb a c = true.

Lemma sorted_StronglySorted (l : list A) :
  StronglySorted (fun a b => leb a b = true) (sorted leb l).
Proof.
  apply Sorted_StronglySorted; [exact leb_trans|].
  now apply sorted_Sorted.
Qed.

Lemma StronglySorted_unique (l1 : list A) :
  forall l2,
    (forall a b, In a l1 -> In b l1 ->
                 leb a b = true -> leb b a = true -> a = b) ->
    StronglySorted (fun a b => leb a b = true) l1 ->
    StronglySorted (fun a b => leb a b = true) l2 ->
    Permutation l1 l2 -> l1 = l2.
Proof.
  induction l1 as [|a l1 IH]; intros l2 Hanti S1 S2 Hp.
  - apply Permutation_nil in Hp. now subst.
  - destruct l2 as [|b l2].
    { apply Permutation_sym, Permutation_nil in Hp. discriminate. }
    apply StronglySorted_inv in S1. destruct S1 as [S1 F1].
    apply StronglySorted_inv in S2. destruct S2 as [S2 F2].
    rewrite Forall_forall in F1, F2.
    assert (Hab : a = b).
    { assert (Ha : In a (b :: l2)).
      { apply (Permutation_in _ Hp). now left. }
      assert (Hb : In b (a :: l1)).
      { apply (Permutation_in _ (Permutation_sym Hp)). now left. }
      destruct Ha as [->|Ha]; [reflexivity|].
      destruct Hb as [->|Hb]; [reflexivity|].
      apply Hanti; [now left | now right | now apply F1 | now apply F2]. }
    subst b. f_equal. apply Permutation_cons_inv in Hp.
    apply IH; try assumption.
    intros x y Hx Hy. apply Hanti; now right.
Qed.

(** Sorting two arrangements of the same items gives the same list, when
    no two different items are equal in the order. *)
Lemma sorted_of_permutation (l1 l2 : list A) :
  (forall a b, In a l1 -> In b l1 ->
               leb a b = true -> leb b a = true -> a = b) ->
  Permutation l1 l2 -> sorted leb l1 = sorted leb l2.
Proof.
  intros Hanti Hp. apply StronglySorted_unique.
  - intros a b Ha Hb. apply sorted_In in Ha, Hb. now apply Hanti.
  - apply sorted_StronglySorted.
  - apply sorted_StronglySorted.
  - rewrite <- (sorted_perm _ leb l1), <- (sorted_perm _ leb l2). exact Hp.
Qed.

End SortUnique.

Lemma str_leb_antisym (a b : str) :
  str_leb a b = true -> str_leb b a = true -> a = b.
Proof.
  revert b. induction a as [|x a IH]; intros [|y b]; try discriminate;
    [reflexivity|]. cbn [str_leb].
  rewrite !orb_true_iff, !andb_true_iff, !N.ltb_lt, !N.eqb_eq.
  intros [Hxy|[Hxy Hab]] [Hyx|[Hyx Hba]]; try lia.
  f_equal; [exact Hxy | now apply IH].
Qed.

Lemma str_leb_refl (a : str) : str_leb a a = true.
Proof.
  induction a as [|x a IH]; [reflexivity|]. cbn [str_leb].
  now rewrite N.eqb_refl, IH, orb_true_r.
Qed.

(** ** BundleEncoder: the three orders *)

Section SortModes.
Import Bundle.
Context `{UnicodeDB}.
Variable sha1_hexdigest : bytes -> str.

Ltac order_cases :=
  rewrite ?orb_true_iff, ?orb_false_iff, ?andb_true_iff, ?andb_false_iff,
    ?negb_true_iff, ?negb_false_iff, ?N.ltb_lt, ?N.ltb_ge, ?N.eqb_eq,
    ?N.eqb_neq, ?str_eqb_eq in *.

Lemma str_eqb_false (a b : str) : str_eqb a b = false <-> a <> b.
Proof.
  split.
  - intros E ->. now rewrite str_eqb_refl in E.
  - intros Hn. destruct (str_eqb a b) eqn:E; [|reflexivity].
    now apply str_eqb_eq in E.
Qed.

Lemma sort_leb_total (m : sort_mode) (a b : SrcFile) :
  sort_leb m a b = false -> sort_leb m b a = true.
Proof.
  destruct m; unfold sort_leb.
  - apply str_leb_total.
  - intros E. apply orb_false_iff in E. destruct E as [E1 E2].
    apply N.ltb_ge in E1. apply andb_false_iff in E2.
    apply orb_true_iff.
    destruct (N.ltb_spec (src_size b) (src_size a)); [now left | right].
    apply andb_true_iff. split; [apply N.eqb_eq; lia|].
    destruct E2 as [E2|E2]; [apply N.eqb_neq in E2; lia | now apply str_leb_total].
  - cbv zeta. intros E. apply orb_false_iff in E. destruct E as [E1 E2].
    apply negb_false_iff in E1. apply andb_false_iff in E2.
    apply orb_true_iff.
    destruct (str_leb (lower (suffix (file_name a)))
                      (lower (suffix (file_name b)))) eqn:Eab;
      [right | now left].
    pose proof (str_leb_antisym _ _ Eab E1) as Heq.
    apply andb_true_iff. split; [apply str_eqb_eq; congruence|].
    destruct E2 as [E2|E2]; [|now apply str_leb_total].
    apply str_eqb_false in E2. congruence.
Qed.

Lemma sort_leb_trans (m : sort_mode) (a b c : SrcFile) :
  sort_leb m a b = true -> sort_leb m b c = true -> sort_leb m a c = true.
Proof.
  destruct m; unfold sort_leb.
  - apply str_leb_trans.
  - order_cases. intros [H1|[H1 P1]] [H2|[H2 P2]]; try (left; lia).
    right. split; [lia | now apply (str_leb_trans _ _ _ P1)].
  - cbv zeta.
    set (ea := lower (suffix (file_name a))).
    set (eb := lower (suffix (file_name b))).
    set (ec := lower (suffix (file_name c))).
    order_cases. intros [H1|[H1 P1]] [H2|[H2 P2]].
    + left. destruct (str_leb ec ea) eqn:E; [|reflexivity].
      pose proof (str_leb_total _ _ H2) as Hbc.
      rewrite (str_leb_trans _ _ _ Hbc E) in H1. discriminate.
    + left. now rewrite <- H2.
    + left. now rewrite H1.
    + right. split; [congruence | now apply (str_leb_trans _ _ _ P1)].
Qed.

Lemma sort_leb_antisym (m : sort_mode) (a b : SrcFile) :
  sort_leb m a b = true -> sort_leb m b a = true -> rel_path a = rel_path b.
Proof.
  destruct m; unfold sort_leb.
  - apply str_leb_antisym.
  - order_cases. intros [H1|[H1 P1]] [H2|[H2 P2]]; try lia.
    now apply str_leb_antisym.
  - cbv zeta.
    set (ea := lower (suffix (file_name a))).
    set (eb := lower (suffix (file_name b))).
    order_cases. intros [H1|[H1 P1]] [H2|[H2 P2]].
    + pose proof (str_leb_total _ _ H1). congruence.
    + rewrite H2, str_leb_refl in H1. discriminate.
    + rewrite H1, str_leb_refl in H2. discriminate.
    + now apply str_leb_antisym.
Qed.

(** X12. In each of the three modes the sorted files are the collected
    ones, rearranged so that every file comes before those that are
    greater in the order of the mode: by path, by size then path, by
    lowered extension then path. *)
Theorem sort_files_ordered (m : sort_mode) (collected : list SrcFile) :
  Permutation collected (sort_files m collected)
  /\ StronglySorted (fun a b => sort_leb m a b = true) (sort_files m collected).
Proof.
  split; [apply sorted_perm|].
  apply sorted_StronglySorted; [apply sort_leb_total | apply sort_leb_trans].
Qed.

(** X13. The bundle does not depend on the order in which the walk handed
    over the files: two arrangements of the same files, no two of them
    with the same path, give the same index, the same sections and the
    same count of bytes. *)
Theorem bundle_order_independent (cfg : Config) (c1 c2 : list SrcFile) :
  (forall a b, In a c1 -> In b c1 -> rel_path a = rel_path b -> a = b) ->
  Permutation c1 c2 ->
  bundle sha1_hexdigest cfg c1 = bundle sha1_hexdigest cfg c2.
Proof.
  intros Hinj Hp. unfold bundle, sort_files.
  rewrite (sorted_of_permutation _ (sort_leb (cfg_sort cfg))
             (sort_leb_total _) (sort_leb_trans _) c1 c2); [reflexivity| |exact Hp].
  intros a b Ha Hb H1 H2. apply (Hinj a b Ha Hb).
  now apply (sort_leb_antisym (cfg_sort cfg)).
Qed.

End SortModes.

Section SortModeRuns.
Import Bundle.

Lemma bundle_order_independent_witness :
  bundle (H := ascii_db) no_sha1 sample_cfg [sample_c; sample_a; sample_b]
  = bundle (H := ascii_db) no_sha1 sample_cfg [sample_a; sample_b; sample_c].
Proof.
  apply (@bundle_order_independent ascii_db no_sha1 sample_cfg
           [sample_c; sample_a; sample_b] [sample_a; sample_b; sample_c]).
  - intros a b [<-|[<-|[<-|[]]]] [<-|[<-|[<-|[]]]] E;
      try reflexivity; vm_compute in E; discriminate E.
  - apply (Permutation_cons_app [sample_a; sample_b] [] sample_c).
    rewrite app_nil_r. apply Permutation_refl.
Defined.

End SortModeRuns.

(** ** Encoding and decoding UTF-8 *)

Section Utf8RoundTrip.
Local Open Scope N_scope.

Lemma lor_small (hi x : N) (k : nat) :
  (forall y, (y < k)%nat -> N.lor hi (N.of_nat y) = hi + N.of_nat y) ->
  x < N.of_nat k -> N.lor hi x = hi + x.
Proof.
  intros Hk Hx. rewrite <- (Nnat.N2Nat.id x). apply Hk. lia.
Qed.

Lemma lor_80 (x : N) : x < 64 -> N.lor 0x80 x = 0x80 + x.
Proof.
  apply (lor_small 0x80 x 64). intros y Hy.
  do 64 (destruct y as [|y]; [reflexivity|]). lia.
Qed.

Lemma lor_C0 (x : N) : x < 32 -> N.lor 0xC0 x = 0xC0 + x.
Proof.
  apply (lor_small 0xC0 x 32). intros y Hy.
  do 32 (destruct y as [|y]; [reflexivity|]). lia.
Qed.

Lemma lor_E0 (x : N) : x < 16 -> N.lor 0xE0 x = 0xE0 + x.
Proof.
  apply (lor_small 0xE0 x 16). intros y Hy.
  do 16 (destruct y as [|y]; [reflexivity|]). lia.
Qed.

Lemma lor_F0 (x : N) : x < 8 -> N.lor 0xF0 x = 0xF0 + x.
Proof.
  apply (lor_small 0xF0 x 8). intros y Hy.
  do 8 (destruct y as [|y]; [reflexivity|]). lia.
Qed.

Lemma low6 (x : N) : N.land x 0x3F = x mod 64.
Proof. change 0x3F with (N.ones 6). now rewrite N.land_ones. Qed.

Lemma shr6 (x : N) : N.shiftr x 6 = x / 64.
Proof. now rewrite N.shiftr_div_pow2. Qed.

Lemma shr12 (x : N) : N.shiftr x 12 = x / 4096.
Proof. now rewrite N.shiftr_div_pow2. Qed.

Lemma shr18 (x : N) : N.shiftr x 18 = x / 262144.
Proof. now rewrite N.shiftr_div_pow2. Qed.

Ltac decide_bools :=
  repeat match goal with
         | |- context [?a <? ?b] => destruct (N.ltb_spec a b); try lia
         | |- context [?a <=? ?b] => destruct (N.leb_spec a b); try lia
         | |- context [?a =? ?b] => destruct (N.eqb_spec a b); try lia
         end.

(** The bytes of a scalar value decode to it and to nothing else. *)
Lemma decode_head_encoded (c : N) (rest : bytes) :
  scalar c = true ->
  decode_head (utf8_char c ++ rest) = Some (c, length (utf8_char c)).
Proof.
  unfold scalar. intros Hs.
  assert (Hc : c < 0xD800 \/ 0xE000 <= c < 0x110000).
  { apply orb_true_iff in Hs. destruct Hs as [Hs|Hs].
    - left. now apply N.ltb_lt.
    - right. apply andb_true_iff in Hs. destruct Hs as [H1 H2].
      apply N.leb_le in H1. apply N.ltb_lt in H2. lia. }
  clear Hs. unfold utf8_char.
  destruct (N.ltb_spec c 0x80) as [H1|H1].
  { cbn [app decode_head length]. destruct (N.ltb_spec c 0x80); [reflexivity | lia]. }
  destruct (N.ltb_spec c 0x800) as [H2|H2].
  { rewrite shr6, low6.
    pose proof (N.div_mod c 64 ltac:(lia)) as Hdm.
    pose proof (N.mod_lt c 64 ltac:(lia)) as Hm.
    set (q := c / 64) in *. set (m := c mod 64) in *.
    assert (Hq : 2 <= q < 32) by lia.
    rewrite (lor_C0 q) by lia. rewrite (lor_80 m) by lia.
    cbn [app decode_head length]. unfold between.
    clearbody q m. decide_bools. cbn [andb]. f_equal. f_equal. lia. }
  destruct (N.ltb_spec c 0x10000) as [H3|H3].
  { rewrite shr12, shr6, !low6.
    pose proof (N.div_mod c 64 ltac:(lia)) as Hdm.
    pose proof (N.mod_lt c 64 ltac:(lia)) as Hm.
    pose proof (N.div_mod (c / 64) 64 ltac:(lia)) as Hdm2.
    pose proof (N.mod_lt (c / 64) 64 ltac:(lia)) as Hm2.
    assert (Hq : c / 4096 = c / 64 / 64).
    { now rewrite N.Div0.div_div. }
    rewrite Hq.
    set (q := c / 64) in *. set (m := c mod 64) in *.
    set (q2 := q / 64) in *. set (m2 := q mod 64) in *.
    assert (Hq2 : q2 < 16) by lia.
    rewrite (lor_E0 q2) by lia. rewrite (lor_80 m2), (lor_80 m) by lia.
    cbn [app decode_head length]. unfold second3, between.
    clearbody q m q2 m2. decide_bools; cbn [andb];
      try (f_equal; f_equal; lia). }
  { rewrite shr18, shr12, shr6, !low6.
    pose proof (N.div_mod c 64 ltac:(lia)) as Hdm.
    pose proof (N.mod_lt c 64 ltac:(lia)) as Hm.
    pose proof (N.div_mod (c / 64) 64 ltac:(lia)) as Hdm2.
    pose proof (N.mod_lt (c / 64) 64 ltac:(lia)) as Hm2.
    pose proof (N.div_mod (c / 64 / 64) 64 ltac:(lia)) as Hdm3.
    pose proof (N.mod_lt (c / 64 / 64) 64 ltac:(lia)) as Hm3.
    assert (Hq : c / 4096 = c / 64 / 64) by now rewrite N.Div0.div_div.
    assert (Hq' : c / 262144 = c / 64 / 64 / 64) by now rewrite !N.Div0.div_div.
    rewrite Hq, Hq'.
    set (q := c / 64) in *. set (m := c mod 64) in *.
    set (q2 := q / 64) in *. set (m2 := q mod 64) in *.
    set (q3 := q2 / 64) in *. set (m3 := q2 mod 64) in *.
    assert (Hq3 : q3 < 8) by lia.
    rewrite (lor_F0 q3) by lia.
    rewrite (lor_80 m3), (lor_80 m2), (lor_80 m) by lia.
    cbn [app decode_head length]. unfold second4, between.
    clearbody q m q2 m2 q3 m3. decide_bools; cbn [andb];
      try (f_equal; f_equal; lia). }
Qed.

Lemma decode_go_skip (x : bytes) :
  forall rest, decode_go (length x) (x ++ rest) = decode_go 0 rest.
Proof. induction x as [|b x IH]; intros rest; [reflexivity | exact (IH rest)]. Qed.

Lemma utf8_char_nonempty (c : N) : utf8_char c <> [].
Proof.
  unfold utf8_char.
  destruct (c <? 0x80); [discriminate|].
  destruct (c <? 0x800); [discriminate|].
  destruct (c <? 0x10000); discriminate.
Qed.

Lemma decode_encoded_char (c : N) (rest : bytes) :
  scalar c = true ->
  decode_go 0 (utf8_char c ++ rest) = c :: decode_go 0 rest.
Proof.
  intros Hs. pose proof (decode_head_encoded c rest Hs) as Hd.
  destruct (utf8_char c) as [|b x] eqn:E; [now apply utf8_char_nonempty in E|].
  cbn [app decode_go] in *. rewrite Hd. f_equal.
  cbn [length]. rewrite Nat.sub_succ, Nat.sub_0_r. apply decode_go_skip.
Qed.

(** X14. Text of scalar values, encoded as UTF-8 and decoded again with
    [errors='ignore'], is the same text: nothing is dropped from valid
    UTF-8, so a file that is valid UTF-8 goes into the bundle byte for
    byte. *)
Theorem utf8_round_trip (s : str) :
  forallb scalar s = true ->
  decode_utf8_ignore (encode_utf8 s) = s
  /\ encode_utf8 (decode_utf8_ignore (encode_utf8 s)) = encode_utf8 s.
Proof.
  intros Hs.
  assert (E : decode_utf8_ignore (encode_utf8 s) = s).
  { unfold decode_utf8_ignore. induction s as [|c s IH]; [reflexivity|].
    cbn [forallb] in Hs. apply andb_true_iff in Hs. destruct Hs as [Hc Hs].
    rewrite encode_utf8_cons, (decode_encoded_char c _ Hc). f_equal.
    now apply IH. }
  split; [exact E | now rewrite E].
Qed.

Lemma utf8_round_trip_witness :
  decode_utf8_ignore (encode_utf8 [0x61; 0xE9; 0x20AC; 0xD7FF; 0x1F600])
  = [0x61; 0xE9; 0x20AC; 0xD7FF; 0x1F600]
  /\ encode_utf8
       (decode_utf8_ignore (encode_utf8 [0x61; 0xE9; 0x20AC; 0xD7FF; 0x1F600]))
     = encode_utf8 [0x61; 0xE9; 0x20AC; 0xD7FF; 0x1F600].
Proof. apply (utf8_round_trip [0x61; 0xE9; 0x20AC; 0xD7FF; 0x1F600]). reflexivity. Defined.

End Utf8RoundTrip.

(** ** ProseNormalizer: the shape of normalised prose *)

Section ProseShape.
Local Open Scope N_scope.

Lemma startswith_cons (c x : N) (r p : str) :
  startswith (c :: r) (x :: p) = (x =? c) && startswith r p.
Proof. reflexivity. Qed.

Lemma contains_cons (c : N) (r p : str) :
  contains (c :: r) p = startswith (c :: r) p || contains r p.
Proof.
  unfold contains. rewrite (find_unfold (c :: r)).
  destruct (startswith (c :: r) p); [reflexivity|].
  cbn [orb]. now destruct (find r p).
Qed.

Lemma contains_false_cons (c : N) (r p : str) :
  contains (c :: r) p = false
  <-> startswith (c :: r) p = false /\ contains r p = false.
Proof. rewrite contains_cons. apply orb_false_iff. Qed.

Lemma contains_suffix (a s p : str) :
  contains (a ++ s) p = false -> contains s p = false.
Proof.
  induction a as [|c a IH]; [trivial|]. cbn [app]. intros Hc.
  apply contains_false_cons in Hc. apply IH, Hc.
Qed.

Lemma contains_prefix (s b p : str) :
  contains (s ++ b) p = false -> contains s p = false.
Proof.
  induction s as [|c s IH].
  - cbn [app]. intros Hc. destruct p as [|x p]; [|reflexivity].
    unfold contains in Hc. rewrite find_unfold in Hc. discriminate Hc.
  - cbn [app]. rewrite !contains_false_cons. intros [H1 H2].
    split; [|apply IH, H2].
    destruct (startswith (c :: s) p) eqn:E; [|reflexivity].
    apply (startswith_app_r _ b) in E. cbn [app] in E. congruence.
Qed.

Lemma contains_strip (t p : str) :
  contains t p = false -> contains (strip t) p = false.
Proof.
  intros Hc. destruct (lstrip_suffix t) as [a Ha].
  destruct (rstrip_prefix (lstrip t)) as [b Hb].
  rewrite Ha, Hb in Hc. apply contains_suffix, contains_prefix in Hc.
  exact Hc.
Qed.

(** Neither collapsing spaces nor squeezing newlines changes the first
    character of a text. *)
Lemma collapse_head (s : str) (y : N) :
  startswith (collapse_spaces s) [y] = startswith s [y].
Proof.
  induction s as [|c r IH]; [reflexivity|]. cbn [collapse_spaces].
  destruct ((c =? SPACE) && startswith r [SPACE]) eqn:E; [|reflexivity].
  apply andb_true_iff in E. destruct E as [Ec Er].
  apply N.eqb_eq in Ec. subst c. rewrite IH.
  destruct r as [|d r]; [discriminate Er|].
  rewrite startswith_cons in Er. apply andb_true_iff in Er.
  destruct Er as [Ed _]. apply N.eqb_eq in Ed. now subst d.
Qed.

Lemma squeeze_head (s : str) (y : N) :
  startswith (squeeze_newlines s) [y] = startswith s [y].
Proof.
  induction s as [|c r IH]; [reflexivity|]. cbn [squeeze_newlines].
  destruct ((c =? LF) && startswith r [LF; LF]) eqn:E; [|reflexivity].
  apply andb_true_iff in E. destruct E as [Ec Er].
  apply N.eqb_eq in Ec. subst c. rewrite IH.
  destruct r as [|d r]; [discriminate Er|].
  rewrite startswith_cons in Er. apply andb_true_iff in Er.
  destruct Er as [Ed _]. apply N.eqb_eq in Ed. now subst d.
Qed.

Lemma squeeze_head2 (s : str) :
  startswith (squeeze_newlines s) [LF; LF] = startswith s [LF; LF].
Proof.
  induction s as [|c r IH]; [reflexivity|]. cbn [squeeze_newlines].
  destruct ((c =? LF) && startswith r [LF; LF]) eqn:E.
  - apply andb_true_iff in E. destruct E as [Ec Er].
    apply N.eqb_eq in Ec. subst c. rewrite IH, Er.
    destruct r as [|d r]; [discriminate Er|].
    rewrite startswith_cons in Er. apply andb_true_iff in Er.
    destruct Er as [Ed _]. apply N.eqb_eq in Ed. now subst d.
  - rewrite !(startswith_cons c). now rewrite squeeze_head.
Qed.

(** A pair of characters that is nowhere in a text is nowhere after
    collapsing its spaces or squeezing its newlines. *)
Lemma collapse_keeps_pair (x y : N) (s : str) :
  contains s [x; y] = false -> contains (collapse_spaces s) [x; y] = false.
Proof.
  induction s as [|c r IH]; [trivial|]. intros Hc.
  apply contains_false_cons in Hc. destruct Hc as [H1 H2].
  cbn [collapse_spaces].
  destruct ((c =? SPACE) && startswith r [SPACE]); [apply IH, H2|].
  apply contains_false_cons. split; [|apply IH, H2].
  rewrite startswith_cons in *. now rewrite collapse_head.
Qed.

Lemma squeeze_keeps_pair (x y : N) (s : str) :
  contains s [x; y] = false -> contains (squeeze_newlines s) [x; y] = false.
Proof.
  induction s as [|c r IH]; [trivial|]. intros Hc.
  apply contains_false_cons in Hc. destruct Hc as [H1 H2].
  cbn [squeeze_newlines].
  destruct ((c =? LF) && startswith r [LF; LF]); [apply IH, H2|].
  apply contains_false_cons. split; [|apply IH, H2].
  rewrite startswith_cons in *. now rewrite squeeze_head.
Qed.

Lemma collapse_free (s : str) :
  contains (collapse_spaces s) [SPACE; SPACE] = false.
Proof.
  induction s as [|c r IH]; [reflexivity|]. cbn [collapse_spaces].
  destruct ((c =? SPACE) && startswith r [SPACE]) eqn:E; [exact IH|].
  apply contains_false_cons. split; [|exact IH].
  now rewrite startswith_cons, collapse_head, N.eqb_sym.
Qed.

Lemma squeeze_free (s : str) :
  contains (squeeze_newlines s) [LF; LF; LF] = false.
Proof.
  induction s as [|c r IH]; [reflexivity|]. cbn [squeeze_newlines].
  destruct ((c =? LF) && startswith r [LF; LF]) eqn:E; [exact IH|].
  apply contains_false_cons. split; [|exact IH].
  now rewrite startswith_cons, squeeze_head2, N.eqb_sym.
Qed.

Lemma trim_head_newline (s : str) :
  startswith (trim_line_ends s) [LF] = true -> blanks_then_newline s = true.
Proof.
  induction s as [|c r IH]; [discriminate|].
  cbn [trim_line_ends blanks_then_newline].
  destruct (((c =? SPACE) || (c =? TAB)) && blanks_then_newline r) eqn:E.
  - intros _. apply orb_true_r.
  - rewrite startswith_cons. intros Hc. apply andb_true_iff in Hc.
    destruct Hc as [Hc _]. apply N.eqb_eq in Hc. now subst c.
Qed.

Lemma trim_free (b : N) (s : str) :
  b = SPACE \/ b = TAB -> contains (trim_line_ends s) [b; LF] = false.
Proof.
  intros Hb. induction s as [|c r IH]; [reflexivity|].
  cbn [trim_line_ends].
  destruct (((c =? SPACE) || (c =? TAB)) && blanks_then_newline r) eqn:E;
    [exact IH|].
  apply contains_false_cons. split; [|exact IH].
  rewrite startswith_cons. destruct (b =? c) eqn:Eb; [|reflexivity].
  apply N.eqb_eq in Eb. subst c. cbn [andb].
  destruct (startswith (trim_line_ends r) [LF]) eqn:Eh; [|reflexivity].
  apply trim_head_newline in Eh. rewrite Eh in E.
  destruct Hb; subst b; discriminate E.
Qed.

(** Text without the patterns the three rules look for is left as it is. *)
Lemma blanks_then_newline_absent (r : str) :
  forall c, contains (c :: r) [SPACE; LF] = false ->
            contains (c :: r) [TAB; LF] = false ->
            (c =? SPACE) || (c =? TAB) = true ->
            blanks_then_newline r = false.
Proof.
  induction r as [|d r IH]; intros c H1 H2 Hc; [reflexivity|].
  apply contains_false_cons in H1. destruct H1 as [H1 H1'].
  apply contains_false_cons in H2. destruct H2 as [H2 H2'].
  rewrite !startswith_cons in H1, H2. cbn [blanks_then_newline].
  destruct (d =? LF) eqn:Ed.
  - apply N.eqb_eq in Ed. subst d. apply orb_true_iff in Hc.
    destruct Hc as [Hc|Hc]; apply N.eqb_eq in Hc; subst c;
      [discriminate H1 | discriminate H2].
  - cbn [orb]. destruct ((d =? SPACE) || (d =? TAB)) eqn:Eb; [|reflexivity].
    cbn [andb]. now apply (IH d).
Qed.

Lemma trim_fixed (t : str) :
  contains t [SPACE; LF] = false -> contains t [TAB; LF] = false ->
  trim_line_ends t = t.
Proof.
  induction t as [|c r IH]; intros H1 H2; [reflexivity|].
  cbn [trim_line_ends].
  destruct ((c =? SPACE) || (c =? TAB)) eqn:Ec.
  - rewrite (blanks_then_newline_absent r c H1 H2 Ec). cbn [andb].
    apply contains_false_cons in H1, H2. f_equal. now apply IH.
  - cbn [andb]. apply contains_false_cons in H1, H2. f_equal. now apply IH.
Qed.

Lemma collapse_fixed (t : str) :
  contains t [SPACE; SPACE] = false -> collapse_spaces t = t.
Proof.
  induction t as [|c r IH]; intros Hc; [reflexivity|].
  apply contains_false_cons in Hc. destruct Hc as [H1 H2].
  rewrite startswith_cons, N.eqb_sym in H1.
  cbn [collapse_spaces]. rewrite H1. f_equal. now apply IH.
Qed.

Lemma squeeze_fixed (t : str) :
  contains t [LF; LF; LF] = false -> squeeze_newlines t = t.
Proof.
  induction t as [|c r IH]; intros Hc; [reflexivity|].
  apply contains_false_cons in Hc. destruct Hc as [H1 H2].
  rewrite startswith_cons, N.eqb_sym in H1.
  cbn [squeeze_newlines]. rewrite H1. f_equal. now apply IH.
Qed.

Lemma prose_shape (s : str) :
  contains (_normalize_prose s) [SPACE; SPACE] = false
  /\ contains (_normalize_prose s) [LF; LF; LF] = false
  /\ contains (_normalize_prose s) [SPACE; LF] = false
  /\ contains (_normalize_prose s) [TAB; LF] = false
  /\ strip (_normalize_prose s) = _normalize_prose s.
Proof.
  unfold _normalize_prose. repeat split.
  - apply contains_strip, squeeze_keeps_pair, collapse_free.
  - apply contains_strip, squeeze_free.
  - apply contains_strip, squeeze_keeps_pair, collapse_keeps_pair, trim_free.
    now left.
  - apply contains_strip, squeeze_keeps_pair, collapse_keeps_pair, trim_free.
    now right.
  - apply strip_idem.
Qed.

Lemma prose_fixed (t : str) :
  contains t [SPACE; SPACE] = false
  /\ contains t [LF; LF; LF] = false
  /\ contains t [SPACE; LF] = false
  /\ contains t [TAB; LF] = false
  /\ strip t = t ->
  _normalize_prose t = t.
Proof.
  intros (H1 & H2 & H3 & H4 & H5). unfold _normalize_prose.
  now rewrite (trim_fixed t H3 H4), (collapse_fixed t H1), (squeeze_fixed t H2).
Qed.

(** X15. Normalised prose has no two spaces in a row, no three newlines
    in a row, no space or tab at the end of a line, and no white space at
    its beginning or end. *)
Theorem normalize_prose_shape (s : str) :
  contains (_normalize_prose s) [SPACE; SPACE] = false
  /\ contains (_normalize_prose s) [LF; LF; LF] = false
  /\ contains (_normalize_prose s) [SPACE; LF] = false
  /\ contains (_normalize_prose s) [TAB; LF] = false
  /\ strip (_normalize_prose s) = _normalize_prose s.
Proof. apply prose_shape. Qed.

(** X16. Normalising prose twice is the same as normalising it once, and
    the texts it leaves unchanged are exactly those that already have the
    normal shape. *)
Theorem normalize_prose_fixed_points (s : str) :
  _normalize_prose (_normalize_prose s) = _normalize_prose s
  /\ (_normalize_prose s = s
      <-> contains s [SPACE; SPACE] = false
          /\ contains s [LF; LF; LF] = false
          /\ contains s [SPACE; LF] = false
          /\ contains s [TAB; LF] = false
          /\ strip s = s).
Proof.
  split; [apply prose_fixed, prose_shape|]. split.
  - intros E. rewrite <- E. apply prose_shape.
  - apply prose_fixed.
Qed.

End ProseShape.

(** ** DocumentExtractor: blank text and failure reasons *)

Section BlankText.
Import Extract.
Local Open Scope N_scope.

Lemma lstrip_nil_iff (s : str) :
  lstrip s = [] <-> forallb isspace s = true.
Proof.
  induction s as [|c s IH]; [now split|]. cbn [lstrip forallb].
  destruct (isspace c); cbn [andb]; [exact IH | now split].
Qed.

Lemma blank_iff (s : str) : blank s = true <-> forallb isspace s = true.
Proof.
  unfold blank, strip, rstrip. split.
  - intros Hb.
    assert (E : lstrip (rev (lstrip s)) = []).
    { destruct (lstrip (rev (lstrip s))) as [|c r]; [reflexivity|].
      destruct r; discriminate Hb || (cbn in Hb; destruct (rev _ ++ _); discriminate). }
    apply lstrip_nil_iff in E.
    assert (E' : forallb isspace (lstrip s) = true).
    { apply forallb_forall. intros x Hx. apply in_rev in Hx.
      exact (proj1 (forallb_forall _ _) E x Hx). }
    clear E. rename E' into E.
    destruct (lstrip s) as [|c r] eqn:El; [now apply lstrip_nil_iff|].
    apply lstrip_head in El. cbn [forallb] in E. now rewrite El in E.
  - intros Hs. apply lstrip_nil_iff in Hs. now rewrite Hs.
Qed.

Lemma blank_app (a b : str) :
  blank (a ++ b) = true -> blank a = true /\ blank b = true.
Proof.
  rewrite !blank_iff, forallb_app. apply andb_true_iff.
Qed.

Lemma stripped_blank_nil (t : str) :
  strip t = t -> blank t = true -> t = [].
Proof.
  unfold blank. intros E. destruct (strip t); [now symmetry | discriminate].
Qed.

Lemma span_not_blank (c : str) : is_span c -> blank c = false.
Proof.
  intros Hc. destruct (blank c) eqn:E; [|reflexivity].
  apply blank_iff in E.
  destruct Hc as [[inner [-> _]]|[inner [-> _]]]; discriminate E.
Qed.

Lemma rejoin_blank (t : str) (segs : list segment) :
  decomposes t segs -> blank (rejoin segs) = true -> rejoin segs = [].
Proof.
  induction 1 as [g Hg|g c rest segs Hg Hc Hd IH]; unfold rejoin;
    cbn [flat_map].
  - rewrite app_nil_r. apply stripped_blank_nil, strip_idem.
  - fold (rejoin segs). intros Hb. apply blank_app in Hb.
    destruct Hb as [_ Hb]. apply blank_app in Hb. destruct Hb as [Hb _].
    now rewrite (span_not_blank c Hc) in Hb.
Qed.

Context `{UnicodeDB}.

Lemma normalized_blank_nil (s : str) :
  blank (normalize_text_code_safe s) = true -> normalize_text_code_safe s = [].
Proof.
  destruct (decomposes_total (length (sanitize_text s)) (sanitize_text s))
    as [segs Hd]; [lia|].
  assert (E : normalize_text_code_safe s = rejoin segs)
    by exact (code_safe_loop_rejoin _ _ Hd [] []).
  rewrite E. apply (rejoin_blank _ _ Hd).
Qed.

(** X17. Text that comes out of the normaliser is either empty or holds a
    character that is not white space: white space alone never comes
    out. *)
Theorem normalized_text_blank_iff_empty (s : str) :
  blank (normalize_text_code_safe s) = true
  <-> normalize_text_code_safe s = [].
Proof.
  split; [apply normalized_blank_nil|]. now intros ->.
Qed.

Variable w : World.

Lemma bind_ok (A B : Type) (r : result A) (k : A -> result B) (b : B) :
  bind r k = Ok b -> exists a, r = Ok a /\ k a = Ok b.
Proof. destruct r as [a| |]; cbn [bind]; [now exists a | discriminate..]. Qed.

Lemma reraise_shape (A : Type) (r : result A) (P : A -> Prop) :
  ends r -> (forall a, r = Ok a -> P a) ->
  match reraise r with
  | Ok a => P a
  | Raise (ExtractionError m) => exists m', m = U "Reason: " ++ m'
  | _ => False
  end.
Proof.
  destruct r as [a|e|]; cbn.
  - intros _ HP. now apply HP.
  - intros _ _. now exists (exn_msg e).
  - intros [].
Qed.

Lemma html_ok (html t : str) :
  _html_to_text_preserving_code w html = Ok t ->
  exists txt, t = normalize_text_code_safe txt.
Proof.
  unfold _html_to_text_preserving_code. intros E. apply bind_ok in E.
  destruct E as [txt [_ [= <-]]]. now exists txt.
Qed.

Lemma epub_parts_nonblank (items : list (str * str)) :
  forall parts, epub_parts w items = Ok parts ->
                Forall (fun t => blank t = false) parts.
Proof.
  induction items as [|[name body] items IH]; intros parts.
  - intros [= <-]. constructor.
  - cbn [epub_parts]. destruct (endswith _ _); [apply IH|].
    intros E. apply bind_ok in E. destruct E as [t [_ E]].
    apply bind_ok in E. destruct E as [ps [Eps E]].
    destruct (blank t) eqn:Eb; injection E as <-.
    + now apply IH.
    + constructor; [exact Eb | now apply IH].
Qed.

Lemma join_nonblank (sep : str) (parts : list str) :
  parts <> [] -> Forall (fun t => blank t = false) parts ->
  blank (join sep parts) = false.
Proof.
  intros Hne Hall. destruct parts as [|p ps]; [congruence|].
  apply Forall_inv in Hall. cbn [join]. destruct ps as [|q ps]; [exact Hall|].
  destruct (blank (p ++ sep ++ join sep (q :: ps))) eqn:E; [|reflexivity].
  apply blank_app in E. destruct E as [E _]. congruence.
Qed.

(** An extractor returns text that is not blank, the MOBI one apart, or
    raises an [ExtractionError] whose message begins with [Reason: ]. *)
Lemma run_extractor_shape (e : extractor) (file_path : str) :
  match run_extractor w e file_path with
  | Ok t => e = Mobi \/ blank t = false
  | Raise (ExtractionError m) => exists m', m = U "Reason: " ++ m'
  | _ => False
  end.
Proof.
  destruct e; cbn [run_extractor];
    [unfold extract_text_from_txt | unfold extract_text_from_pdf
     | unfold extract_text_from_epub | unfold extract_text_from_mobi];
    apply (reraise_shape _ _ (fun t => _ \/ blank t = false)).
  - apply ends_bind.
    + destruct (read_utf8 w file_path) as [[]|]; try exact I; apply ends_lift.
    + intros raw. now destruct (blank _).
  - intros t E. apply bind_ok in E. destruct E as [raw [_ E]].
    destruct (blank (normalize_text_code_safe raw)) eqn:Eb; [discriminate|].
    injection E as <-. now right.
  - apply ends_bind; [apply ends_lift|]. intros pages.
    now destruct (normalize_text_code_safe _).
  - intros t E. apply bind_ok in E. destruct E as [pages [_ E]].
    destruct (normalize_text_code_safe (concat pages)) as [|c r] eqn:En;
      [discriminate|].
    injection E as <-. right.
    destruct (blank (c :: r)) eqn:Eb; [|reflexivity].
    rewrite <- En in Eb. apply normalized_blank_nil in Eb. congruence.
  - apply ends_bind; [apply ends_lift|]. intros items.
    apply ends_bind; [apply ends_epub_parts|]. intros parts. now destruct parts.
  - intros t E. apply bind_ok in E. destruct E as [items [_ E]].
    apply bind_ok in E. destruct E as [parts [Ep E]].
    apply epub_parts_nonblank in Ep.
    destruct parts as [|p ps] eqn:Eps; [discriminate|].
    injection E as <-. right.
    exact (join_nonblank [10; 10] (p :: ps) ltac:(discriminate) Ep).
  - apply ends_bind; [apply ends_lift|]. intros files.
    apply ends_bind; [apply ends_mobi_parts|]. intros parts. now destruct parts.
  - intros t _. now left.
Qed.

(** X18. A failure reported for a file has one of three reasons: its
    type is not supported; the extracted text is blank, which only a MOBI
    can give, the other extractors refusing blank text themselves; or
    the extractor raised, and then the reason reads
    [ExtractionError: Reason: ...], also for the extractor's own
    messages. *)
Theorem failure_reasons (file_path id_prefix msg : str) :
  process_single_file w file_path id_prefix = Ok (file_path, Failure msg) ->
  let kind := lookup extractor_map (lower (snd (splitext (basename file_path)))) in
  (kind = None /\ msg = U "Unsupported file type")
  \/ (kind = Some Mobi /\ msg = U "Extracted text is empty.")
  \/ (exists e m, kind = Some e /\ run_extractor w e file_path
                                  = Raise (ExtractionError (U "Reason: " ++ m))
                  /\ msg = U "ExtractionError: Reason: " ++ m).
Proof.
  unfold process_single_file. cbv zeta.
  destruct (lookup extractor_map _) as [e|].
  2:{ intros [= <-]. now left. }
  pose proof (run_extractor_shape e file_path) as He.
  destruct (run_extractor w e file_path) as [extracted|[]|] eqn:Er;
    cbn iota beta in He; try contradiction; cbn [bind].
  - destruct (blank extracted) eqn:Eb.
    + intros [= <-]. right. left. destruct He as [->|He]; [now split | congruence].
    + unfold stable_hash, encode_utf8_strict.
      destruct (forallb scalar _); cbn [bind]; [|discriminate].
      destruct (generate_short_id_of_digest
                  (encode_utf8
                     (normalize_text_code_safe
                        (_normalize_title_from_path file_path)
                      ++ _stable_sample extracted 2000)) id_prefix 6)
        as [ds Hds].
      rewrite Hds. cbn [bind]. discriminate.
  - destruct He as [m ->]. intros [= <-]. right. right.
    exists e, m. repeat split. exact Er.
Qed.

End BlankText.

Section BlankTextRuns.
Import Extract.

Lemma failure_reasons_witness :
  let kind := lookup extractor_map
                (lower (UnicodeDB := ascii_db)
                   (snd (splitext (basename (U "/x/book.mobi"))))) in
  (kind = None /\ U "Extracted text is empty." = U "Unsupported file type")
  \/ (kind = Some Mobi
      /\ U "Extracted text is empty." = U "Extracted text is empty.")
  \/ (exists e m, kind = Some e
                  /\ run_extractor (H := ascii_db) blank_mobi_world e
                       (U "/x/book.mobi")
                     = Raise (ExtractionError (U "Reason: " ++ m))
                  /\ U "Extracted text is empty."
                     = U "ExtractionError: Reason: " ++ m).
Proof.
  apply (@failure_reasons ascii_db blank_mobi_world (U "/x/book.mobi")
           (U "DOC") (U "Extracted text is empty.")).
  vm_compute. reflexivity.
Defined.

End BlankTextRuns.

(** ** KnowledgeWriter: chunks *)

Section ChunkFacts.
Import Knowledge.
Variable A : Type.

Lemma chunks_of_nil (size : nat) : 0 < size -> chunks_of (@nil A) size = [].
Proof.
  intros Hs. unfold chunks_of, range_step. cbn [length].
  rewrite Nat.div_small by lia. reflexivity.
Qed.

Lemma chunk_count (n size : nat) :
  0 < size -> 0 < n ->
  (n + size - 1) / size = S ((n - size + size - 1) / size).
Proof.
  intros Hs Hn. destruct (Nat.le_gt_cases size n) as [Hle|Hlt].
  - replace (n + size - 1) with ((n - size + size - 1) + 1 * size) by lia.
    rewrite Nat.div_add by lia. lia.
  - replace (n + size - 1) with ((n - 1) + 1 * size) by lia.
    rewrite Nat.div_add by lia.
    replace (n - size + size - 1) with (size - 1) by lia.
    rewrite !Nat.div_small by lia. reflexivity.
Qed.

(** The first chunk is the first [size] items, the others are the chunks
    of what follows. *)
Lemma chunks_of_cons (l : list A) (size : nat) :
  0 < size -> l <> [] ->
  chunks_of l size = firstn size l :: chunks_of (skipn size l) size.
Proof.
  intros Hs Hl. unfold chunks_of, range_step.
  assert (Hn : 0 < length l) by (destruct l; [congruence | cbn; lia]).
  rewrite (chunk_count _ _ Hs Hn), length_skipn.
  set (k := (length l - size + size - 1) / size).
  cbn [seq map]. rewrite Nat.mul_0_l. cbn [skipn]. f_equal.
  rewrite <- seq_shift, !map_map. apply map_ext. intros j.
  rewrite skipn_skipn. do 2 f_equal. lia.
Qed.

Lemma chunks_of_shape (size : nat) (Hs : 0 < size) (n : nat) :
  forall l : list A, length l <= n ->
    concat (chunks_of l size) = l
    /\ Forall (fun c => c <> [] /\ length c <= size) (chunks_of l size)
    /\ Forall (fun c => length c = size) (removelast (chunks_of l size)).
Proof.
  induction n as [|n IH]; intros l Hn.
  - destruct l; [|cbn in Hn; lia]. rewrite (chunks_of_nil _ Hs).
    repeat split; constructor.
  - destruct l as [|a l]; [rewrite (chunks_of_nil _ Hs); repeat split; constructor|].
    rewrite (chunks_of_cons (a :: l) size Hs) by discriminate.
    destruct (IH (skipn size (a :: l))) as (H1 & H2 & H3).
    { rewrite length_skipn. cbn [length] in *. lia. }
    split; [|split].
    + cbn [concat]. rewrite H1. apply firstn_skipn.
    + constructor; [|exact H2]. split.
      * destruct size; [lia | discriminate].
      * rewrite length_firstn. lia.
    + destruct (chunks_of (skipn size (a :: l)) size) as [|c cs] eqn:Ec;
        [constructor|].
      change (removelast (firstn size (a :: l) :: c :: cs))
        with (firstn size (a :: l) :: removelast (c :: cs)).
      constructor; [|exact H3].
      rewrite length_firstn. apply Nat.min_l.
      destruct (Nat.le_gt_cases size (length (a :: l))) as [Hle|Hlt];
        [exact Hle|].
      rewrite skipn_all2 in Ec by lia.
      rewrite (chunks_of_nil _ Hs) in Ec. discriminate.
Qed.


End ChunkFacts.

Section FileChunks.
Import Knowledge.

(** X19. With a positive number of documents per file, the queue is cut
    into batches that, put end to end, are the queue again: every file is
    in exactly one batch, in its place.  No batch is empty or longer than
    the number asked for, and every batch but the last is full. *)
Theorem file_chunks_partition (file_paths : list str) (chunk_size : Z) :
  (0 < chunk_size)%Z ->
  exists chunks,
    file_chunks file_paths chunk_size = Ok chunks
    /\ concat chunks = file_paths
    /\ Forall (fun c => c <> [] /\ (Z.of_nat (length c) <= chunk_size)%Z) chunks
    /\ Forall (fun c => Z.of_nat (length c) = chunk_size) (removelast chunks).
Proof.
  intros Hs. unfold file_chunks.
  destruct (Z.eqb_spec chunk_size 0) as [|_]; [lia|].
  destruct (Z.ltb_spec chunk_size 0) as [|_]; [lia|].
  eexists. split; [reflexivity|].
  destruct (chunks_of_shape str (Z.to_nat chunk_size) ltac:(lia)
              (length file_paths) file_paths (le_n _)) as (H1 & H2 & H3).
  split; [exact H1|]. split.
  - eapply Forall_impl; [|exact H2]. cbn beta. intros c [Hc Hl]. split; [exact Hc | lia].
  - eapply Forall_impl; [|exact H3]. cbn beta. intros c Hc. lia.
Qed.

Lemma file_chunks_partition_witness :
  exists chunks,
    file_chunks [U "a.txt"; U "b.txt"; U "c.txt"; U "d.txt"; U "e.txt"] 2
    = Ok chunks
    /\ concat chunks = [U "a.txt"; U "b.txt"; U "c.txt"; U "d.txt"; U "e.txt"]
    /\ Forall (fun c => c <> [] /\ (Z.of_nat (length c) <= 2)%Z) chunks
    /\ Forall (fun c => Z.of_nat (length c) = 2%Z) (removelast chunks).
Proof.
  apply (file_chunks_partition
           [U "a.txt"; U "b.txt"; U "c.txt"; U "d.txt"; U "e.txt"] 2).
  reflexivity.
Defined.

End FileChunks.

(** ** KnowledgeWriter: the order of a batch *)

Section BatchOrder.
Import Extract Knowledge.
Context `{UnicodeDB}.
Variable w : World.
Variable id_prefix : str.















End BatchOrder.

Section WorkerOutput.
Import Extract Knowledge.
Context `{UnicodeDB}.
Variable w : World.


End WorkerOutput.

Section WorkerOutputRuns.
Import Extract Knowledge.


End WorkerOutputRuns.

(** ** KnowledgeWriter: long lines *)

Section SoftWrap.
Import Knowledge.
Local Open Scope N_scope.

Let not_newline (c : N) : bool := negb (c =? LF).

Lemma split_lines_nonempty (s : str) : split_lines s <> [].
Proof.
  destruct s as [|c r]; cbn [split_lines]; [discriminate|].
  destruct (c =? LF); [discriminate|]. now destruct (split_lines r).
Qed.

Lemma split_lines_app (a b : str) :
  split_lines (a ++ LF :: b) = split_lines a ++ split_lines b.
Proof.
  induction a as [|c a IH]; [reflexivity|]. cbn [app split_lines].
  destruct (c =? LF); [now rewrite IH|]. rewrite IH.
  pose proof (split_lines_nonempty a) as Hne.
  now destruct (split_lines a).
Qed.

Lemma split_lines_one (l : str) : ~ In LF l -> split_lines l = [l].
Proof.
  induction l as [|c l IH]; intros Hn; [reflexivity|]. cbn [split_lines].
  destruct (N.eqb_spec c LF) as [->|_]; [exfalso; apply Hn; now left|].
  rewrite IH; [reflexivity|]. intros Hi. apply Hn. now right.
Qed.

Lemma split_lines_join (ls : list str) :
  ls <> [] -> Forall (fun l => ~ In LF l) ls ->
  split_lines (join [LF] ls) = ls.
Proof.
  induction ls as [|p ps IH]; intros Hne Hall; [congruence|].
  apply Forall_cons_iff in Hall. destruct Hall as [Hp Hps].
  destruct ps as [|q ps]; [now apply split_lines_one|].
  change (join [LF] (p :: q :: ps)) with (p ++ LF :: join [LF] (q :: ps)).
  rewrite split_lines_app, (split_lines_one p Hp), IH;
    [reflexivity | discriminate | exact Hps].
Qed.

Lemma filter_join (ls : list str) :
  filter not_newline (join [LF] ls) = filter not_newline (concat ls).
Proof.
  induction ls as [|p ps IH]; [reflexivity|].
  destruct ps as [|q ps]; [cbn [join concat]; now rewrite app_nil_r|].
  change (join [LF] (p :: q :: ps)) with (p ++ LF :: join [LF] (q :: ps)).
  cbn [concat] in *.
  rewrite (filter_app _ p (LF :: _)), (filter_app _ p (q ++ _)), <- IH.
  reflexivity.
Qed.

Variable width : nat.
Hypothesis width_pos : (0 < width)%nat.

Lemma wrap_run_lines (run : str) :
  ~ In LF run ->
  Forall (fun l => (length l <= width)%nat) (split_lines (wrap_run width run)).
Proof.
  intros Hn. unfold wrap_run.
  destruct (Nat.leb_spec width (length run)) as [Hle|Hlt].
  - destruct (chunks_of_shape N width width_pos (length run) run (le_n _))
      as (H1 & H2 & _).
    rewrite split_lines_join.
    + eapply Forall_impl; [|exact H2]. cbn beta. now intros l [_ Hl].
    + destruct run as [|c run]; [cbn [length] in Hle; lia|].
      rewrite (chunks_of_cons N (c :: run) width width_pos) by discriminate.
      discriminate.
    + apply Forall_forall. intros l Hl Hi. apply Hn. rewrite <- H1.
      apply in_concat. now exists l.
  - rewrite (split_lines_one run Hn). constructor; [lia | constructor].
Qed.

Lemma wrap_run_filter (run : str) :
  filter not_newline (wrap_run width run) = filter not_newline run.
Proof.
  unfold wrap_run. destruct (width <=? length run)%nat; [|reflexivity].
  rewrite filter_join.
  now rewrite (proj1 (chunks_of_shape N width width_pos (length run) run
                        (le_n _))).
Qed.

Lemma wrap_run_short (run : str) :
  (length run <= width)%nat -> wrap_run width run = run.
Proof.
  intros Hl. unfold wrap_run.
  destruct (Nat.leb_spec width (length run)) as [Hle|Hlt]; [|reflexivity].
  assert (E : length run = width) by lia.
  destruct run as [|c run]; [cbn [length] in E; lia|].
  rewrite (chunks_of_cons N (c :: run) width width_pos) by discriminate.
  rewrite <- E, firstn_all, skipn_all, E.
  now rewrite (chunks_of_nil N width width_pos).
Qed.

Lemma soft_wrap_go_lines (s : str) :
  forall run, ~ In LF run ->
    Forall (fun l => (length l <= width)%nat)
           (split_lines (soft_wrap_go width run s)).
Proof.
  induction s as [|c r IH]; intros run Hn; cbn [soft_wrap_go].
  - now apply wrap_run_lines.
  - destruct (N.eqb_spec c LF) as [->|Hc].
    + rewrite split_lines_app. apply Forall_app. split.
      * now apply wrap_run_lines.
      * apply IH. intros [].
    + apply IH. intros Hi. apply in_app_or in Hi.
      destruct Hi as [Hi|[Hi|[]]]; [now apply Hn | congruence].
Qed.

Lemma soft_wrap_go_filter (s : str) :
  forall run, filter not_newline (soft_wrap_go width run s)
              = filter not_newline (run ++ s).
Proof.
  induction s as [|c r IH]; intros run; cbn [soft_wrap_go].
  - now rewrite wrap_run_filter, app_nil_r.
  - destruct (N.eqb_spec c LF) as [->|Hc].
    + rewrite !filter_app, wrap_run_filter. f_equal.
      cbn [filter]. unfold not_newline at 1 3. rewrite N.eqb_refl. cbn [negb].
      exact (IH []).
    + rewrite IH, <- app_assoc. reflexivity.
Qed.

Lemma soft_wrap_go_fixed (s : str) :
  forall run, ~ In LF run ->
    Forall (fun l => (length l <= width)%nat) (split_lines (run ++ s)) ->
    soft_wrap_go width run s = run ++ s.
Proof.
  induction s as [|c r IH]; intros run Hn Hall; cbn [soft_wrap_go].
  - rewrite app_nil_r in *. rewrite (split_lines_one run Hn) in Hall.
    apply Forall_inv in Hall. now apply wrap_run_short.
  - destruct (N.eqb_spec c LF) as [->|Hc].
    + rewrite split_lines_app, (split_lines_one run Hn) in Hall.
      cbn [app] in Hall. apply Forall_cons_iff in Hall.
      destruct Hall as [Hr Hall].
      rewrite (wrap_run_short run Hr). do 2 f_equal.
      apply (IH []); [intros [] | exact Hall].
    + rewrite IH; [now rewrite <- app_assoc| |now rewrite <- app_assoc].
      intros Hi. apply in_app_or in Hi.
      destruct Hi as [Hi|[Hi|[]]]; [now apply Hn | congruence].
Qed.

End SoftWrap.

Section SoftWrapLines.
Import Knowledge.
Local Open Scope N_scope.

Lemma WRAP_pos : (0 < WRAP)%nat.
Proof. unfold WRAP. lia. Qed.

(** X21. In the text of a document as written, no line has more than
    10000 characters.  Wrapping only adds newlines: every other character
    stays, in its place.  The texts it leaves unchanged are exactly those
    whose lines have at most 10000 characters. *)
Theorem soft_wrap_lines (s : str) :
  Forall (fun l => (length l <= WRAP)%nat) (split_lines (soft_wrap s))
  /\ filter (fun c => negb (c =? LF)) (soft_wrap s)
     = filter (fun c => negb (c =? LF)) s
  /\ (soft_wrap s = s
      <-> Forall (fun l => (length l <= WRAP)%nat) (split_lines s)).
Proof.
  unfold soft_wrap. split; [|split].
  - apply (soft_wrap_go_lines WRAP WRAP_pos). intros [].
  - exact (soft_wrap_go_filter WRAP WRAP_pos s []).
  - split.
    + intros E. rewrite <- E.
      apply (soft_wrap_go_lines WRAP WRAP_pos). intros [].
    + intros Hall.
      apply (soft_wrap_go_fixed WRAP WRAP_pos s []); [intros [] | exact Hall].
Qed.

End SoftWrapLines.

(** ** KnowledgeWriter and ReferenceIndexer: reading the table of contents *)

Section TocReadBack.
Import Extract Knowledge RefIndex.
Local Open Scope N_scope.








Context `{UnicodeDB}.
Variable w : World.



End TocReadBack.

Section TocReadBackRuns.
Import Extract Knowledge RefIndex.


End TocReadBackRuns.

(** ** The document queue: no path twice, no name twice *)

Section QueueFacts.
Import Queue.

Lemma str_in_In (f : str) (q : list str) : str_in f q = true <-> In f q.
Proof.
  unfold str_in. rewrite existsb_exists. split.
  - intros [x [Hx E]]. apply str_eqb_eq in E. now subst.
  - intros Hf. exists f. split; [exact Hf | apply str_eqb_refl].
Qed.

Lemma lookup_absent (V : Type) (d : list (str * V)) (k : str) :
  ~ In k (map fst d) -> lookup d k = None.
Proof.
  induction d as [|[k0 v0] d IH]; cbn [lookup map fst In]; [reflexivity|].
  intros Hn. destruct (str_eqb k0 k) eqn:E.
  - apply str_eqb_eq in E. subst. exfalso. apply Hn. now left.
  - apply IH. intros Hi. apply Hn. now right.
Qed.

Lemma lookup_present (V : Type) (d : list (str * V)) (k : str) (v : V) :
  lookup d k = Some v -> In k (map fst d).
Proof.
  intros E. destruct (in_dec (list_eq_dec N.eq_dec) k (map fst d)) as [Hi|Hn];
    [exact Hi|].
  rewrite (lookup_absent V d k Hn) in E. discriminate.
Qed.

Lemma NoDup_snoc (A : Type) (q : list A) (f : A) :
  NoDup q -> ~ In f q -> NoDup (q ++ [f]).
Proof.
  intros Hq Hf. apply (Permutation_NoDup (Permutation_cons_append q f)).
  now constructor.
Qed.

(** A loop that appends only what the queue does not hold keeps it free
    of repeated paths. *)
Lemma fold_append_NoDup (step : list str -> str -> list str) :
  (forall q f, step q f = q \/ (step q f = q ++ [f] /\ ~ In f q)) ->
  forall l q, NoDup q -> NoDup (fold_left step l q).
Proof.
  intros Hstep. induction l as [|f l IH]; intros q Hq; [exact Hq|].
  cbn [fold_left]. apply IH.
  destruct (Hstep q f) as [->|[-> Hf]]; [exact Hq | now apply NoDup_snoc].
Qed.

Lemma add_files_NoDup (q files : list str) :
  NoDup q -> NoDup (add_files q files).
Proof.
  apply fold_append_NoDup. intros q' f.
  destruct (str_in f q') eqn:E; [now left|]. right. split; [reflexivity|].
  intros Hi. apply str_in_In in Hi. congruence.
Qed.

Lemma add_files_In (files : list str) :
  forall q f, In f (add_files q files) <-> In f q \/ In f files.
Proof.
  unfold add_files. induction files as [|g files IH]; intros q f;
    cbn [fold_left In]; [tauto|].
  rewrite IH. destruct (str_in g q) eqn:E.
  - apply str_in_In in E. split; [tauto|].
    intros [Hq|[<-|Hf]]; tauto.
  - rewrite in_app_iff. cbn [In]. tauto.
Qed.

Lemma import_queue_NoDup (exists_ : str -> bool) (file : exn + bytes)
      (q : list str) :
  NoDup q -> NoDup (import_queue exists_ file q).
Proof.
  unfold import_queue. destruct file as [e|content]; [trivial|].
  apply fold_append_NoDup. intros q' f.
  destruct (exists_ f); cbn [andb]; [|now left].
  destruct (str_in f q') eqn:E; [now left|]. right. split; [reflexivity|].
  intros Hi. apply str_in_In in Hi. congruence.
Qed.

Context `{UnicodeDB}.

Let step (st : list (str * str) * list str) (f : str)
  : list (str * str) * list str :=
  let (seen, duplicates) := st in
  match lookup seen (name_key f) with
  | Some _ => (seen, duplicates ++ [f])
  | None => (seen ++ [(name_key f, f)], duplicates)
  end.

(** What the scan adds to [seen] and to [duplicates]. *)
Lemma scan_spec (q : list str) :
  forall seen dups, exists added more,
    fold_left step q (seen, dups) = (seen ++ added, dups ++ more)
    /\ Forall (fun kf => fst kf = name_key (snd kf) /\ In (snd kf) q) added
    /\ (NoDup (map fst seen) -> NoDup (map fst (seen ++ added)))
    /\ (forall f, In f q -> In (name_key f) (map fst (seen ++ added)))
    /\ (more = [] -> added = map (fun f => (name_key f, f)) q)
    /\ (forall pre f post,
          q = pre ++ f :: post ->
          ~ In (name_key f) (map fst seen) ->
          ~ In (name_key f) (map name_key pre) ->
          In (name_key f, f) added).
Proof.
  induction q as [|g q IH]; intros seen dups.
  - exists [], []. rewrite !app_nil_r. repeat split; auto.
    + intros f [].
    + intros pre f post E. destruct pre; discriminate.
  - cbn [fold_left]. unfold step at 2.
    destruct (lookup seen (name_key g)) as [v|] eqn:El.
    + destruct (IH seen (dups ++ [g]))
        as [added [more (E & Ha & Hb & Hc & Hd & He)]].
      exists added, (g :: more). repeat split.
      * rewrite E, <- app_assoc. reflexivity.
      * eapply Forall_impl; [|exact Ha]. cbn beta.
        intros kf [H1 H2]. split; [exact H1 | now right].
      * exact Hb.
      * intros f [<-|Hf]; [|now apply Hc].
        rewrite map_app. apply in_or_app. left.
        exact (lookup_present _ _ _ _ El).
      * discriminate.
      * intros pre f post E' Hs Hp. destruct pre as [|g' pre].
        -- cbn [app] in E'. injection E' as -> _.
           exfalso. apply Hs. exact (lookup_present _ _ _ _ El).
        -- cbn [app] in E'. injection E' as -> E'.
           apply (He pre f post E' Hs). intros Hi. apply Hp. now right.
    + destruct (IH (seen ++ [(name_key g, g)]) dups)
        as [added [more (E & Ha & Hb & Hc & Hd & He)]].
      rewrite <- app_assoc in E, Hb, Hc. cbn [app] in E, Hb, Hc.
      exists ((name_key g, g) :: added), more. repeat split.
      * exact E.
      * constructor; [split; [reflexivity | now left]|].
        eapply Forall_impl; [|exact Ha]. cbn beta.
        intros kf [H1 H2]. split; [exact H1 | now right].
      * intros Hnd. apply Hb. rewrite map_app. cbn [map fst].
        apply NoDup_snoc; [exact Hnd | exact (lookup_None_keys _ _ _ El)].
      * intros f [<-|Hf]; [|now apply Hc].
        rewrite map_app. apply in_or_app. right. now left.
      * intros Hm. cbn [map]. f_equal. now apply Hd.
      * intros pre f post E' Hs Hp. destruct pre as [|g' pre].
        -- cbn [app] in E'. injection E' as -> _. now left.
        -- cbn [app] in E'. injection E' as -> E'. right.
           apply (He pre f post E').
           ++ rewrite map_app. cbn [map fst]. intros Hi.
              apply in_app_or in Hi. destruct Hi as [Hi|[Hi|[]]];
                [now apply Hs|]. apply Hp. left. exact Hi.
           ++ intros Hi. apply Hp. now right.
Qed.

Lemma added_names (added : list (str * str)) (q : list str) :
  Forall (fun kf => fst kf = name_key (snd kf) /\ In (snd kf) q) added ->
  map name_key (map snd added) = map fst added.
Proof.
  induction 1 as [|kf added [Hk _] _ IH]; [reflexivity|].
  cbn [map]. now rewrite IH, Hk.
Qed.

(** A queue in which no name repeats has no duplicates. *)
Lemma scan_distinct (q : list str) :
  forall seen dups,
    NoDup (map name_key q) ->
    (forall f, In f q -> ~ In (name_key f) (map fst seen)) ->
    snd (fold_left step q (seen, dups)) = dups.
Proof.
  induction q as [|g q IH]; intros seen dups Hnd Hs; [reflexivity|].
  cbn [fold_left]. unfold step at 2.
  rewrite (lookup_absent _ seen (name_key g) (Hs g (or_introl eq_refl))).
  cbn [map] in Hnd. apply NoDup_cons_iff in Hnd. destruct Hnd as [Hg Hnd].
  apply IH; [exact Hnd|]. intros f Hf. rewrite map_app. cbn [map fst].
  intros Hi. apply in_app_or in Hi. destruct Hi as [Hi|[Hi|[]]].
  - apply (Hs f); [now right | exact Hi].
  - apply Hg. rewrite Hi. now apply in_map.
Qed.

Lemma check_distinct (r : list str) (confirm : bool) :
  NoDup (map name_key r) -> check_for_duplicates r confirm = r.
Proof.
  intros Hnd. unfold check_for_duplicates. destruct r as [|g r]; [reflexivity|].
  pose proof (scan_distinct (g :: r) [] [] Hnd (fun f _ Hi => Hi)) as Hd.
  change (scan_duplicates (g :: r)) with (fold_left step (g :: r) ([], [])).
  destruct (fold_left step (g :: r) ([], [])) as [seen dups].
  cbn [snd] in Hd. now subst dups.
Qed.

Lemma check_for_duplicates_spec (q : list str) :
  let r := check_for_duplicates q true in
  NoDup (map name_key r)
  /\ (forall f, In f r -> In f q)
  /\ (forall f, In f q -> In (name_key f) (map name_key r))
  /\ (forall pre f post,
        q = pre ++ f :: post -> ~ In (name_key f) (map name_key pre) ->
        In f r).
Proof.
  cbv zeta. unfold check_for_duplicates.
  destruct q as [|g q].
  { cbn [map]. repeat split;
      [constructor | intros f [] | intros f []
       | intros pre f post E; destruct pre; discriminate]. }
  change (scan_duplicates (g :: q)) with (fold_left step (g :: q) ([], [])).
  destruct (scan_spec (g :: q) [] [])
    as [added [more (E & Ha & Hb & Hc & Hd & He)]].
  rewrite E. cbn [app] in *.
  specialize (Hb (NoDup_nil _)).
  destruct more as [|m more].
  - specialize (Hd eq_refl). subst added.
    rewrite map_map in Hb. cbn [fst] in Hb. repeat split.
    + exact Hb.
    + trivial.
    + intros f Hf. now apply in_map.
    + intros pre f post -> _. apply in_or_app. right. now left.
  - repeat split.
    + now rewrite (added_names added (g :: q) Ha).
    + intros f Hf. apply in_map_iff in Hf. destruct Hf as [kf [<- Hkf]].
      rewrite Forall_forall in Ha. exact (proj2 (Ha kf Hkf)).
    + intros f Hf. rewrite (added_names added (g :: q) Ha). now apply Hc.
    + intros pre f post E' Hp.
      apply in_map_iff. exists (name_key f, f). split; [reflexivity|].
      apply (He pre f post E'); [intros [] | exact Hp].
Qed.

(** X23. The queue never holds a path twice: adding files, importing a
    queue file and removing duplicates all keep it free of repeated
    paths.  Adding puts in exactly the picked files that are not yet
    queued. *)
Theorem queue_without_repeats (q : list str) :
  NoDup q ->
  (forall files,
      NoDup (add_files q files)
      /\ forall f, In f (add_files q files) <-> In f q \/ In f files)
  /\ (forall exists_ file, NoDup (import_queue exists_ file q))
  /\ (forall confirm, NoDup (check_for_duplicates q confirm)).
Proof.
  intros Hq. split; [|split].
  - intros files. split; [now apply add_files_NoDup | apply add_files_In].
  - intros exists_ file. now apply import_queue_NoDup.
  - intros [|].
    + apply (NoDup_map_inv name_key). apply check_for_duplicates_spec.
    + unfold check_for_duplicates. destruct q as [|g q]; [constructor|].
      destruct (scan_duplicates (g :: q)) as [seen [|d dups]]; exact Hq.
Qed.

(** X24. Removing duplicates leaves one file for each file name, case
    apart: no two files of the queue share a name afterwards, every name
    of the queue is still there, and the file kept for a name is the
    first one queued with it; nothing else comes in.  Doing it again
    changes nothing, a queue without repeated names is left as it is, and
    so is any queue when the removal is declined. *)
Theorem check_for_duplicates_keeps_first (q : list str) :
  let r := check_for_duplicates q true in
  NoDup (map name_key r)
  /\ (forall f, In f r -> In f q)
  /\ (forall f, In f q -> In (name_key f) (map name_key r))
  /\ (forall pre f post,
        q = pre ++ f :: post -> ~ In (name_key f) (map name_key pre) ->
        In f r)
  /\ check_for_duplicates r true = r
  /\ (NoDup (map name_key q) -> r = q)
  /\ check_for_duplicates q false = q.
Proof.
  cbv zeta. destruct (check_for_duplicates_spec q) as (H1 & H2 & H3 & H4).
  repeat split; try assumption.
  - now apply check_distinct.
  - apply check_distinct.
  - unfold check_for_duplicates. destruct q as [|g q]; [reflexivity|].
    now destruct (scan_duplicates (g :: q)) as [seen [|d dups]].
Qed.

End QueueFacts.

Section QueueRuns.
Import Queue.

Lemma queue_without_repeats_witness :
  (forall files,
      NoDup (add_files [U "/a/x.txt"; U "/b/X.TXT"] files)
      /\ forall f, In f (add_files [U "/a/x.txt"; U "/b/X.TXT"] files)
                   <-> In f [U "/a/x.txt"; U "/b/X.TXT"] \/ In f files)
  /\ (forall exists_ file,
         NoDup (import_queue exists_ file [U "/a/x.txt"; U "/b/X.TXT"]))
  /\ (forall confirm,
         NoDup (check_for_duplicates (H := ascii_db)
                  [U "/a/x.txt"; U "/b/X.TXT"] confirm)).
Proof.
  apply (@queue_without_repeats ascii_db [U "/a/x.txt"; U "/b/X.TXT"]).
  repeat constructor; cbn [In]; intuition discriminate.
Defined.

End QueueRuns.

(** ** The document queue: export and import *)

Section QueueFile.
Import Queue Knowledge.
Local Open Scope N_scope.

Lemma decode_encode_scalar (s : str) :
  forallb scalar s = true -> decode_utf8_ignore (encode_utf8 s) = s.
Proof.
  intros Hs. unfold decode_utf8_ignore. induction s as [|c s IH];
    [reflexivity|].
  cbn [forallb] in Hs. apply andb_true_iff in Hs. destruct Hs as [Hc Hs].
  rewrite encode_utf8_cons, (decode_encoded_char c _ Hc). f_equal.
  now apply IH.
Qed.

Lemma replace_crlf_absent (s : str) :
  ~ In CR s -> replace s [CR; LF] [LF] = s.
Proof.
  induction s as [|c r IH]; intros Hn; [reflexivity|].
  rewrite replace_crlf_miss.
  - f_equal. apply IH. intros Hi. apply Hn. now right.
  - rewrite startswith_cons. destruct (N.eqb_spec CR c) as [<-|_];
      [exfalso; apply Hn; now left | reflexivity].
Qed.

Lemma join_all (P : N -> Prop) (ps : list str) :
  P LF -> Forall (fun p => forall c, In c p -> P c) ps ->
  forall c, In c (join [LF] ps) -> P c.
Proof.
  intros HL. induction 1 as [|p ps Hp _ IH]; [intros c []|].
  destruct ps as [|p' ps]; [exact Hp|].
  change (join [LF] (p :: p' :: ps)) with (p ++ LF :: join [LF] (p' :: ps)).
  intros c Hc. apply in_app_or in Hc. destruct Hc as [Hc|[<-|Hc]];
    [now apply Hp | exact HL | now apply IH].
Qed.

Lemma file_lines_go_run (p : str) :
  ~ In LF p ->
  forall cur rest, file_lines_go cur (p ++ rest) = file_lines_go (cur ++ p) rest.
Proof.
  induction p as [|c p IH]; intros Hn cur rest.
  - now rewrite app_nil_r.
  - cbn [app file_lines_go].
    destruct (N.eqb_spec c LF) as [->|_]; [exfalso; apply Hn; now left|].
    rewrite IH; [now rewrite <- app_assoc|]. intros Hi. apply Hn. now right.
Qed.

Lemma strip_newline (p : str) :
  strip p = p -> p <> [] -> strip (p ++ [LF]) = p.
Proof.
  intros Hs Hne. pose proof (strip_ends p) as [Hh _]. rewrite Hs in Hh.
  destruct p as [|c r]; [congruence|].
  assert (Hl : lstrip (c :: r) = c :: r) by now apply lstrip_fixed.
  assert (Hr : rstrip (c :: r) = c :: r).
  { unfold strip in Hs. now rewrite Hl in Hs. }
  unfold strip. rewrite (lstrip_fixed ((c :: r) ++ [LF])) by exact Hh.
  unfold rstrip in *. rewrite rev_app_distr. cbn [rev app lstrip].
  replace (isspace LF) with true by reflexivity. exact Hr.
Qed.

Lemma stripped_not_blank (p : str) :
  strip p = p -> p <> [] -> Extract.blank p = false.
Proof.
  intros Hs Hne. unfold Extract.blank. rewrite Hs. now destruct p.
Qed.

(** What is read from a list of paths written one to a line. *)
Lemma read_back_lines (ps : list str) :
  Forall (fun p => p <> [] /\ strip p = p /\ ~ In LF p) ps ->
  filter (fun l => negb (Extract.blank l))
         (map strip (file_lines_go [] (join [LF] ps)))
  = ps.
Proof.
  induction 1 as [|p ps (Hne & Hs & Hn) _ IH]; [reflexivity|].
  destruct ps as [|p' ps].
  - cbn [join]. rewrite <- (app_nil_r p) at 1.
    rewrite (file_lines_go_run p Hn [] []). cbn [app file_lines_go].
    destruct p as [|c r]; [congruence|]. cbn [map filter].
    now rewrite Hs, (stripped_not_blank _ Hs Hne).
  - change (join [LF] (p :: p' :: ps)) with (p ++ LF :: join [LF] (p' :: ps)).
    rewrite (file_lines_go_run p Hn [] _). cbn [app file_lines_go].
    rewrite N.eqb_refl. cbn [map filter].
    rewrite (strip_newline p Hs Hne), (stripped_not_blank _ Hs Hne).
    cbn [negb]. now rewrite IH.
Qed.

Section Loop.
Variable exists_ : str -> bool.

Let step (q : list str) (file_path : str) : list str :=
  if exists_ file_path && negb (str_in file_path q)
  then q ++ [file_path] else q.

Lemma import_loop_new (l : list str) :
  forall acc, NoDup (acc ++ l) -> Forall (fun p => exists_ p = true) l ->
              fold_left step l acc = acc ++ l.
Proof.
  induction l as [|f l IH]; intros acc Hnd Hex; [now rewrite app_nil_r|].
  apply Forall_cons_iff in Hex. destruct Hex as [Hf Hex].
  cbn [fold_left]. unfold step at 2. rewrite Hf.
  assert (Hn : str_in f acc = false).
  { destruct (str_in f acc) eqn:E; [|reflexivity]. apply str_in_In in E.
    apply NoDup_remove_2 in Hnd. exfalso. apply Hnd.
    apply in_or_app. now left. }
  rewrite Hn. cbn [andb negb].
  rewrite IH; [now rewrite <- app_assoc | now rewrite <- app_assoc | exact Hex].
Qed.

Lemma import_loop_old (l : list str) :
  forall q, (forall f, In f l -> In f q) -> fold_left step l q = q.
Proof.
  induction l as [|f l IH]; intros q Hin; [reflexivity|].
  cbn [fold_left]. unfold step at 2.
  rewrite (proj2 (str_in_In f q) (Hin f (or_introl eq_refl))).
  rewrite andb_false_r. apply IH. intros g Hg. apply Hin. now right.
Qed.

End Loop.

(** X25. A queue written by the export and read by the import comes back:
    into an empty queue it gives the queue sorted by file name, and into
    the queue it was exported from it adds nothing.  This holds for a
    queue of files that still exist and whose paths are not empty, have
    no white space at either end, no line ending inside, and no
    surrogate. *)
Theorem export_import_round_trip (exists_ : str -> bool) (q : list str) :
  q <> [] -> NoDup q ->
  Forall (fun p => p <> [] /\ strip p = p /\ ~ In LF p /\ ~ In CR p
                   /\ forallb scalar p = true /\ exists_ p = true) q ->
  exists content,
    export_queue q = Some (Ok content)
    /\ import_queue exists_ (inr content) [] = sorted basename_leb q
    /\ import_queue exists_ (inr content) q = q.
Proof.
  intros Hne Hnd Hgood.
  pose proof (sorted_perm _ basename_leb q) as Hperm.
  set (sq := sorted basename_leb q) in *.
  assert (Hsq : Forall (fun p => p <> [] /\ strip p = p /\ ~ In LF p
                                 /\ ~ In CR p /\ forallb scalar p = true
                                 /\ exists_ p = true) sq).
  { apply Forall_forall. intros p Hp. rewrite Forall_forall in Hgood.
    apply Hgood. exact (Permutation_in p (Permutation_sym Hperm) Hp). }
  assert (Hscalar : forallb scalar (join [LF] sq) = true).
  { apply forallb_forall.
    apply (join_all (fun c => scalar c = true)); [reflexivity|].
    eapply Forall_impl; [|exact Hsq]. cbn beta.
    intros p (_ & _ & _ & _ & Hp & _) c Hc.
    exact (proj1 (forallb_forall _ _) Hp c Hc). }
  assert (Hcr : ~ In CR (join [LF] sq)).
  { intros Hi.
    refine (join_all (fun c => c <> CR) sq _ _ CR Hi eq_refl);
      [discriminate|].
    eapply Forall_impl; [|exact Hsq]. cbn beta.
    intros p (_ & _ & _ & Hp & _) c Hc ->. now apply Hp. }
  assert (Hread : filter (fun l => negb (Extract.blank l))
                         (map strip (read_lines (encode_utf8 (join [LF] sq))))
                  = sq).
  { unfold read_lines. rewrite (decode_encode_scalar _ Hscalar).
    rewrite (replace_crlf_absent _ Hcr), (replace_absent _ CR LF Hcr).
    apply read_back_lines. eapply Forall_impl; [|exact Hsq]. cbn beta.
    intros p (H1 & H2 & H3 & _). auto. }
  exists (encode_utf8 (join [LF] sq)). split; [|split].
  - unfold export_queue, write_utf8. destruct q as [|f q]; [congruence|].
    fold sq. now rewrite Hscalar.
  - unfold import_queue. rewrite Hread.
    apply (import_loop_new exists_ sq []).
    + cbn [app]. exact (Permutation_NoDup Hperm Hnd).
    + eapply Forall_impl; [|exact Hsq]. cbn beta. now intros p (_ & _ & _ & _ & _ & Hp).
  - unfold import_queue. rewrite Hread.
    apply (import_loop_old exists_ sq q). intros f Hf.
    exact (Permutation_in f (Permutation_sym Hperm) Hf).
Qed.

End QueueFile.

Section QueueFileRuns.
Import Queue Knowledge.
Local Open Scope N_scope.

Lemma export_import_round_trip_witness :
  exists content,
    export_queue [U "/b/beta.txt"; U "/a/alpha.md"] = Some (Ok content)
    /\ import_queue (fun _ => true) (inr content) []
       = sorted basename_leb [U "/b/beta.txt"; U "/a/alpha.md"]
    /\ import_queue (fun _ => true) (inr content)
         [U "/b/beta.txt"; U "/a/alpha.md"]
       = [U "/b/beta.txt"; U "/a/alpha.md"].
Proof.
  apply (export_import_round_trip (fun _ => true)
           [U "/b/beta.txt"; U "/a/alpha.md"]).
  - discriminate.
  - repeat constructor; cbn [In]; intuition discriminate.
  - repeat constructor; try discriminate; try reflexivity;
      vm_compute; intuition discriminate.
Defined.

End QueueFileRuns.

(** ** BundleEncoder: the index and the sections *)

Section IndexAndSections.
Import Bundle.
Context `{UnicodeDB}.
Variable sha1_hexdigest : bytes -> str.

Lemma slice_to_nil (k : Z) : slice_to [] k = [].
Proof. unfold slice_to. destruct (0 <=? k)%Z; apply firstn_nil. Qed.

(** What the index says of a file and what its section holds, for a file
    read the same in both passes. *)
Let agree (s : FileSection) : Prop :=
  let m := sec_meta s in
  match sec_body s with
  | Content text =>
    m_is_binary m = false /\ m_lines m = count_lines text
    /\ (m_note m = [] \/ exists cap, m_note m = U "truncated to " ++ str_of_Z cap
                                                ++ U " bytes")
  | NoContent skipped =>
    (skipped = SKIP_BINARY /\ m_is_binary m = true /\ m_lines m = 0
     /\ m_lang m = U "Binary" /\ m_sha1 m = []
     /\ m_note m = U "binary: skipped")
    \/ (skipped = SKIP_UNREADABLE /\ m_is_binary m = false /\ m_lines m = 0
        /\ m_sha1 m = [] /\ m_note m = U "read error: skipped")
    \/ (skipped = SKIP_LIMIT /\ m_is_binary m = false)
  end.

Lemma write_section_agree (cfg : Config) (count i : nat) (f : SrcFile)
      (w : Z) :
  read_meta f = read_section f ->
  agree (fst (write_section cfg w (make_meta sha1_hexdigest cfg count i f, f))).
Proof.
  intros Hst. unfold write_section, make_meta, agree.
  destruct (is_probably_binary f) eqn:Eb; cbn [m_is_binary].
  - cbn. left. repeat split.
  - rewrite <- Hst. destruct (read_meta f) as [raw|].
    + destruct raw as [|b raw].
      * cbn [m_is_binary m_lines m_note m_sha1].
        destruct (_ <? _)%Z; cbn; [right; right; now split|].
        rewrite slice_to_nil. repeat split. now left.
      * cbn [m_is_binary m_lines m_note m_sha1].
        destruct (max_total_bytes cfg <? _)%Z; cbn [fst sec_body sec_meta
          m_is_binary m_lines m_note]; [right; right; now split|].
        repeat split.
        destruct (max_bytes_per_file cfg <? _)%Z; [right | now left].
        now exists (max_bytes_per_file cfg).
    + cbn. right. left. repeat split.
Qed.

Lemma In_combine_metas (cfg : Config) (count : nat) (files : list SrcFile) :
  forall i m f,
    In (m, f) (combine (make_metas sha1_hexdigest cfg count i files) files) ->
    In f files /\ exists j, m = make_meta sha1_hexdigest cfg count j f.
Proof.
  induction files as [|g files IH]; intros i m f; [intros []|].
  cbn [make_metas combine]. intros [E|Hin].
  - injection E as <- <-. split; [now left | now exists i].
  - destruct (IH _ _ _ Hin) as [Hf Hj]. split; [now right | exact Hj].
Qed.

Lemma write_sections_Forall (cfg : Config) (P : FileSection -> Prop)
      (mfs : list (Meta * SrcFile)) :
  (forall w mf, In mf mfs -> P (fst (write_section cfg w mf))) ->
  forall w, Forall P (fst (write_sections cfg w mfs)).
Proof.
  induction mfs as [|mf mfs IH]; intros HP w; [constructor|].
  cbn [write_sections].
  pose proof (HP w mf (or_introl eq_refl)) as Hs.
  destruct (write_section cfg w mf) as [s w1].
  assert (Hrest : Forall P (fst (write_sections cfg w1 mfs))).
  { apply IH. intros w' mf' Hin. apply HP. now right. }
  destruct (write_sections cfg w1 mfs) as [ss w2].
  cbn [fst] in *. now constructor.
Qed.

(** X26. When every file reads the same in the two passes of the worker,
    the index agrees with the sections.  A section with content belongs
    to a file the index does not call binary, its LINES is the number of
    lines of the content written, and its note is empty or tells of the
    cut.  A section without content was skipped as binary, as unreadable
    or for the total limit, and in the first two cases the index has no
    lines, no hash and the matching note. *)
Theorem index_agrees_with_sections (cfg : Config) (collected : list SrcFile) :
  Forall (fun f => read_meta f = read_section f) collected ->
  Forall (fun s =>
            let m := sec_meta s in
            match sec_body s with
            | Content text =>
              m_is_binary m = false /\ m_lines m = count_lines text
              /\ (m_note m = []
                  \/ exists cap, m_note m = U "truncated to " ++ str_of_Z cap
                                            ++ U " bytes")
            | NoContent skipped =>
              (skipped = SKIP_BINARY /\ m_is_binary m = true /\ m_lines m = 0
               /\ m_lang m = U "Binary" /\ m_sha1 m = []
               /\ m_note m = U "binary: skipped")
              \/ (skipped = SKIP_UNREADABLE /\ m_is_binary m = false
                  /\ m_lines m = 0 /\ m_sha1 m = []
                  /\ m_note m = U "read error: skipped")
              \/ (skipped = SKIP_LIMIT /\ m_is_binary m = false)
            end)
         (snd (fst (bundle sha1_hexdigest cfg collected))).
Proof.
  intros Hst. unfold bundle.
  set (files := sort_files (cfg_sort cfg) collected).
  assert (Hfiles : forall f, In f files -> read_meta f = read_section f).
  { intros f Hf. rewrite Forall_forall in Hst. apply Hst.
    exact (proj1 (sorted_In _ _ f collected) Hf). }
  pose proof (write_sections_Forall cfg agree
                (combine (make_metas sha1_hexdigest cfg (length files) 1 files)
                         files)) as HF.
  destruct (write_sections cfg 0 _) as [ss w] eqn:Ew. cbn [fst snd].
  specialize (HF ltac:(intros w' [m f] Hin;
                       apply In_combine_metas in Hin;
                       destruct Hin as [Hf [j ->]];
                       apply write_section_agree; now apply Hfiles) 0%Z).
  rewrite Ew in HF. exact HF.
Qed.

End IndexAndSections.

Section IndexAndSectionsRuns.
Import Bundle.

Lemma index_agrees_with_sections_witness :
  Forall (fun s =>
            let m := sec_meta s in
            match sec_body s with
            | Content text =>
              m_is_binary m = false /\ m_lines m = count_lines text
              /\ (m_note m = []
                  \/ exists cap, m_note m = U "truncated to " ++ str_of_Z cap
                                            ++ U " bytes")
            | NoContent skipped =>
              (skipped = SKIP_BINARY /\ m_is_binary m = true /\ m_lines m = 0
               /\ m_lang m = U "Binary" /\ m_sha1 m = []
               /\ m_note m = U "binary: skipped")
              \/ (skipped = SKIP_UNREADABLE /\ m_is_binary m = false
                  /\ m_lines m = 0 /\ m_sha1 m = []
                  /\ m_note m = U "read error: skipped")
              \/ (skipped = SKIP_LIMIT /\ m_is_binary m = false)
            end)
         (snd (fst (bundle (H := ascii_db) no_sha1 sample_cfg sample_files))).
Proof.
  apply (@index_agrees_with_sections ascii_db no_sha1 sample_cfg sample_files).
  repeat constructor.
Defined.

End IndexAndSectionsRuns.

(** ** TextNormalizer: sanitising what is already clean *)

Section SanitizeAgain.
Local Open Scope N_scope.

Lemma trim_incl (s : str) (x : N) : In x (trim_line_ends s) -> In x s.
Proof.
  induction s as [|c r IH]; [trivial|]. cbn [trim_line_ends].
  destruct (_ && _); [intros Hx; right; now apply IH|].
  intros [->|Hx]; [now left | right; now apply IH].
Qed.

Lemma collapse_incl (s : str) (x : N) : In x (collapse_spaces s) -> In x s.
Proof.
  induction s as [|c r IH]; [trivial|]. cbn [collapse_spaces].
  destruct (_ && _); [intros Hx; right; now apply IH|].
  intros [->|Hx]; [now left | right; now apply IH].
Qed.

Lemma squeeze_incl (s : str) (x : N) : In x (squeeze_newlines s) -> In x s.
Proof.
  induction s as [|c r IH]; [trivial|]. cbn [squeeze_newlines].
  destruct (_ && _); [intros Hx; right; now apply IH|].
  intros [->|Hx]; [now left | right; now apply IH].
Qed.

Lemma strip_incl (s : str) (x : N) : In x (strip s) -> In x s.
Proof.
  intros Hx. destruct (lstrip_suffix s) as [a Ha].
  destruct (rstrip_prefix (lstrip s)) as [b Hb].
  rewrite Ha, Hb. apply in_or_app. right. apply in_or_app. now left.
Qed.

Lemma normalize_prose_incl (s : str) (x : N) :
  In x (_normalize_prose s) -> In x s.
Proof.
  unfold _normalize_prose. intros Hx.
  now apply trim_incl, collapse_incl, squeeze_incl, strip_incl.
Qed.

Lemma rejoin_incl (t : str) (segs : list segment) (x : N) :
  decomposes t segs -> In x (rejoin segs) -> In x t.
Proof.
  induction 1 as [g Hg|g c rest segs Hg Hc Hd IH]; unfold rejoin;
    cbn [flat_map].
  - rewrite app_nil_r. apply normalize_prose_incl.
  - fold (rejoin segs). intros Hx. apply in_app_or in Hx.
    destruct Hx as [Hx|Hx].
    + apply in_or_app. left. now apply normalize_prose_incl.
    + apply in_app_or in Hx. apply in_or_app. right. apply in_or_app.
      destruct Hx as [Hx|Hx]; [now left | right; now apply IH].
Qed.

Lemma filter_all (A : Type) (p : A -> bool) (l : list A) :
  (forall x, In x l -> p x = true) -> filter p l = l.
Proof.
  induction l as [|a l IH]; intros Hp; [reflexivity|]. cbn [filter].
  rewrite (Hp a (or_introl eq_refl)). f_equal. apply IH.
  intros x Hx. apply Hp. now right.
Qed.

Context `{UnicodeDB}.

Lemma sanitize_text_chars (s : str) (c : N) :
  In c (sanitize_text s) -> c <> CR /\ control_filter c = false.
Proof.
  unfold sanitize_text. rewrite replace_cr. intros Hc.
  apply filter_In in Hc. destruct Hc as [Hin Hf].
  apply negb_true_iff in Hf. split; [|exact Hf].
  apply in_map_iff in Hin. destruct Hin as [d [Hd _]].
  destruct (N.eqb_spec d CR); subst; [discriminate | assumption].
Qed.

Lemma normalize_incl (s : str) (c : N) :
  In c (normalize_text_code_safe s) -> In c (sanitize_text s).
Proof.
  destruct (decomposes_total (length (sanitize_text s)) (sanitize_text s))
    as [segs Hd]; [lia|].
  assert (E : normalize_text_code_safe s = rejoin segs)
    by exact (code_safe_loop_rejoin _ _ Hd [] []).
  rewrite E. apply (rejoin_incl _ _ _ Hd).
Qed.

Lemma sanitize_fixed (t : str) :
  nfkc t = t -> (forall c, In c t -> c <> CR /\ control_filter c = false) ->
  sanitize_text t = t.
Proof.
  intros Hn Hc. unfold sanitize_text. rewrite Hn.
  assert (Hcr : ~ In CR t) by (intros Hi; now apply (Hc CR Hi)).
  rewrite (replace_crlf_absent _ Hcr), (replace_absent _ CR LF Hcr).
  apply filter_all. intros c Hi. apply negb_true_iff. now apply Hc.
Qed.

(** X27. Text that was sanitised, or normalised with its code kept, is
    left as it is when it is sanitised again, as the writer of the
    knowledge files does, provided the Unicode normalisation leaves it
    unchanged: nothing is left in it for the line-ending and the control
    rules to act on. *)
Theorem sanitize_text_again (s t : str) :
  t = sanitize_text s \/ t = normalize_text_code_safe s ->
  nfkc t = t ->
  sanitize_text t = t.
Proof.
  intros Ht Hn. apply (sanitize_fixed t Hn). intros c Hc.
  apply (sanitize_text_chars s).
  destruct Ht as [->| ->]; [exact Hc | now apply normalize_incl].
Qed.

End SanitizeAgain.

Section SanitizeAgainRuns.
Local Open Scope N_scope.

Lemma sanitize_text_again_witness :
  sanitize_text (H := ascii_db)
    (normalize_text_code_safe (H := ascii_db) (U "a  b" ++ [CR; LF; 7] ++ U "c"))
  = normalize_text_code_safe (H := ascii_db) (U "a  b" ++ [CR; LF; 7] ++ U "c").
Proof.
  apply (@sanitize_text_again ascii_db (U "a  b" ++ [CR; LF; 7] ++ U "c")
           (normalize_text_code_safe (H := ascii_db)
              (U "a  b" ++ [CR; LF; 7] ++ U "c"))).
  - now right.
  - reflexivity.
Defined.

End SanitizeAgainRuns.

(** ** The stable sample *)

Section StableSample.

Lemma half_bounds (n : nat) : 2 * (n / 2) <= n /\ n <= 2 * (n / 2) + 1.
Proof.
  pose proof (Nat.div_mod_eq n 2) as E.
  pose proof (Nat.mod_upper_bound n 2 ltac:(lia)) as Hm.
  set (q := n / 2) in *. set (m := n mod 2) in *. clearbody q m. lia.
Qed.

(** X28. The sample taken for the hash is the whole text when the text
    has at most [k] characters.  Of a longer text it is the first [k]
    characters, the [2 * (k / 2)] characters around the middle and the
    last [k] characters: it begins as the text begins, ends as the text
    ends, and is never longer than [3 * k]. *)
Theorem stable_sample_bounds (text : str) (k : nat) :
  0 < k ->
  length (_stable_sample text k) <= 3 * k
  /\ (length text <= k -> _stable_sample text k = text)
  /\ (k < length text ->
      length (_stable_sample text k) = k + 2 * (k / 2) + k
      /\ firstn k (_stable_sample text k) = firstn k text
      /\ slice_last (_stable_sample text k) k = slice_last text k).
Proof.
  intros Hk. unfold _stable_sample.
  destruct (Nat.leb_spec (length text) k) as [Hle|Hlt].
  - split; [lia|]. split; [reflexivity | lia].
  - set (n := length text) in *.
    destruct (half_bounds n) as [Hn1 Hn2]. destruct (half_bounds k) as [Hk1 Hk2].
    set (mid := n / 2) in *. set (h := k / 2) in *.
    assert (Hh : h <= mid) by (clearbody mid h; lia).
    assert (La : length (firstn k text) = k)
      by (rewrite length_firstn; fold n; lia).
    assert (Lb : length (slice text (mid - h) (mid + h)) = 2 * h).
    { unfold slice. rewrite length_firstn, length_skipn. fold n.
      clearbody mid h. lia. }
    assert (Lc : length (slice_last text k) = k).
    { unfold slice_last. rewrite length_skipn. fold n. lia. }
    assert (Ls : length (firstn k text ++ slice text (mid - h) (mid + h)
                         ++ slice_last text k) = k + 2 * h + k).
    { rewrite !length_app, La, Lb, Lc. lia. }
    split; [rewrite Ls; clearbody h; lia|].
    split; [lia|]. intros _. split; [exact Ls|]. split.
    + rewrite <- La at 1. rewrite firstn_app_exact. reflexivity.
    + unfold slice_last at 1. rewrite Ls, app_assoc.
      replace (k + 2 * h + k - k)
        with (length (firstn k text ++ slice text (mid - h) (mid + h)))
        by (rewrite length_app, La, Lb; lia).
      apply skipn_app_exact.
Qed.

Lemma stable_sample_bounds_witness :
  length (_stable_sample (U "abcdefghij") 2) <= 3 * 2
  /\ (length (U "abcdefghij") <= 2
      -> _stable_sample (U "abcdefghij") 2 = U "abcdefghij")
  /\ (2 < length (U "abcdefghij") ->
      length (_stable_sample (U "abcdefghij") 2) = 2 + 2 * (2 / 2) + 2
      /\ firstn 2 (_stable_sample (U "abcdefghij") 2)
         = firstn 2 (U "abcdefghij")
      /\ slice_last (_stable_sample (U "abcdefghij") 2) 2
         = slice_last (U "abcdefghij") 2).
Proof. apply (stable_sample_bounds (U "abcdefghij") 2). lia. Defined.

End StableSample.

(** ** TextNormalizer: text without code *)

Section WithoutCode.
Local Open Scope N_scope.
Context `{UnicodeDB}.

Lemma contains_head (p r : str) : contains (p ++ r) p = true.
Proof.
  unfold contains. rewrite find_unfold. now rewrite startswith_app.
Qed.

Lemma no_span_opens (t a b open : str) :
  contains t open = false -> t = a ++ b ->
  forall r, b ++ [] <> open ++ r.
Proof.
  intros Hc -> r E. rewrite app_nil_r in E. subst b.
  apply contains_suffix in Hc. now rewrite contains_head in Hc.
Qed.

Lemma gap_without_markers (t : str) :
  contains t FENCE = false -> contains t CODE_START = false -> is_gap t [].
Proof.
  intros Hf Hs a b Hab _ [c [rest [[[inner [-> _]]|[inner [-> _]]] E]]].
  - apply (no_span_opens t a b FENCE Hf Hab ((inner ++ FENCE) ++ rest)).
    now rewrite E, <- !app_assoc.
  - apply (no_span_opens t a b CODE_START Hs Hab ((inner ++ CODE_END) ++ rest)).
    now rewrite E, <- !app_assoc.
Qed.

Lemma normalize_prose_only (s : str) :
  contains (sanitize_text s) FENCE = false ->
  contains (sanitize_text s) CODE_START = false ->
  normalize_text_code_safe s = _normalize_prose (sanitize_text s).
Proof.
  intros Hf Hs.
  pose proof (dec_tail _ (gap_without_markers _ Hf Hs)) as Hd.
  assert (E : normalize_text_code_safe s = rejoin [Gap (sanitize_text s)])
    by exact (code_safe_loop_rejoin _ _ Hd [] []).
  rewrite E. unfold rejoin. cbn [flat_map]. apply app_nil_r.
Qed.

(** X29. Text that, once sanitised, has no fence of three backticks and
    no opening sentinel has no code span: it is normalised as prose as a
    whole, and so comes out without doubled spaces, without three
    newlines in a row, without blanks at the end of a line and without
    white space at either end. *)
Theorem normalize_without_code (s : str) :
  contains (sanitize_text s) FENCE = false ->
  contains (sanitize_text s) CODE_START = false ->
  normalize_text_code_safe s = _normalize_prose (sanitize_text s)
  /\ contains (normalize_text_code_safe s) [SPACE; SPACE] = false
  /\ contains (normalize_text_code_safe s) [LF; LF; LF] = false
  /\ contains (normalize_text_code_safe s) [SPACE; LF] = false
  /\ contains (normalize_text_code_safe s) [TAB; LF] = false
  /\ strip (normalize_text_code_safe s) = normalize_text_code_safe s.
Proof.
  intros Hf Hs. rewrite (normalize_prose_only s Hf Hs).
  split; [reflexivity | apply prose_shape].
Qed.

End WithoutCode.

Section WithoutCodeRuns.
Local Open Scope N_scope.

Lemma normalize_without_code_witness :
  normalize_text_code_safe (H := ascii_db) (U "  a   b  ")
  = _normalize_prose (sanitize_text (H := ascii_db) (U "  a   b  "))
  /\ contains (normalize_text_code_safe (H := ascii_db) (U "  a   b  "))
              [SPACE; SPACE] = false
  /\ contains (normalize_text_code_safe (H := ascii_db) (U "  a   b  "))
              [LF; LF; LF] = false
  /\ contains (normalize_text_code_safe (H := ascii_db) (U "  a   b  "))
              [SPACE; LF] = false
  /\ contains (normalize_text_code_safe (H := ascii_db) (U "  a   b  "))
              [TAB; LF] = false
  /\ strip (normalize_text_code_safe (H := ascii_db) (U "  a   b  "))
     = normalize_text_code_safe (H := ascii_db) (U "  a   b  ").
Proof.
  apply (@normalize_without_code ascii_db (U "  a   b  ")); reflexivity.
Defined.

End WithoutCodeRuns.

(** ** Titles of files with ASCII names *)

Section AsciiTitles.
Local Open Scope N_scope.

Let allowed (c : N) : bool := title_char (H := ascii_db) c.

Lemma allowed_lower (c : N) :
  allowed c = true -> allowed (ascii_to_lower c) = true.
Proof.
  unfold ascii_to_lower. destruct (ascii_upper c) eqn:E; [|trivial].
  intros _. unfold allowed, title_char. cbn [is_word ascii_db].
  unfold ascii_upper in E. apply andb_true_iff in E. destruct E as [E1 E2].
  apply N.leb_le in E1, E2.
  assert (El : ascii_lower (c + 32) = true).
  { unfold ascii_lower. apply andb_true_iff. split; apply N.leb_le; lia. }
  rewrite El. now rewrite orb_true_r.
Qed.

Lemma allowed_upper (c : N) :
  allowed c = true -> allowed (ascii_to_upper c) = true.
Proof.
  unfold ascii_to_upper. destruct (ascii_lower c) eqn:E; [|trivial].
  intros _. unfold allowed, title_char. cbn [is_word ascii_db].
  unfold ascii_lower in E. apply andb_true_iff in E. destruct E as [E1 E2].
  apply N.leb_le in E1, E2.
  assert (Eu : ascii_upper (c - 32) = true).
  { unfold ascii_upper. apply andb_true_iff. split; apply N.leb_le; lia. }
  now rewrite Eu.
Qed.

Lemma ascii_title_allowed (s : str) :
  forall b, Forall (fun c => allowed c = true) s ->
            Forall (fun c => allowed c = true) (ascii_title b s).
Proof.
  induction s as [|c s IH]; intros b Hs; [constructor|].
  apply Forall_cons_iff in Hs. destruct Hs as [Hc Hs].
  cbn [ascii_title]. constructor; [|now apply IH].
  destruct b; [now apply allowed_lower | now apply allowed_upper].
Qed.

Lemma blank_runs_allowed (s : str) :
  forall b, Forall (fun c => allowed c = true)
                   (blank_runs (H := ascii_db) b s).
Proof.
  induction s as [|c s IH]; intros b; [constructor|]. cbn [blank_runs].
  destruct (title_char (H := ascii_db) c) eqn:E; [constructor; [exact E | apply IH]|].
  destruct b; [apply IH | constructor; [reflexivity | apply IH]].
Qed.

Lemma sanitize_ascii_allowed (s : str) :
  Forall (fun c => allowed c = true) s ->
  Forall (fun c => allowed c = true) (sanitize_text (H := ascii_db) s).
Proof.
  intros Hs. apply Forall_forall. intros c Hc.
  unfold sanitize_text in Hc. cbn [nfkc ascii_db] in Hc.
  rewrite replace_cr in Hc. apply filter_In in Hc. destruct Hc as [Hc _].
  apply in_map_iff in Hc. destruct Hc as [d [<- Hd]].
  destruct (d =? CR); [reflexivity|].
  apply (replace_crlf_incl (length s) s d (le_n _)) in Hd.
  destruct Hd as [Hd| ->]; [|reflexivity].
  rewrite Forall_forall in Hs. now apply Hs.
Qed.

Lemma contains_In (t p : str) (c : N) :
  contains t (c :: p) = true -> In c t.
Proof.
  induction t as [|d t IH]; [discriminate|].
  rewrite contains_cons, startswith_cons. intros Hc.
  apply orb_true_iff in Hc. destruct Hc as [Hc|Hc]; [|right; now apply IH].
  apply andb_true_iff in Hc. destruct Hc as [Hc _].
  apply N.eqb_eq in Hc. now left.
Qed.

Lemma not_contains (t p : str) (c : N) :
  Forall (fun x => allowed x = true) t -> allowed c = false ->
  contains t (c :: p) = false.
Proof.
  intros Ht Hc. destruct (contains t (c :: p)) eqn:E; [|reflexivity].
  apply contains_In in E. rewrite Forall_forall in Ht.
  rewrite (Ht c E) in Hc. discriminate.
Qed.

(** X30. For a file with an ASCII name, the title of its document holds
    nothing but letters, digits, underscores, white space and the marks
    [-.,'()&].  It has no closing bracket, the one character that keeps a
    line of the table of contents from being read back; it has no
    doubled space and no white space at either end. *)
Theorem ascii_title_shape (file_path : str) :
  Forall (fun c => c < 128) file_path ->
  let t := _normalize_title_from_path (H := ascii_db) file_path in
  forallb (title_char (H := ascii_db)) t = true
  /\ existsb (N.eqb 93) t = false
  /\ contains t [SPACE; SPACE] = false
  /\ strip t = t.
Proof.
  intros _. cbv zeta. unfold _normalize_title_from_path.
  set (safe := strip (blank_runs false (fst (splitext (basename file_path))))).
  assert (Hsafe : Forall (fun c => allowed c = true) safe).
  { apply Forall_forall. intros c Hc. apply strip_incl in Hc.
    pose proof (blank_runs_allowed (fst (splitext (basename file_path))) false)
      as Hb.
    rewrite Forall_forall in Hb. now apply Hb. }
  assert (Hcased : Forall (fun c => allowed c = true)
                          (title_case (UnicodeDB := ascii_db) safe))
    by now apply ascii_title_allowed.
  pose proof (sanitize_ascii_allowed _ Hcased) as Hsan.
  rewrite (@normalize_prose_only ascii_db
             (title_case (UnicodeDB := ascii_db) safe)
             (not_contains _ _ 96 Hsan eq_refl)
             (not_contains _ _ 64 Hsan eq_refl)).
  destruct (prose_shape (sanitize_text (H := ascii_db)
                           (title_case (UnicodeDB := ascii_db) safe)))
    as (H1 & _ & _ & _ & H5).
  assert (Hall : Forall (fun c => allowed c = true)
                        (_normalize_prose
                           (sanitize_text (H := ascii_db)
                              (title_case (UnicodeDB := ascii_db) safe)))).
  { apply Forall_forall. intros c Hc. apply normalize_prose_incl in Hc.
    rewrite Forall_forall in Hsan. now apply Hsan. }
  repeat split.
  - apply forallb_forall. now apply Forall_forall.
  - destruct (existsb _ _) eqn:E; [|reflexivity].
    apply existsb_exists in E. destruct E as [c [Hc E]].
    apply N.eqb_eq in E. subst c. rewrite Forall_forall in Hall.
    now specialize (Hall 93 Hc).
  - exact H1.
  - exact H5.
Qed.

Lemma ascii_title_shape_witness :
  let t := _normalize_title_from_path (H := ascii_db)
             (U "/docs/my [draft]  notes_v2.final.TXT") in
  forallb (title_char (H := ascii_db)) t = true
  /\ existsb (N.eqb 93) t = false
  /\ contains t [SPACE; SPACE] = false
  /\ strip t = t.
Proof.
  apply (ascii_title_shape (U "/docs/my [draft]  notes_v2.final.TXT")).
  repeat constructor.
Defined.

End AsciiTitles.

(** ** Text without surrogates *)

Section Scalars.
Import Extract.
Local Open Scope N_scope.
Context `{UnicodeDB}.

Lemma scalar_subset (a b : str) :
  (forall c, In c a -> In c b) ->
  forallb scalar b = true -> forallb scalar a = true.
Proof.
  intros Hi Hb. apply forallb_forall. intros c Hc.
  exact (proj1 (forallb_forall _ _) Hb c (Hi c Hc)).
Qed.

Lemma sanitize_scalar (s : str) :
  forallb scalar s = true -> forallb scalar (sanitize_text s) = true.
Proof.
  intros Hs. apply nfkc_scalar in Hs. apply forallb_forall. intros c Hc.
  unfold sanitize_text in Hc. rewrite replace_cr in Hc.
  apply filter_In in Hc. destruct Hc as [Hc _].
  apply in_map_iff in Hc. destruct Hc as [d [<- Hd]].
  destruct (d =? CR); [reflexivity|].
  apply (replace_crlf_incl (length (nfkc s)) _ d (le_n _)) in Hd.
  destruct Hd as [Hd| ->]; [|reflexivity].
  exact (proj1 (forallb_forall _ _) Hs d Hd).
Qed.

Lemma normalize_scalar (s : str) :
  forallb scalar s = true ->
  forallb scalar (normalize_text_code_safe s) = true.
Proof.
  intros Hs. apply (scalar_subset _ (sanitize_text s)).
  - intros c. apply normalize_incl.
  - now apply sanitize_scalar.
Qed.

Lemma isspace_scalar (c : N) : isspace c = true -> scalar c = true.
Proof.
  unfold isspace, scalar.
  destruct (N.ltb_spec c 0xD800) as [|Hc]; [reflexivity|]. intros Hs.
  exfalso. revert Hs.
  repeat (match goal with
          | |- context [?x <=? ?y] => destruct (N.leb_spec x y)
          | |- context [?x =? ?y] => destruct (N.eqb_spec x y)
          end; try lia).
  all: cbn; discriminate.
Qed.

Lemma title_char_scalar (c : N) : title_char c = true -> scalar c = true.
Proof.
  unfold title_char. intros Hc. apply orb_true_iff in Hc.
  destruct Hc as [Hc|Hc].
  - apply orb_true_iff in Hc.
    destruct Hc as [Hc|Hc]; [now apply is_word_scalar | now apply isspace_scalar].
  - unfold str_in in Hc. apply existsb_exists in Hc.
    destruct Hc as [x [Hx E]]. apply str_eqb_eq in E. subst x.
    cbn in Hx. repeat (destruct Hx as [Hx|Hx]; [injection Hx as <-; reflexivity|]).
    destruct Hx.
Qed.

Lemma blank_runs_scalar (s : str) :
  forall b, forallb scalar (blank_runs b s) = true.
Proof.
  induction s as [|c s IH]; intros b; [reflexivity|]. cbn [blank_runs].
  destruct (title_char c) eqn:E.
  - cbn [forallb]. now rewrite (title_char_scalar c E), IH.
  - destruct b; [apply IH|]. cbn [forallb]. now rewrite IH.
Qed.

Lemma title_scalar (file_path : str) :
  forallb scalar (_normalize_title_from_path file_path) = true.
Proof.
  unfold _normalize_title_from_path.
  apply normalize_scalar, title_case_scalar.
  apply (scalar_subset _ (blank_runs false
                            (fst (splitext (basename file_path))))).
  - intros c. apply strip_incl.
  - apply blank_runs_scalar.
Qed.

Lemma In_firstn (A : Type) (n : nat) (l : list A) (x : A) :
  In x (firstn n l) -> In x l.
Proof.
  intros Hx. rewrite <- (firstn_skipn n l). apply in_or_app. now left.
Qed.

Lemma In_skipn (A : Type) (n : nat) (l : list A) (x : A) :
  In x (skipn n l) -> In x l.
Proof.
  intros Hx. rewrite <- (firstn_skipn n l). apply in_or_app. now right.
Qed.

Lemma stable_sample_incl (t : str) (k : nat) (c : N) :
  In c (_stable_sample t k) -> In c t.
Proof.
  unfold _stable_sample. destruct (_ <=? _)%nat; [trivial|].
  intros Hc. apply in_app_or in Hc. destruct Hc as [Hc|Hc];
    [now apply In_firstn in Hc|].
  apply in_app_or in Hc. destruct Hc as [Hc|Hc].
  - unfold slice in Hc. now apply In_firstn, In_skipn in Hc.
  - unfold slice_last in Hc. now apply In_skipn in Hc.
Qed.

Lemma hash_content_scalar (file_path text : str) :
  forallb scalar (normalize_text_code_safe (_normalize_title_from_path file_path)
                  ++ _stable_sample text 2000)
  = forallb scalar (_stable_sample text 2000).
Proof.
  rewrite forallb_app, (normalize_scalar _ (title_scalar file_path)).
  reflexivity.
Qed.

Variable w : World.

(** Text read from a plain-text file holds no surrogate. *)
Lemma txt_scalar (file_path t : str) :
  extract_text_from_txt w file_path = Ok t -> forallb scalar t = true.
Proof.
  unfold extract_text_from_txt, reraise.
  assert (Hraw : forall raw,
             forallb scalar raw = true ->
             try_except
               (raw <- Ok raw ;;
                (let text := normalize_text_code_safe raw in
                 if blank text
                 then Raise (ExtractionError
                               (U "Empty text after normalization."))
                 else Ok text))
               (fun e => Raise (ExtractionError (U "Reason: " ++ exn_msg e)))
             = Ok t ->
             forallb scalar t = true).
  { intros raw Hr. cbn [bind].
    destruct (blank (normalize_text_code_safe raw)); cbn [try_except];
      [discriminate|].
    intros [= <-]. now apply normalize_scalar. }
  destruct (read_utf8 w file_path) as [e|raw] eqn:E1.
  - destruct e; try (cbn; discriminate);
      (destruct (read_latin1 w file_path) as [e'|raw] eqn:E2;
       [cbn; discriminate|];
       apply Hraw; exact (read_latin1_scalar w _ _ E2)).
  - apply Hraw. exact (read_utf8_scalar w _ _ E1).
Qed.

(** C9, as the code has it.  [process_single_file] ends for every path.
    It returns the path with a failure and its reason for an unsupported
    extension, for any [ExtractionError] of the extractor, and for blank
    text.  For other text it returns a record with the text, the title
    and the ids, unless the sample of the text holds a lone surrogate:
    then the hash cannot be taken and [UnicodeEncodeError] comes out of
    [process_single_file].  Text read from a plain-text file holds no
    surrogate, so a path of a plain-text type always has its outcome.
    The extractors raise nothing but [ExtractionError], and no
    [ExtractionError] gets past [process_single_file]. *)
Theorem process_single_file_one_outcome (file_path id_prefix : str) :
  let kind :=
    lookup extractor_map (lower (snd (splitext (basename file_path)))) in
  let returned := process_single_file w file_path id_prefix in
  (match kind with
   | None => returned = Ok (file_path, Failure (U "Unsupported file type"))
   | Some e =>
     match run_extractor w e file_path with
     | Ok extracted =>
       if blank extracted
       then returned = Ok (file_path, Failure (U "Extracted text is empty."))
       else if forallb scalar (_stable_sample extracted 2000)
       then exists d,
           returned = Ok (file_path, Success d)
           /\ text d = extracted
           /\ title d = _normalize_title_from_path file_path
           /\ stable_hash (normalize_text_code_safe (title d)
                           ++ _stable_sample extracted 2000)
              = Ok (full_hash d)
       else returned
            = Raise (OtherException (U "UnicodeEncodeError")
                                    (U "surrogates not allowed"))
     | Raise (ExtractionError msg) =>
       returned = Ok (file_path, Failure (U "ExtractionError: " ++ msg))
     | _ => False
     end
   end)
  /\ (kind = Some Txt -> exists o, returned = Ok (file_path, o))
  /\ (forall msg, returned <> Raise (ExtractionError msg)).
Proof.
  cbv zeta.
  assert (Hmain :
    match lookup extractor_map (lower (snd (splitext (basename file_path)))) with
    | None => process_single_file w file_path id_prefix
              = Ok (file_path, Failure (U "Unsupported file type"))
    | Some e =>
      match run_extractor w e file_path with
      | Ok extracted =>
        if blank extracted
        then process_single_file w file_path id_prefix
             = Ok (file_path, Failure (U "Extracted text is empty."))
        else if forallb scalar (_stable_sample extracted 2000)
        then exists d,
            process_single_file w file_path id_prefix
            = Ok (file_path, Success d)
            /\ text d = extracted
            /\ title d = _normalize_title_from_path file_path
            /\ stable_hash (normalize_text_code_safe (title d)
                            ++ _stable_sample extracted 2000)
               = Ok (full_hash d)
        else process_single_file w file_path id_prefix
             = Raise (OtherException (U "UnicodeEncodeError")
                                     (U "surrogates not allowed"))
      | Raise (ExtractionError msg) =>
        process_single_file w file_path id_prefix
        = Ok (file_path, Failure (U "ExtractionError: " ++ msg))
      | _ => False
      end
    end).
  { unfold process_single_file.
    destruct (lookup extractor_map _) as [e|]; [|reflexivity].
    pose proof (run_extractor_result w e file_path) as He.
    destruct (run_extractor w e file_path) as [extracted|[]|]; cbn in He;
      try contradiction; cbn [bind]; [|reflexivity].
    destruct (blank extracted); [reflexivity|].
    unfold stable_hash, encode_utf8_strict.
    rewrite (hash_content_scalar file_path extracted).
    destruct (forallb scalar (_stable_sample extracted 2000)) eqn:Es;
      cbn [bind]; [|reflexivity].
    destruct (generate_short_id_of_digest
                (encode_utf8
                   (normalize_text_code_safe
                      (_normalize_title_from_path file_path)
                    ++ _stable_sample extracted 2000)) id_prefix 6)
      as [ds Hds].
    rewrite Hds. cbn [bind]. eexists. split; [reflexivity|].
    cbn [text title full_hash]. split; [reflexivity|]. split; [reflexivity|].
    now rewrite (hash_content_scalar file_path extracted), Es. }
  split; [exact Hmain|]. split.
  - intros Hk. rewrite Hk in Hmain. cbn [run_extractor] in Hmain.
    pose proof (run_extractor_result w Txt file_path) as He.
    cbn [run_extractor] in He.
    destruct (extract_text_from_txt w file_path) as [t|[]|] eqn:Et;
      cbn in He; try contradiction.
    + destruct (blank t); [eexists; exact Hmain|].
      rewrite (scalar_subset _ t (stable_sample_incl t 2000)
                 (txt_scalar _ _ Et)) in Hmain.
      destruct Hmain as [d [Hd _]]. eexists. exact Hd.
    + eexists. exact Hmain.
  - intros msg Hr.
    destruct (lookup extractor_map _) as [e|]; [|congruence].
    destruct (run_extractor w e file_path) as [extracted|[]|];
      try contradiction; try congruence.
    destruct (blank extracted); [congruence|].
    destruct (forallb scalar _); [|congruence].
    destruct Hmain as [d [Hd _]]. congruence.
Qed.

(** C1, as the code has it.  Two plain-text files with the same title
    whose texts have the same stable sample (the whole text up to 2000
    characters, else its first, middle and last 2000) get the same full
    hash and the same short id, wherever they are stored. *)
Theorem same_sample_same_id (p1 p2 id_prefix t1 t2 : str) :
  lookup extractor_map (lower (snd (splitext (basename p1)))) = Some Txt ->
  lookup extractor_map (lower (snd (splitext (basename p2)))) = Some Txt ->
  extract_text_from_txt w p1 = Ok t1 ->
  extract_text_from_txt w p2 = Ok t2 ->
  _normalize_title_from_path p1 = _normalize_title_from_path p2 ->
  _stable_sample t1 2000 = _stable_sample t2 2000 ->
  exists d1 d2,
    process_single_file w p1 id_prefix = Ok (p1, Success d1)
    /\ process_single_file w p2 id_prefix = Ok (p2, Success d2)
    /\ full_hash d1 = full_hash d2
    /\ short_id d1 = short_id d2.
Proof.
  intros L1 L2 E1 E2 Ht Hs. unfold process_single_file.
  rewrite L1, L2. cbn [run_extractor]. rewrite E1, E2. cbn [bind].
  assert (B : forall p t, extract_text_from_txt w p = Ok t -> blank t = false).
  { intros p t. unfold extract_text_from_txt, reraise.
    destruct (match read_utf8 w p with
              | inl (UnicodeDecodeError _) | inl (IOError _) =>
                lift (read_latin1 w p)
              | r => lift r end) as [raw| |]; cbn [bind try_except];
      try discriminate.
    destruct (blank (normalize_text_code_safe raw)) eqn:Eb; cbn [try_except];
      [discriminate|]. now intros [= <-]. }
  rewrite (B _ _ E1), (B _ _ E2), <- Ht, <- Hs.
  unfold stable_hash, encode_utf8_strict.
  rewrite (hash_content_scalar p1 t1).
  rewrite (scalar_subset _ t1 (stable_sample_incl t1 2000) (txt_scalar _ _ E1)).
  cbn [bind].
  destruct (generate_short_id_of_digest
              (encode_utf8
                 (normalize_text_code_safe (_normalize_title_from_path p1)
                  ++ _stable_sample t1 2000)) id_prefix 6) as [ds Hds].
  rewrite Hds. cbn [bind]. do 2 eexists. repeat split; reflexivity.
Qed.

End Scalars.


Section OutcomeRuns.
Import Extract.

Lemma same_sample_same_id_witness :
  exists d1 d2,
    process_single_file (H := ascii_db) sample_world (U "/x/note.txt") (U "DOC")
    = Ok (U "/x/note.txt", Success d1)
    /\ process_single_file (H := ascii_db) sample_world (U "/y/note.txt") (U "DOC")
       = Ok (U "/y/note.txt", Success d2)
    /\ full_hash d1 = full_hash d2
    /\ short_id d1 = short_id d2.
Proof.
  apply (@same_sample_same_id ascii_db sample_world
           (U "/x/note.txt") (U "/y/note.txt") (U "DOC")
           (U "same text") (U "same text")); reflexivity.
Defined.

(** C1 as worded fails: two files called [doc.txt] that share their first
    2000 characters and differ in the last one get different ids, since
    the sample of a longer text also takes its middle and its end. *)
Lemma same_head_other_id : ~ same_head_same_id.
Proof.
  intros Hclaim.
  pose (d1 := {| short_id := U "DOC2F6G3ZSJ0M";
                 full_hash := U "sha256-dfaecaa2be468317952e8a219b71e8fb2d7ffa7feb504f6452bc883e603b439f";
                 title := U "Doc";
                 text := long_a ++ U "b" |}).
  pose (d2 := {| short_id := U "DOC2N74SILCC3";
                 full_hash := U "sha256-f44206f573b30b16d31d5259b97c032812fbbf2309bafc46871e023fc2065095";
                 title := U "Doc";
                 text := long_a ++ U "c" |}).
  assert (H : full_hash d1 = full_hash d2 /\ short_id d1 = short_id d2).
  { apply (Hclaim ascii_db sample_world (U "/x/doc.txt") (U "/y/doc.txt")
                  (U "DOC") (long_a ++ U "b") (long_a ++ U "c") d1 d2);
      vm_compute; reflexivity. }
  destruct H as [Hh _]. vm_compute in Hh. discriminate Hh.
Qed.

(** C9 as stated fails: for a MOBI whose page comes out of the parser as
    a lone surrogate, the text is not blank, its hash cannot be taken,
    and [process_single_file] raises [UnicodeEncodeError] in place of
    returning an outcome. *)
Lemma surrogate_text_raises : ~ every_path_one_outcome.
Proof.
  intros Hclaim.
  destruct (Hclaim ascii_db surrogate_world (U "/x/book.mobi") (U "DOC"))
    as [o Ho].
  vm_compute in Ho. discriminate Ho.
Qed.

End OutcomeRuns.
